(** * golden-thread core: container format, query layer, importer and media cache

    A shallow embedding of the parts of [golden-thread] (crates [core] and
    [app/src-tauri]) that the specification's properties are about:
    - [Container]: the chunked AES-256-GCM attachment container of
      [core/src/crypto.rs] (streaming encrypt and decrypt, plaintext length
      introspection, parallel decrypt);
    - [Query]: the timeline, scrapbook, media and tag queries of
      [core/src/query.rs], over list-modelled tables;
    - [Importer]: duplicate detection of [core/src/importer.rs] and the
      attachment mapping of [core/src/importer/attachments.rs];
    - [Media]: the preview cache of [app/src-tauri/src/media_ops.rs]. *)

From Stdlib Require Import String Ascii.
From Stdlib Require Import List ZArith NArith Lia Bool.
From Stdlib Require Import Sorting.Sorted Sorting.Permutation.
From Stdlib Require Import Structures.OrdersEx.
Import ListNotations.

(** ** Errors and results, as [core/src/error.rs] has them *)

Inductive CoreError :=
| Crypto (msg : string)
| InvalidArgument (msg : string)
| Sqlite (msg : string).

Inductive result (A : Type) :=
| Ok (a : A)
| Err (e : CoreError).
Arguments Ok {A} a.
Arguments Err {A} e.

Definition is_ok {A} (r : result A) : bool :=
  match r with Ok _ => true | Err _ => false end.

Module Container.

Open Scope N_scope.

Definition byte := Byte.byte.
Definition bytes := list byte.

Definition byte_of_N (n : N) : byte :=
  match Byte.of_N (n mod 256) with Some b => b | None => Byte.x00 end.

(** [const MAGIC: [u8; 4] = *b"GTAT"] *)
Definition MAGIC : bytes := [Byte.x47; Byte.x54; Byte.x41; Byte.x54].
Definition VERSION : byte := Byte.x01.
Definition DEFAULT_CHUNK_SIZE : N := 1024 * 1024.
Definition MAX_CHUNK_SIZE : N := 8 * 1024 * 1024.
Definition TAG_LEN : N := 16.
Definition HEADER_LEN : N := 21.
Definition U64_MAX : N := 2 ^ 64 - 1.

Definition saturating_add (a b : N) : N := N.min (a + b) U64_MAX.

Definition lenN {A} (l : list A) : N := N.of_nat (length l).
Definition take {A} (n : N) (l : list A) : list A := firstn (N.to_nat n) l.
Definition drop {A} (n : N) (l : list A) : list A := skipn (N.to_nat n) l.

(** [u32::to_le_bytes] after the [as u32] cast, and [u32::from_le_bytes]. *)
Definition le_u32 (n : N) : bytes :=
  let n := n mod 2 ^ 32 in
  [byte_of_N n; byte_of_N (n / 256); byte_of_N (n / 65536); byte_of_N (n / 16777216)].

Definition from_le_u32 (b : bytes) : N :=
  match b with
  | [b0; b1; b2; b3] =>
      Byte.to_N b0 + 256 * Byte.to_N b1 + 65536 * Byte.to_N b2 + 16777216 * Byte.to_N b3
  | _ => 0
  end.

(** [u64::to_be_bytes] *)
Definition be_u64 (n : N) : bytes :=
  map (fun i => byte_of_N (n / 256 ^ i)) [7; 6; 5; 4; 3; 2; 1; 0].

(** [nonce_for_chunk]: the first four bytes of the base nonce, then the
    big-endian counter. *)
Definition nonce_for_chunk (base : bytes) (counter : N) : bytes :=
  firstn 4 base ++ be_u64 counter.

(** [hex::encode] *)
Definition hex_digit (n : N) : ascii :=
  if n <? 10 then ascii_of_N (48 + n) else ascii_of_N (87 + n).

Fixpoint hex_encode (b : bytes) : string :=
  match b with
  | [] => EmptyString
  | x :: r =>
      let v := Byte.to_N x in
      String (hex_digit (v / 16)) (String (hex_digit (v mod 16)) (hex_encode r))
  end.

Fixpoint bytes_eqb (a b : bytes) : bool :=
  match a, b with
  | [], [] => true
  | x :: a, y :: b => Byte.eqb x y && bytes_eqb a b
  | _, _ => false
  end.

(** [hex::decode] of the [hex] crate: an input of odd length is
    rejected, then every pair of characters, taken from the left, must be
    two hex digits of either case; the error names the first offending
    character and its position. *)
Inductive FromHexError :=
| InvalidHexCharacter (c : ascii) (index : nat)
| OddLength.

Definition hex_val (c : ascii) : option N :=
  let n := N_of_ascii c in
  if (65 <=? n) && (n <=? 70) then Some (n - 55)
  else if (97 <=? n) && (n <=? 102) then Some (n - 87)
  else if (48 <=? n) && (n <=? 57) then Some (n - 48)
  else None.

Fixpoint hex_decode_pairs (i : nat) (s : string) : FromHexError + bytes :=
  match s with
  | String a (String b rest) =>
    match hex_val a with
    | None => inl (InvalidHexCharacter a (2 * i))
    | Some hi =>
      match hex_val b with
      | None => inl (InvalidHexCharacter b (2 * i + 1))
      | Some lo =>
        match hex_decode_pairs (S i) rest with
        | inl e => inl e
        | inr r => inr (byte_of_N (hi * 16 + lo) :: r)
        end
      end
    end
  | _ => inr []
  end.

Definition hex_decode (s : string) : FromHexError + bytes :=
  if Nat.odd (String.length s) then inl OddLength else hex_decode_pairs 0 s.

Section HexKey.
(** The [Display] text of a [FromHexError]. *)
Variable display_hex_error : FromHexError -> string.

(** [parse_hex_key]: the master key as the keychain (or, in debug builds,
    [GT_MASTER_KEY_HEX]) stores it. *)
Definition parse_hex_key (hex : string) : result bytes :=
  match hex_decode hex with
  | inl e => Err (Crypto ("invalid key: " ++ display_hex_error e))
  | inr b =>
    if negb (Nat.eqb (length b) 32) then Err (Crypto "invalid key length")
    else Ok b
  end.
End HexKey.

(** [write_header] *)
Definition write_header (base_nonce : bytes) (chunk_size : N) : bytes :=
  MAGIC ++ [VERSION] ++ le_u32 chunk_size ++ base_nonce.

(** [read_header]: each [read_exact] fails on a short input, the magic,
    version and chunk size are checked; returns the chunk size, the base
    nonce and the unread rest of the stream. *)
Definition read_exact (n : N) (s : bytes) : result (bytes * bytes) :=
  if lenN s <? n then Err (Crypto "failed to fill whole buffer")
  else Ok (take n s, drop n s).

Definition read_header (s : bytes) : result (N * bytes * bytes) :=
  match read_exact 4 s with
  | Err e => Err e
  | Ok (magic, s) =>
    if negb (bytes_eqb magic MAGIC) then Err (Crypto "invalid attachment header") else
    match read_exact 1 s with
    | Err e => Err e
    | Ok (version, s) =>
      if negb (bytes_eqb version [VERSION])
      then Err (Crypto "unsupported attachment version") else
      match read_exact 4 s with
      | Err e => Err e
      | Ok (chunk, s) =>
        let chunk_size := from_le_u32 chunk in
        if (chunk_size =? 0) || (MAX_CHUNK_SIZE <? chunk_size)
        then Err (Crypto "invalid chunk size") else
        match read_exact 12 s with
        | Err e => Err e
        | Ok (nonce, s) => Ok (chunk_size, nonce, s)
        end
      end
    end
  end.

Section Aead.

(** AES-256-GCM, as the [aes_gcm] crate provides it: [encrypt] is total on
    the chunk sizes used here and appends a 16-byte tag; [decrypt] checks the
    tag. *)
Variable aes_gcm_encrypt : bytes -> bytes -> bytes -> bytes.
Variable aes_gcm_decrypt : bytes -> bytes -> bytes -> option bytes.
(** SHA-256 as [sha2::Sha256]; a hasher that was fed [update]s returns,
    on [finalize], the digest of their concatenation. *)
Variable sha256 : bytes -> bytes.

(** The loop of [encrypt_stream_internal] reading from a byte slice: each
    [read] fills the buffer as far as the remaining input allows. Returns the
    bytes written, the bytes fed to the hasher and the running total. *)
Fixpoint encrypt_loop (fuel : nat) (key base : bytes) (chunk_size : N)
    (input : bytes) (counter total : N) (hashed : bytes) : bytes * bytes * N :=
  match fuel with
  | O => ([], hashed, total)
  | S fuel =>
    let buf := take chunk_size input in
    let n := lenN buf in
    if n =? 0 then ([], hashed, total)
    else
      let hashed := hashed ++ buf in
      let ct := aes_gcm_encrypt key (nonce_for_chunk base counter) buf in
      let '(out, h, t) :=
        encrypt_loop fuel key base chunk_size (drop chunk_size input)
          (saturating_add counter 1) (saturating_add total n) hashed in
      (ct ++ out, h, t)
  end.

(** [encrypt_stream_internal] with the base nonce drawn by [OsRng] given as
    [base_nonce]; returns the bytes written to [writer] and the result with
    the hasher's input. *)
Definition encrypt_stream_internal (input key base_nonce : bytes) (chunk_size : N)
    : bytes * result (N * bytes) :=
  if (chunk_size =? 0) || (MAX_CHUNK_SIZE <? chunk_size)
  then ([], Err (Crypto "invalid chunk size"))
  else
    let '(out, hashed, total) :=
      encrypt_loop (S (length input)) key base_nonce chunk_size input 0 0 [] in
    (write_header base_nonce chunk_size ++ out, Ok (total, hashed)).

(** [encrypt_stream_with_hash]: hex digest and plaintext total. *)
Definition encrypt_stream_with_hash (input key base_nonce : bytes)
    : bytes * result (string * N) :=
  let '(out, r) := encrypt_stream_internal input key base_nonce DEFAULT_CHUNK_SIZE in
  (out, match r with
        | Ok (total, hashed) => Ok (hex_encode (sha256 hashed), total)
        | Err e => Err e
        end).

(** The loop of [decrypt_stream]: the inner [while] fills the
    [chunk_size + TAG_LEN] buffer until it is full or the reader is at its
    end. Returns the result and the bytes written so far. *)
Fixpoint decrypt_loop (fuel : nat) (key base : bytes) (ct_chunk_size : N)
    (input : bytes) (counter total : N) : result N * bytes :=
  match fuel with
  | O => (Ok total, [])
  | S fuel =>
    let buf := take ct_chunk_size input in
    let read := lenN buf in
    if read =? 0 then (Ok total, [])
    else
      match aes_gcm_decrypt key (nonce_for_chunk base counter) buf with
      | None => (Err (Crypto "decrypt failed"), [])
      | Some pt =>
        let total := saturating_add total (lenN pt) in
        if read <? ct_chunk_size then (Ok total, pt)
        else
          let '(r, out) :=
            decrypt_loop fuel key base ct_chunk_size (drop ct_chunk_size input)
              (saturating_add counter 1) total in
          (r, pt ++ out)
      end
  end.

(** [decrypt_stream] on a reader over [input]; returns the result and what
    was written to [writer]. *)
Definition decrypt_stream (input key : bytes) : result N * bytes :=
  match read_header input with
  | Err e => (Err e, [])
  | Ok (chunk_size, base_nonce, rest) =>
    decrypt_loop (S (length rest)) key base_nonce (chunk_size + TAG_LEN) rest 0 0
  end.

End Aead.

(** [encrypted_plaintext_len] on a file whose bytes are [file]. *)
Definition encrypted_plaintext_len (file : bytes) : result N :=
  let total_len := lenN file in
  if total_len <? HEADER_LEN + TAG_LEN then Err (Crypto "encrypted file too small") else
  match read_header file with
  | Err e => Err e
  | Ok (chunk_size, _, _) =>
    let ct_chunk_size := chunk_size + TAG_LEN in
    let payload_len := total_len - HEADER_LEN in
    if payload_len =? 0 then Ok 0 else
    let full_chunks := payload_len / ct_chunk_size in
    let remainder := payload_len mod ct_chunk_size in
    if (0 <? remainder) && (remainder <? TAG_LEN)
    then Err (Crypto "invalid encrypted length")
    else
      let last_plain := if remainder =? 0 then 0 else remainder - TAG_LEN in
      Ok (full_chunks * chunk_size + last_plain)
  end.

(** [read_exact_at]: positional read of [len] bytes at [offset]. *)
Definition read_exact_at (file : bytes) (len offset : N) : result bytes :=
  let got := take len (drop offset file) in
  if lenN got <? len then Err (Crypto "unexpected EOF") else Ok got.

(** [write_exact_at] into a file of fixed length (the output was
    pre-truncated to the plaintext length, every write lies inside it). *)
Definition write_exact_at (file buf : bytes) (offset : N) : bytes :=
  take offset file ++ buf ++ drop (offset + lenN buf) file.

Section Parallel.

Variable aes_gcm_decrypt : bytes -> bytes -> bytes -> option bytes.

(** The body of one claimed chunk index [idx] in a worker of
    [decrypt_file_parallel]. *)
Definition decrypt_chunk_at (input key base_nonce : bytes)
    (chunk_size total_plain total_chunks idx : N) : result bytes :=
  let plain_len := if idx =? total_chunks - 1 then total_plain - idx * chunk_size
                   else chunk_size in
  let ct_len := plain_len + TAG_LEN in
  let offset := HEADER_LEN + idx * (chunk_size + TAG_LEN) in
  match read_exact_at input ct_len offset with
  | Err e => Err e
  | Ok ct_buf =>
    match aes_gcm_decrypt key (nonce_for_chunk base_nonce idx) ct_buf with
    | None => Err (Crypto "decrypt failed")
    | Some pt => Ok pt
    end
  end.

(** The workers claim every index [0 .. total_chunks - 1] exactly once
    through the shared counter and write disjoint ranges, so on success the
    output does not depend on which worker took which index; chunks are
    taken here in index order. A failing chunk makes the join return its
    error. *)
Fixpoint run_chunks (input key base_nonce : bytes)
    (chunk_size total_plain total_chunks : N) (idxs : list N) (out : bytes)
    : result unit * bytes :=
  match idxs with
  | [] => (Ok tt, out)
  | idx :: idxs =>
    match decrypt_chunk_at input key base_nonce chunk_size total_plain total_chunks idx with
    | Err e => (Err e, out)
    | Ok pt =>
      run_chunks input key base_nonce chunk_size total_plain total_chunks idxs
        (write_exact_at out pt (idx * chunk_size))
    end
  end.

Definition indices (n : N) : list N := map N.of_nat (seq 0 (N.to_nat n)).

(** [decrypt_file_parallel input output key workers]: returns the result
    and the content of [output] when the call created it. *)
Definition decrypt_file_parallel (input key : bytes) (workers : N)
    : result N * option bytes :=
  if workers =? 0 then (Err (Crypto "workers must be >= 1"), None) else
  match read_header input with
  | Err e => (Err e, None)
  | Ok (chunk_size, base_nonce, _) =>
    match encrypted_plaintext_len input with
    | Err e => (Err e, None)
    | Ok total_plain =>
      if total_plain =? 0 then (Ok 0, Some []) else
      let total_chunks := (total_plain + chunk_size - 1) / chunk_size in
      let out := repeat Byte.x00 (N.to_nat total_plain) in
      match run_chunks input key base_nonce chunk_size total_plain total_chunks
              (indices total_chunks) out with
      | (Ok _, out) => (Ok total_plain, Some out)
      | (Err e, out) => (Err e, Some out)
      end
    end
  end.

End Parallel.

(** A stand-in AEAD with the laws of AES-GCM used below, to run the
    definitions on concrete inputs: the tag is the nonce padded to 16
    bytes. *)
Definition toy_tag (key nonce : bytes) : bytes := firstn 16 (nonce ++ repeat Byte.x00 16).

Definition toy_encrypt (key nonce pt : bytes) : bytes := pt ++ toy_tag key nonce.

Definition toy_decrypt (key nonce ct : bytes) : option bytes :=
  if Nat.ltb (length ct) 16 then None
  else
    let n := (length ct - 16)%nat in
    if bytes_eqb (skipn n ct) (toy_tag key nonce) then Some (firstn n ct) else None.

Definition toy_sha256 (b : bytes) : bytes := firstn 32 (b ++ repeat Byte.x00 32).

End Container.

Module Query.

Open Scope Z_scope.

(** ** Rows *)

(** A [messages] row (the columns the queries below read). [sort_ts] is
    the stored column that migration 6 adds and the insert trigger of
    migration 7 fills. *)
Record Message := mkMessage {
  msg_id : string;
  msg_thread_id : string;
  msg_sent_at : option Z;
  msg_received_at : option Z;
  msg_sort_ts : Z
}.

(** An [attachments] row. *)
Record Attachment := mkAttachment {
  att_id : string;
  att_message_id : string;
  att_size_bytes : option Z;
  att_size_bucket : option Z
}.

(** A [message_tags] row. *)
Record MessageTag := mkMessageTag {
  mt_message_id : string;
  mt_tag_id : string;
  mt_tagged_at : Z
}.

(** Text comparison with SQLite's BINARY collation (bytewise), on ASCII ids. *)
Definition id_lt (a b : string) : bool :=
  match String_as_OT.compare a b with Lt => true | _ => false end.

Definition coalesce (a b : option Z) (d : Z) : Z :=
  match a with Some x => x | None => match b with Some y => y | None => d end end.

(** ** ORDER BY and LIMIT / OFFSET

    [sort_by before] is an insertion sort that puts [x] ahead of [y] when
    [before x y]. When the ORDER BY key is unique on the selected rows, as
    when it ends in a primary key, every order the engine may return is the
    one computed here (see [QueryFacts.sorted_unique]). *)
Section Sort.
Variable A : Type.
Variable before : A -> A -> bool.

Fixpoint insert_by (x : A) (l : list A) : list A :=
  match l with
  | [] => [x]
  | y :: l' => if before x y then x :: l else y :: insert_by x l'
  end.

Definition sort_by (l : list A) : list A := fold_right insert_by [] l.
End Sort.
Arguments insert_by {A} before x l.
Arguments sort_by {A} before l.

(** [LIMIT n]: a negative limit means no limit. *)
Definition sql_limit {A} (limit : Z) (l : list A) : list A :=
  if limit <? 0 then l else firstn (Z.to_nat limit) l.

(** [LIMIT n OFFSET k]: a negative offset counts as 0. *)
Definition sql_limit_offset {A} (limit offset : Z) (l : list A) : list A :=
  sql_limit limit (skipn (Z.to_nat offset) l).

(** ** Timeline *)

(** [ORDER BY sort_ts DESC, id DESC] *)
Definition ts_id_desc (a b : Message) : bool :=
  (msg_sort_ts b <? msg_sort_ts a)
  || ((msg_sort_ts a =? msg_sort_ts b) && id_lt (msg_id b) (msg_id a)).

(** [list_messages conn thread_id before_ts before_id limit] *)
Definition list_messages (messages : list Message) (thread_id : string)
    (before_ts : option Z) (before_id : option string) (limit : Z) : list Message :=
  let cond (m : Message) : bool :=
    String.eqb (msg_thread_id m) thread_id &&
    match before_ts, before_id with
    | Some ts, Some id => (msg_sort_ts m <? ts) || ((msg_sort_ts m =? ts) && id_lt (msg_id m) id)
    | Some ts, None => msg_sort_ts m <? ts
    | None, _ => true
    end in
  sql_limit limit (sort_by ts_id_desc (filter cond messages)).

(** [Vec::last] *)
Fixpoint last_opt {A} (l : list A) : option A :=
  match l with
  | [] => None
  | [x] => Some x
  | _ :: l => last_opt l
  end.

(** A client paging backward through a thread: the first call has no
    cursor, each further call takes the (sort_ts, id) of the last row of
    the previous page; it stops at the first empty page. *)
Fixpoint pages_from (fuel : nat) (messages : list Message) (thread_id : string)
    (limit : Z) (cursor : Message) : list (list Message) :=
  match fuel with
  | O => []
  | S fuel =>
    let page := list_messages messages thread_id (Some (msg_sort_ts cursor))
                  (Some (msg_id cursor)) limit in
    match last_opt page with
    | None => []
    | Some c => page :: pages_from fuel messages thread_id limit c
    end
  end.

Definition paginate (messages : list Message) (thread_id : string) (limit : Z)
    : list (list Message) :=
  let page := list_messages messages thread_id None None limit in
  match last_opt page with
  | None => []
  | Some c => page :: pages_from (length messages) messages thread_id limit c
  end.

Definition in_thread (thread_id : string) (m : Message) : bool :=
  String.eqb (msg_thread_id m) thread_id.

(** The rows of a thread in [ORDER BY sort_ts DESC, id DESC]. *)
Definition timeline (messages : list Message) (thread_id : string) : list Message :=
  sort_by ts_id_desc (filter (in_thread thread_id) messages).

(** The cursor condition of [list_messages]. *)
Definition cursor_pred (ts : Z) (id : string) (m : Message) : bool :=
  (msg_sort_ts m <? ts) || ((msg_sort_ts m =? ts) && id_lt (msg_id m) id).

(** ** Scrapbook *)

(** A [threads] row: id and name. *)
Record Thread := mkThread { th_id : string; th_name : option string }.

(** [COALESCE(sent_at, received_at, 0)] *)
Definition msg_ts (m : Message) : Z := coalesce (msg_sent_at m) (msg_received_at m) 0.

(** The [EXISTS] body of [are_messages_adjacent]: [m3] lies strictly
    between [m1] and [m2] in the (timestamp, id) order. *)
Definition between_ts_id (m1 m2 m3 : Message) : bool :=
  String.eqb (msg_thread_id m3) (msg_thread_id m1)
  && ((msg_ts m1 <? msg_ts m3) || ((msg_ts m3 =? msg_ts m1) && id_lt (msg_id m1) (msg_id m3)))
  && ((msg_ts m3 <? msg_ts m2) || ((msg_ts m3 =? msg_ts m2) && id_lt (msg_id m3) (msg_id m2))).

(** [are_messages_adjacent conn earlier_id later_id]: [COUNT(1)] over the
    pairs (m1, m2) of the join, then [count == 0]. *)
Definition are_messages_adjacent (messages : list Message) (earlier_id later_id : string)
    : bool :=
  let count :=
    length (filter (fun '(m1, m2) =>
              String.eqb (msg_id m1) earlier_id && String.eqb (msg_id m2) later_id
              && String.eqb (msg_thread_id m1) (msg_thread_id m2)
              && existsb (between_ts_id m1 m2) messages)
            (list_prod messages messages)) in
  Nat.eqb count 0.

(** A row of the scrapbook query: the message, [mt.tagged_at], [t.name]. *)
Definition ScrapRow : Type := (Message * Z * option string)%type.

(** [ORDER BY mt.tagged_at DESC, m.id DESC] *)
Definition tagged_desc (a b : ScrapRow) : bool :=
  let '(ma, ta, _) := a in
  let '(mb, tb, _) := b in
  (tb <? ta) || ((ta =? tb) && id_lt (msg_id mb) (msg_id ma)).

(** The SELECT of [list_scrapbook_messages]: messages joined with
    message_tags and threads, filtered, ordered, limited. *)
Definition scrapbook_query (messages : list Message) (message_tags : list MessageTag)
    (threads : list Thread) (tag_id : string) (before_ts : option Z)
    (before_id : option string) (limit : Z) : list ScrapRow :=
  let joined :=
    flat_map (fun m =>
      flat_map (fun mt =>
        flat_map (fun t =>
          if String.eqb (mt_message_id mt) (msg_id m) && String.eqb (th_id t) (msg_thread_id m)
          then [(m, mt, t)] else [])
        threads)
      message_tags)
    messages in
  let cond (r : Message * MessageTag * Thread) : bool :=
    let '(m, mt, _) := r in
    String.eqb (mt_tag_id mt) tag_id
    && match before_ts, before_id with
       | Some ts, Some id =>
           (mt_tagged_at mt <? ts) || ((mt_tagged_at mt =? ts) && id_lt (msg_id m) id)
       | Some ts, None => mt_tagged_at mt <? ts
       | None, _ => true
       end in
  let select (r : Message * MessageTag * Thread) : ScrapRow :=
    let '(m, mt, t) := r in (m, mt_tagged_at mt, th_name t) in
  sql_limit limit (sort_by tagged_desc (map select (filter cond joined))).

Record ScrapbookMessage := mkScrapbookMessage {
  sm_message : Message;
  sm_thread_name : option string;
  sm_is_discontinuous : bool
}.

(** The loop over [messages_with_threads]; [prev] is the row at [i - 1]. *)
Fixpoint discontinuity_loop (messages : list Message) (prev : option Message)
    (rows : list ScrapRow) : list ScrapbookMessage :=
  match rows with
  | [] => []
  | (message, _, thread_name) :: rows' =>
    let is_discontinuous :=
      match prev with
      | None => false
      | Some prev_message =>
        if String.eqb (msg_thread_id prev_message) (msg_thread_id message) then
          let prev_ts := msg_ts prev_message in
          let curr_ts := msg_ts message in
          let '(earlier_id, later_id) :=
            if curr_ts <? prev_ts then (msg_id message, msg_id prev_message)
            else (msg_id prev_message, msg_id message) in
          negb (are_messages_adjacent messages earlier_id later_id)
        else false
      end in
    mkScrapbookMessage message thread_name is_discontinuous
      :: discontinuity_loop messages (Some message) rows'
  end.

Definition list_scrapbook_messages (messages : list Message) (message_tags : list MessageTag)
    (threads : list Thread) (tag_id : string) (before_ts : option Z)
    (before_id : option string) (limit : Z) : list ScrapbookMessage :=
  discontinuity_loop messages None
    (scrapbook_query messages message_tags threads tag_id before_ts before_id limit).

(** ** Media listings *)

(** A row of [attachments a JOIN messages m ON m.id = a.message_id]. *)
Definition MediaRow : Type := (Attachment * Message)%type.

Definition media_join (attachments : list Attachment) (messages : list Message)
    : list MediaRow :=
  flat_map (fun a =>
    flat_map (fun m => if String.eqb (msg_id m) (att_message_id a) then [(a, m)] else [])
      messages)
    attachments.

(** [ORDER BY m.sent_at DESC NULLS LAST, a.id ASC] *)
Definition media_before (r1 r2 : MediaRow) : bool :=
  let '(a1, m1) := r1 in
  let '(a2, m2) := r2 in
  match msg_sent_at m1, msg_sent_at m2 with
  | Some x, Some y => (y <? x) || ((x =? y) && id_lt (att_id a1) (att_id a2))
  | Some _, None => true
  | None, Some _ => false
  | None, None => id_lt (att_id a1) (att_id a2)
  end.

(** [list_media conn thread_id limit offset]: the attachment columns. *)
Definition list_media (attachments : list Attachment) (messages : list Message)
    (thread_id : option string) (limit offset : Z) : list Attachment :=
  let cond (r : MediaRow) : bool :=
    match thread_id with
    | None => true
    | Some t => String.eqb (msg_thread_id (snd r)) t
    end in
  map fst (sql_limit_offset limit offset
             (sort_by media_before (filter cond (media_join attachments messages)))).

Definition ifnull (a : option Z) (d : Z) : Z := match a with Some x => x | None => d end.

(** The [order_by] of [list_thread_media], chosen by [sort]. *)
Definition thread_media_before (sort : string) (r1 r2 : MediaRow) : bool :=
  let '(a1, m1) := r1 in
  let '(a2, m2) := r2 in
  let c1 := msg_ts m1 in
  let c2 := msg_ts m2 in
  let s1 := ifnull (att_size_bytes a1) 0 in
  let s2 := ifnull (att_size_bytes a2) 0 in
  if String.eqb sort "size_asc" then (s1 <? s2) || ((s1 =? s2) && (c2 <? c1))
  else if String.eqb sort "size_desc" then (s2 <? s1) || ((s1 =? s2) && (c2 <? c1))
  else if String.eqb sort "date_asc" then
    (c1 <? c2) || ((c1 =? c2) && id_lt (att_id a1) (att_id a2))
  else (c2 <? c1) || ((c1 =? c2) && id_lt (att_id a1) (att_id a2)).

Definition list_thread_media (attachments : list Attachment) (messages : list Message)
    (thread_id : string) (from_ts to_ts size_bucket : option Z) (sort : string)
    (limit offset : Z) : list MediaRow :=
  let cond (r : MediaRow) : bool :=
    let '(a, m) := r in
    String.eqb (msg_thread_id m) thread_id
    && match from_ts with Some f => f <=? msg_ts m | None => true end
    && match to_ts with Some t => msg_ts m <=? t | None => true end
    && match size_bucket with
       | Some b => match att_size_bucket a with Some b' => b' =? b | None => false end
       | None => true
       end in
  sql_limit_offset limit offset
    (sort_by (thread_media_before sort) (filter cond (media_join attachments messages))).

(** The orders the engine may return for an ORDER BY whose strict order is
    [before]: the permutations of the rows in which no row is placed after a
    row that it sorts before. *)
Definition order_admits {A} (before : A -> A -> bool) (rows out : list A) : Prop :=
  Permutation rows out /\ StronglySorted (fun x y => before y x = false) out.

(** ** Tag assignment *)

(** The tables [set_message_tags] touches: the keys of [messages] and
    [tags] (for the foreign keys, on since [PRAGMA foreign_keys = ON]) and
    the rows of [message_tags]. *)
Record TagDb := mkTagDb {
  db_message_ids : list string;
  db_tag_ids : list string;
  db_message_tags : list MessageTag
}.

(** [DELETE FROM message_tags WHERE message_id = ?1] *)
Definition exec_delete_tags (db : TagDb) (message_id : string) : TagDb :=
  mkTagDb (db_message_ids db) (db_tag_ids db)
    (filter (fun mt => negb (String.eqb (mt_message_id mt) message_id)) (db_message_tags db)).

(** [INSERT INTO message_tags (message_id, tag_id, tagged_at) VALUES (...)]:
    the primary key (message_id, tag_id), then the foreign keys. *)
Definition exec_insert_tag (db : TagDb) (message_id tag_id : string) (now : Z)
    : result TagDb :=
  if existsb (fun mt => String.eqb (mt_message_id mt) message_id
                        && String.eqb (mt_tag_id mt) tag_id) (db_message_tags db)
  then Err (Sqlite "UNIQUE constraint failed: message_tags.message_id, message_tags.tag_id")
  else if negb (existsb (String.eqb message_id) (db_message_ids db))
          || negb (existsb (String.eqb tag_id) (db_tag_ids db))
  then Err (Sqlite "FOREIGN KEY constraint failed")
  else Ok (mkTagDb (db_message_ids db) (db_tag_ids db)
             (db_message_tags db ++ [mkMessageTag message_id tag_id now])).

(** The insert loop; every statement commits on its own (no transaction),
    so the state after an error is the state left by the statements before it. *)
Fixpoint insert_tags (db : TagDb) (message_id : string) (tag_ids : list string) (now : Z)
    : result unit * TagDb :=
  match tag_ids with
  | [] => (Ok tt, db)
  | tag_id :: rest =>
    match exec_insert_tag db message_id tag_id now with
    | Err e => (Err e, db)
    | Ok db' => insert_tags db' message_id rest now
    end
  end.

(** [set_message_tags conn message_id tag_ids], [now] the clock read. *)
Definition set_message_tags (db : TagDb) (message_id : string) (tag_ids : list string)
    (now : Z) : result unit * TagDb :=
  insert_tags (exec_delete_tags db message_id) message_id tag_ids now.

(** ** Around a message *)

(** [ORDER BY sort_ts ASC, id ASC] *)
Definition ts_id_asc (a b : Message) : bool :=
  (msg_sort_ts a <? msg_sort_ts b)
  || ((msg_sort_ts a =? msg_sort_ts b) && id_lt (msg_id a) (msg_id b)).

(** [list_messages_after conn thread_id after_ts after_id limit] *)
Definition list_messages_after (messages : list Message) (thread_id : string)
    (after_ts : Z) (after_id : option string) (limit : Z) : list Message :=
  let cond (m : Message) : bool :=
    String.eqb (msg_thread_id m) thread_id &&
    match after_id with
    | Some id => (after_ts <? msg_sort_ts m) || ((msg_sort_ts m =? after_ts) && id_lt id (msg_id m))
    | None => after_ts <? msg_sort_ts m
    end in
  sql_limit limit (sort_by ts_id_asc (filter cond messages)).

(** [get_message conn message_id]: [query_row] on the primary key; no row
    is rusqlite's [QueryReturnedNoRows], which [CoreError::Sqlite] wraps. *)
Definition get_message (messages : list Message) (message_id : string) : result Message :=
  match find (fun m => String.eqb (msg_id m) message_id) messages with
  | Some m => Ok m
  | None => Err (Sqlite "Query returned no rows")
  end.

(** [list_messages_around conn message_id before after] *)
Definition list_messages_around (messages : list Message) (message_id : string)
    (before after : Z) : result (list Message) :=
  match get_message messages message_id with
  | Err e => Err e
  | Ok center =>
    let center_ts := coalesce (msg_sent_at center) (msg_received_at center) 0 in
    let older := rev (list_messages messages (msg_thread_id center) (Some center_ts)
                        (Some (msg_id center)) before) in
    let newer := list_messages_after messages (msg_thread_id center) center_ts
                   (Some (msg_id center)) after in
    Ok (older ++ [center] ++ newer)
  end.

(** ** Threads *)

(** A [threads] row (the columns [list_threads] reads). *)
Record ThreadRow := mkThreadRow {
  tr_id : string;
  tr_name : option string;
  tr_last_message_at : option Z
}.

Record ThreadSummary := mkThreadSummary {
  thr_id : string;
  thr_name : option string;
  thr_last_message_at : option Z;
  thr_message_count : Z
}.

(** The SELECT list of [list_threads], with the correlated
    [COUNT(1)] over [messages]. *)
Definition thread_summary (messages : list Message) (t : ThreadRow) : ThreadSummary :=
  mkThreadSummary (tr_id t) (tr_name t) (tr_last_message_at t)
    (Z.of_nat (length (filter (fun m => String.eqb (msg_thread_id m) (tr_id t)) messages))).

(** [ORDER BY t.last_message_at DESC NULLS LAST, t.id ASC] *)
Definition thread_before (a b : ThreadSummary) : bool :=
  match thr_last_message_at a, thr_last_message_at b with
  | Some x, Some y => (y <? x) || ((x =? y) && id_lt (thr_id a) (thr_id b))
  | Some _, None => true
  | None, Some _ => false
  | None, None => id_lt (thr_id a) (thr_id b)
  end.

Definition list_threads (threads : list ThreadRow) (messages : list Message) (limit offset : Z)
    : list ThreadSummary :=
  sql_limit_offset limit offset (sort_by thread_before (map (thread_summary messages) threads)).

End Query.

(** * Importer *)

Module Importer.

Open Scope Z_scope.

(** ** Import rows *)

Inductive ImportStatus := Running | Success | Failed.

Definition status_eqb (a b : ImportStatus) : bool :=
  match a, b with
  | Running, Running | Success, Success | Failed, Failed => true
  | _, _ => false
  end.

(** An [imports] row. *)
Record ImportRow := mkImportRow {
  imp_id : string;
  imp_imported_at : Z;
  imp_source_filename : string;
  imp_source_hash : string;
  imp_status : ImportStatus
}.

Record ImportPlan := mkImportPlan {
  plan_source_filename : string;
  plan_source_hash : string
}.

(** [SELECT id FROM imports WHERE source_hash = ?1 AND status = 'success' LIMIT 1] *)
Definition select_success_import (imports : list ImportRow) (source_hash : string)
    : option string :=
  match find (fun r => String.eqb (imp_source_hash r) source_hash
                       && status_eqb (imp_status r) Success) imports with
  | Some r => Some (imp_id r)
  | None => None
  end.

(** [INSERT INTO imports ...]: the primary key [id], then the unique index
    [idx_imports_source_hash] of migration 5, on every row. *)
Definition insert_import (imports : list ImportRow) (row : ImportRow)
    : result (list ImportRow) :=
  if existsb (fun r => String.eqb (imp_id r) (imp_id row)) imports
  then Err (Sqlite "UNIQUE constraint failed: imports.id")
  else if existsb (fun r => String.eqb (imp_source_hash r) (imp_source_hash row)) imports
  then Err (Sqlite "UNIQUE constraint failed: imports.source_hash")
  else Ok (imports ++ [row]).

(** The start of [import_backup_with_progress], up to the [running] row:
    [import_id] is the fresh UUID, [import_started_at] the clock read. *)
Definition import_begin (imports : list ImportRow) (plan : ImportPlan)
    (import_id : string) (import_started_at : Z) : result (list ImportRow) :=
  match select_success_import imports (plan_source_hash plan) with
  | Some _ => Err (InvalidArgument "archive already loaded for this backup")
  | None =>
    insert_import imports
      (mkImportRow import_id import_started_at (plan_source_filename plan)
         (plan_source_hash plan) Running)
  end.

(** [UPDATE imports SET status = 'failed' ... WHERE id = ?1], run when the
    decode step fails. *)
Definition mark_failed (imports : list ImportRow) (import_id : string) : list ImportRow :=
  map (fun r => if String.eqb (imp_id r) import_id
                then mkImportRow (imp_id r) (imp_imported_at r) (imp_source_filename r)
                       (imp_source_hash r) Failed
                else r) imports.

(** ** Decimal rendering ([format!("{}", n)] of an [i64]) *)

Fixpoint digits_of_N (fuel : nat) (n : N) (acc : string) : string :=
  match fuel with
  | O => acc
  | S f =>
    let acc' := String (ascii_of_N (48 + n mod 10)%N) acc in
    if (n <? 10)%N then acc' else digits_of_N f (n / 10)%N acc'
  end.

Definition string_of_N (n : N) : string := digits_of_N (S (N.size_nat n)) n "".

Definition string_of_Z (z : Z) : string :=
  match z with
  | Zneg p => String "-" (string_of_N (Npos p))
  | _ => string_of_N (Z.to_N z)
  end.

(** Message ids of the sms and mms tables. *)
Definition sms_message_id (id : Z) : string := ("sms:" ++ string_of_Z id)%string.
Definition mms_message_id (id : Z) : string := ("mms:" ++ string_of_Z id)%string.

(** ** Attachments *)

(** A row of the [part] (or [attachment]) table: the columns read. *)
Record Part := mkPart {
  part_row_id : Z;
  part_mid : option Z;
  part_unique_id : option Z;
  part_mime : option string;
  part_data_size : option Z;
  part_file_name : option string
}.

Record AttachmentJob := mkAttachmentJob {
  job_mid : Z;
  job_attachment_path : string;
  job_mime : option string;
  job_data_size : option Z;
  job_file_name : option string
}.

Record AttachmentRowData := mkAttachmentRowData {
  ad_id : string;
  ad_message_id : string;
  ad_sha256 : string;
  ad_mime : option string;
  ad_size_bytes : option Z;
  ad_size_bucket : option Z;
  ad_original_filename : option string;
  ad_kind : string
}.

Definition SIZE_SMALL_MAX : Z := 1 * 1024 * 1024 - 1.
Definition SIZE_MEDIUM_MAX : Z := 10 * 1024 * 1024 - 1.

Definition bucket_from_size (size_bytes : Z) : Z :=
  if size_bytes <=? SIZE_SMALL_MAX then 0
  else if size_bytes <=? SIZE_MEDIUM_MAX then 1
  else 2.

Definition infer_kind (mime : string) : string :=
  if String.prefix "image/" mime then "image"
  else if String.prefix "video/" mime then "video"
  else if String.prefix "audio/" mime then "audio"
  else "file".

(** The job loop: a part with a NULL message reference is skipped. *)
Definition job_of_part (export_dir : string) (p : Part) : option AttachmentJob :=
  match part_mid p with
  | None => None
  | Some mid =>
    let unique_id_val := match part_unique_id p with Some u => u | None => -1 end in
    let unique_id_val := if unique_id_val =? 0 then -1 else unique_id_val in
    Some (mkAttachmentJob mid
            (export_dir ++ "/Attachment_" ++ string_of_Z (part_row_id p) ++ "_"
               ++ string_of_Z unique_id_val ++ ".bin")
            (part_mime p) (part_data_size p) (part_file_name p))
  end.

Definition jobs_of (export_dir : string) (parts : list Part) : list AttachmentJob :=
  flat_map (fun p => match job_of_part export_dir p with Some j => [j] | None => [] end) parts.

Inductive AttachmentResult :=
| Found (row : AttachmentRowData)
| Missing
| Error (msg : string).

Section Pipeline.
(** The file system test and [copy_attachment] (encrypt into the
    content-addressed store, return the plaintext SHA-256 and size). *)
Variable path_exists : string -> bool.
Variable copy_attachment : string -> result (string * Z).

(** The body of a worker for one job. *)
Definition process_job (job : AttachmentJob) : AttachmentResult :=
  if negb (path_exists (job_attachment_path job)) then Missing
  else
    match copy_attachment (job_attachment_path job) with
    | Ok (sha256, file_size) =>
      let size_bytes := match job_data_size job with Some s => Some s | None => Some file_size end in
      let size_bucket := option_map bucket_from_size size_bytes in
      let kind := match job_mime job with Some m => infer_kind m | None => "file"%string end in
      let message_id := ("mms:" ++ string_of_Z (job_mid job))%string in
      let attachment_id := ("att:" ++ message_id ++ ":" ++ sha256)%string in
      Found (mkAttachmentRowData attachment_id message_id sha256 (job_mime job)
               size_bytes size_bucket (job_file_name job) kind)
    | Err e =>
      Error (match e with Crypto m | InvalidArgument m | Sqlite m => m end)
    end.

(** The writer loop over the results, in the order they arrive: rows to
    insert and the count of missing files; a worker error aborts. *)
Fixpoint collect_results (results : list AttachmentResult)
    : result (list AttachmentRowData * Z) :=
  match results with
  | [] => Ok ([], 0)
  | Found row :: rest =>
    match collect_results rest with
    | Ok (rows, missing) => Ok (row :: rows, missing)
    | Err e => Err e
    end
  | Missing :: rest =>
    match collect_results rest with
    | Ok (rows, missing) => Ok (rows, missing + 1)
    | Err e => Err e
    end
  | Error msg :: _ => Err (InvalidArgument msg)
  end.

(** [map_attachments]: the rows handed to [insert_attachment_batch] and the
    number of missing files, for the results taken in job order (the workers
    run in parallel; the form of each row does not depend on the order). *)
Definition map_attachments (export_dir : string) (parts : list Part)
    : result (list AttachmentRowData * Z) :=
  collect_results (map process_job (jobs_of export_dir parts)).
End Pipeline.

(** ** Passphrase *)

(** A Rust [&str] or [String] as the sequence of its Unicode scalar values,
    the items of [str::chars]. *)
Definition rstr : Type := list Z.

(** The bytes a scalar value takes in UTF-8. *)
Definition utf8_len (c : Z) : nat :=
  if c <? 128 then 1 else if c <? 2048 then 2 else if c <? 65536 then 3 else 4.

(** [str::len]: the length in bytes. *)
Definition str_len (s : rstr) : nat := fold_right (fun c n => (utf8_len c + n)%nat) 0%nat s.

(** [char::is_whitespace]: the Unicode [White_Space] property (tab to
    carriage return, space, U+0085, U+00A0, U+1680, U+2000 to U+200A,
    U+2028, U+2029, U+202F, U+205F and U+3000). *)
Definition is_whitespace (c : Z) : bool :=
  ((9 <=? c) && (c <=? 13)) || (c =? 32) || (c =? 133) || (c =? 160) || (c =? 5760)
  || ((8192 <=? c) && (c <=? 8202)) || (c =? 8232) || (c =? 8233) || (c =? 8239)
  || (c =? 8287) || (c =? 12288).

(** [char::is_ascii_digit] *)
Definition is_ascii_digit (c : Z) : bool := (48 <=? c) && (c <=? 57).

Fixpoint trim_start (s : rstr) : rstr :=
  match s with
  | [] => []
  | c :: rest => if is_whitespace c then trim_start rest else s
  end.

Fixpoint trim_end (s : rstr) : rstr :=
  match s with
  | [] => []
  | c :: rest =>
    let rest' := trim_end rest in
    match rest' with
    | [] => if is_whitespace c then [] else [c]
    | _ => c :: rest'
    end
  end.

(** [str::trim], which strips [char::is_whitespace] at both ends. *)
Definition trim (s : rstr) : rstr := trim_end (trim_start s).

(** [c != '-'] and not whitespace: the filter of [normalize_passphrase]. *)
Definition passphrase_keep (c : Z) : bool :=
  negb (is_whitespace c) && negb (c =? 45).

(** [normalize_passphrase raw]: [inl m] is [Err(CoreError::InvalidPassphrase(m))];
    [chars().filter(..).collect()] is [filter], [chars().all(..)] is
    [forallb]. *)
Definition normalize_passphrase (raw : rstr) : string + rstr :=
  let trimmed := trim raw in
  if Nat.eqb (str_len trimmed) 0 then inl "passphrase is empty"%string
  else
    let normalized := filter passphrase_keep trimmed in
    if negb (Nat.eqb (str_len normalized) 30) then inl "passphrase must be 30 digits"%string
    else if negb (forallb is_ascii_digit normalized)
    then inl "passphrase must contain only digits"%string
    else inr normalized.

(** An ASCII string literal as scalar values. *)
Definition of_ascii (s : string) : rstr :=
  map (fun c => Z.of_nat (nat_of_ascii c)) (list_ascii_of_string s).

(** ** Message batches *)

(** [MessageRowData] *)
Record MessageRowData := mkMessageRowData {
  row_id : string;
  row_thread_id : string;
  row_sender_id : option string;
  row_sent_at : option Z;
  row_received_at : option Z;
  row_message_type : string;
  row_body : option string;
  row_is_outgoing : Z;
  row_is_view_once : Z;
  row_quote_message_id : option string;
  row_metadata_json : option string;
  row_dedupe_key : string
}.

(** A stored [messages] row: the thirteen columns the batch insert writes,
    [sort_ts] apart. *)
Record MessagesRow := mkMessagesRow {
  mr_data : MessageRowData;
  mr_sort_ts : Z
}.

(** The columns the queries read. *)
Definition message_of (r : MessagesRow) : Query.Message :=
  Query.mkMessage (row_id (mr_data r)) (row_thread_id (mr_data r)) (row_sent_at (mr_data r))
    (row_received_at (mr_data r)) (mr_sort_ts r).

(** One row of [INSERT OR IGNORE INTO messages ...]: a row whose [id]
    (primary key) or [dedupe_key] (UNIQUE) is already stored is skipped;
    otherwise it is stored and trigger [trg_messages_sort_ts] of migration 7
    runs. The second component is the row's share of [changes()]. *)
Definition insert_or_ignore_message (table : list MessagesRow) (row : MessageRowData)
    (sort_ts : Z) : list MessagesRow * Z :=
  if existsb (fun r => String.eqb (row_id (mr_data r)) (row_id row)) table
     || existsb (fun r => String.eqb (row_dedupe_key (mr_data r)) (row_dedupe_key row)) table
  then (table, 0)
  else
    let table' := table ++ [mkMessagesRow row sort_ts] in
    if sort_ts =? 0 then
      (map (fun r => if String.eqb (row_id (mr_data r)) (row_id row)
                     then mkMessagesRow (mr_data r)
                            (Query.coalesce (row_sent_at row) (row_received_at row) 0)
                     else r) table', 1)
    else (table', 1).

(** [insert_message_batch tx batch]: one multi-row statement, its rows
    taken in order; the result is [changes()]. *)
Definition insert_message_batch (table : list MessagesRow) (batch : list MessageRowData)
    : result Z * list MessagesRow :=
  match batch with
  | [] => (Ok 0, table)
  | _ =>
    let '(table', changes) :=
      fold_left (fun '(t, n) row =>
          let '(t', c) := insert_or_ignore_message t row
                            (Query.coalesce (row_sent_at row) (row_received_at row) 0) in
          (t', n + c))
        batch (table, 0) in
    (Ok changes, table')
  end.

(** ** Thread activity and message direction *)

(** [is_outgoing_type]: the base type is [(msg_type as u64) & 0x1F]. *)
Definition is_outgoing_type (msg_type : Z) : bool :=
  let base := Z.land (msg_type mod 2 ^ 64) 31 in
  existsb (Z.eqb base) [21; 22; 23; 24; 25; 26; 2; 11].

(** [MAX(sort_ts)] over the selected rows; [NULL] when there are none. *)
Definition max_sort_ts (ms : list Query.Message) : option Z :=
  fold_left (fun acc m =>
      match acc with
      | None => Some (Query.msg_sort_ts m)
      | Some a => Some (Z.max a (Query.msg_sort_ts m))
      end) ms None.

(** [update_thread_activity]: every thread's [last_message_at] becomes the
    greatest [sort_ts] of its messages. *)
Definition update_thread_activity (threads : list Query.ThreadRow) (messages : list Query.Message)
    : list Query.ThreadRow :=
  map (fun t => Query.mkThreadRow (Query.tr_id t) (Query.tr_name t)
                  (max_sort_ts (filter (fun m => String.eqb (Query.msg_thread_id m) (Query.tr_id t))
                                  messages)))
    threads.

End Importer.

(** * Media cache *)

Module Media.

Open Scope Z_scope.

Record MediaCacheEntry := mkMediaCacheEntry {
  entry_path : string;
  entry_last_access : Z
}.

(** [entries] as an association list with distinct keys (a [HashMap]). *)
Record MediaCache := mkMediaCache {
  entries : list (string * MediaCacheEntry);
  evicted : list string
}.

(** The file system as the list of existing paths. *)
Definition remove_file (path : string) (fs : list string) : list string :=
  filter (fun q => negb (String.eqb q path)) fs.

(** [key.split_once(':')], first component. *)
Fixpoint before_colon (s : string) : option string :=
  match s with
  | EmptyString => None
  | String c rest =>
    if Ascii.eqb c ":" then Some EmptyString
    else option_map (String c) (before_colon rest)
  end.

Definition record_eviction (c : MediaCache) (key : string) : MediaCache :=
  let sha := match before_colon key with Some sha => sha | None => key end in
  mkMediaCache (entries c) (evicted c ++ [sha]).

Definition MEDIA_TTL : Z := 300.

(** [evict_expired] at time [now] (seconds). *)
Definition evict_expired (c : MediaCache) (fs : list string) (now : Z)
    : MediaCache * list string :=
  let expired := filter (fun ke => MEDIA_TTL <? now - entry_last_access (snd ke)) (entries c) in
  fold_left (fun '(c, fs) ke =>
      let c' := mkMediaCache
                  (filter (fun ke' => negb (String.eqb (fst ke') (fst ke))) (entries c))
                  (evicted c) in
      (record_eviction c' (fst ke), remove_file (entry_path (snd ke)) fs))
    expired (c, fs).

(** [MediaCache::clear] *)
Definition clear (c : MediaCache) (fs : list string) : MediaCache * list string :=
  let fs' := fold_left (fun fs ke => remove_file (entry_path (snd ke)) fs) (entries c) fs in
  (mkMediaCache [] [], fs').

(** [MediaCache::drain_evictions]: [mem::take] of the queue. *)
Definition drain_evictions (c : MediaCache) : list string * MediaCache :=
  (evicted c, mkMediaCache (entries c) []).

Definition MAX_MEDIA_FILES : nat := 20.

(** [HashMap::insert]: the entry of an existing key is replaced in place,
    a new key is added. *)
Definition map_insert (key : string) (e : MediaCacheEntry)
    (l : list (string * MediaCacheEntry)) : list (string * MediaCacheEntry) :=
  if existsb (fun ke => String.eqb (fst ke) key) l
  then map (fun ke => if String.eqb (fst ke) key then (key, e) else ke) l
  else l ++ [(key, e)].

(** [iter().min_by_key(|(_, entry)| entry.last_access)]: of several
    minima, the first in iteration order. *)
Fixpoint min_by_last_access (l : list (string * MediaCacheEntry))
    : option (string * MediaCacheEntry) :=
  match l with
  | [] => None
  | ke :: rest =>
    match min_by_last_access rest with
    | None => Some ke
    | Some m =>
      if entry_last_access (snd m) <? entry_last_access (snd ke) then Some m else Some ke
    end
  end.

(** The [while] loop of [evict_lru]; every round removes one entry, so
    [length (entries c)] rounds suffice. *)
Fixpoint evict_lru_loop (fuel : nat) (c : MediaCache) (fs : list string)
    : MediaCache * list string :=
  match fuel with
  | O => (c, fs)
  | S fuel =>
    if Nat.ltb MAX_MEDIA_FILES (length (entries c)) then
      match min_by_last_access (entries c) with
      | Some (key, entry) =>
        let fs' := remove_file (entry_path entry) fs in
        let c' := mkMediaCache
                    (filter (fun ke => negb (String.eqb (fst ke) key)) (entries c))
                    (evicted c) in
        evict_lru_loop fuel (record_eviction c' key) fs'
      | None => (c, fs)
      end
    else (c, fs)
  end.

Definition evict_lru (c : MediaCache) (fs : list string) : MediaCache * list string :=
  evict_lru_loop (length (entries c)) c fs.

(** [MediaCache::insert]: [t_insert] is the [Instant::now()] of the new
    entry, [t_expire] the one [evict_expired] reads after it. *)
Definition insert (c : MediaCache) (fs : list string) (key path : string)
    (t_insert t_expire : Z) : MediaCache * list string :=
  let c1 := mkMediaCache (map_insert key (mkMediaCacheEntry path t_insert) (entries c))
              (evicted c) in
  let '(c2, fs2) := evict_expired c1 fs t_expire in
  evict_lru c2 fs2.

(** [MediaCache::get]: [t_expire] is read by [evict_expired], [t_access]
    after it for the hit. *)
Definition get (c : MediaCache) (fs : list string) (key : string) (t_expire t_access : Z)
    : option string * MediaCache * list string :=
  let '(c1, fs1) := evict_expired c fs t_expire in
  match find (fun ke => String.eqb (fst ke) key) (entries c1) with
  | Some (_, entry) =>
    (Some (entry_path entry),
     mkMediaCache
       (map (fun ke => if String.eqb (fst ke) key
                       then (fst ke, mkMediaCacheEntry (entry_path (snd ke)) t_access)
                       else ke) (entries c1))
       (evicted c1),
     fs1)
  | None => (None, c1, fs1)
  end.

End Media.

(** * Tags: the tag management functions of [core/src/query.rs] *)

Module Tags.
Import Query Importer.
Open Scope Z_scope.

(** A [tags] row. *)
Record Tag := mkTag {
  tag_id : string;
  tag_name : string;
  tag_color : string;
  tag_created_at : Z;
  tag_display_order : Z
}.

(** The tables the tag functions read and write: [tags] and
    [message_tags]. *)
Record TagStore := mkTagStore {
  st_tags : list Tag;
  st_message_tags : list MessageTag
}.

(** [i64] addition as a release build performs it (two's complement wrap). *)
Definition wrap_i64 (z : Z) : Z := (z + 2 ^ 63) mod 2 ^ 64 - 2 ^ 63.

(** [ORDER BY display_order ASC, created_at ASC] *)
Definition tag_before (a b : Tag) : bool :=
  (tag_display_order a <? tag_display_order b)
  || ((tag_display_order a =? tag_display_order b) && (tag_created_at a <? tag_created_at b)).

(** [list_tags conn] *)
Definition list_tags (db : TagStore) : list Tag := sort_by tag_before (st_tags db).

(** [SELECT MAX(display_order) FROM tags]: [NULL] on an empty table. *)
Definition max_display_order (tags : list Tag) : option Z :=
  fold_left (fun acc t =>
      match acc with
      | None => Some (tag_display_order t)
      | Some m => Some (Z.max m (tag_display_order t))
      end) tags None.

(** [INSERT INTO tags ...]: SQLite checks the [name UNIQUE] index before
    the primary key index on [id], so when both collide it reports
    [tags.name]. *)
Definition exec_insert_tag_row (db : TagStore) (t : Tag) : result TagStore :=
  if existsb (fun t' => String.eqb (tag_name t') (tag_name t)) (st_tags db)
  then Err (Sqlite "UNIQUE constraint failed: tags.name")
  else if existsb (fun t' => String.eqb (tag_id t') (tag_id t)) (st_tags db)
  then Err (Sqlite "UNIQUE constraint failed: tags.id")
  else Ok (mkTagStore (st_tags db ++ [t]) (st_message_tags db)).

(** [create_tag conn name color], [now] the clock read in milliseconds. *)
Definition create_tag (db : TagStore) (now : Z) (name color : string) : result Tag * TagStore :=
  let id := ("tag:" ++ string_of_Z now)%string in
  let max_order := max_display_order (st_tags db) in
  let display_order := wrap_i64 (match max_order with Some m => m | None => -1 end + 1) in
  let t := mkTag id name color now display_order in
  match exec_insert_tag_row db t with
  | Err e => (Err e, db)
  | Ok db' => (Ok t, db')
  end.

(** [update_tag conn id name color]: [UPDATE tags SET name, color WHERE id];
    the [name UNIQUE] constraint fails when another row holds [name]. *)
Definition update_tag (db : TagStore) (id name color : string) : result unit * TagStore :=
  if existsb (fun t => String.eqb (tag_id t) id) (st_tags db)
     && existsb (fun t => negb (String.eqb (tag_id t) id) && String.eqb (tag_name t) name)
          (st_tags db)
  then (Err (Sqlite "UNIQUE constraint failed: tags.name"), db)
  else (Ok tt,
        mkTagStore
          (map (fun t => if String.eqb (tag_id t) id
                         then mkTag (tag_id t) name color (tag_created_at t) (tag_display_order t)
                         else t) (st_tags db))
          (st_message_tags db)).

(** [delete_tag conn id]: [DELETE FROM tags WHERE id], and the
    [ON DELETE CASCADE] of [message_tags.tag_id] ([PRAGMA foreign_keys = ON]). *)
Definition delete_tag (db : TagStore) (id : string) : result unit * TagStore :=
  if existsb (fun t => String.eqb (tag_id t) id) (st_tags db)
  then (Ok tt,
        mkTagStore (filter (fun t => negb (String.eqb (tag_id t) id)) (st_tags db))
          (filter (fun mt => negb (String.eqb (mt_tag_id mt) id)) (st_message_tags db)))
  else (Ok tt, db).

(** [get_message_tags conn message_id]: [tags t JOIN message_tags mt ON
    mt.tag_id = t.id WHERE mt.message_id = ?1], ordered by [tag_before]. *)
Definition get_message_tags (db : TagStore) (message_id : string) : list Tag :=
  sort_by tag_before
    (flat_map (fun t =>
       flat_map (fun mt =>
         if String.eqb (mt_tag_id mt) (tag_id t) && String.eqb (mt_message_id mt) message_id
         then [t] else [])
         (st_message_tags db))
       (st_tags db)).

Record MessageTags := mkMessageTags { mts_message_id : string; mts_tags : list Tag }.

(** [ORDER BY mt.message_id ASC, t.display_order ASC, t.created_at ASC] *)
Definition bulk_row_before (a b : string * Tag) : bool :=
  let '(ma, ta) := a in
  let '(mb, tb) := b in
  id_lt ma mb || (String.eqb ma mb && tag_before ta tb).

(** The rows of the SELECT of [get_message_tags_bulk]. *)
Definition bulk_rows (db : TagStore) (message_ids : list string) : list (string * Tag) :=
  sort_by bulk_row_before
    (flat_map (fun mt =>
       if existsb (String.eqb (mt_message_id mt)) message_ids then
         flat_map (fun t =>
           if String.eqb (mt_tag_id mt) (tag_id t) then [(mt_message_id mt, t)] else [])
           (st_tags db)
       else [])
       (st_message_tags db)).

(** The [HashMap<String, Vec<Tag>>], as an association list with one entry
    per key. *)
Definition TagMap : Type := list (string * list Tag).

(** [map.entry(message_id).or_default().push(tag)] *)
Fixpoint map_push (k : string) (v : Tag) (m : TagMap) : TagMap :=
  match m with
  | [] => [(k, [v])]
  | (k', vs) :: m' =>
    if String.eqb k k' then (k', vs ++ [v]) :: m' else (k', vs) :: map_push k v m'
  end.

(** [map.remove(message_id)] *)
Fixpoint map_remove (k : string) (m : TagMap) : option (list Tag) * TagMap :=
  match m with
  | [] => (None, [])
  | (k', vs) :: m' =>
    if String.eqb k k' then (Some vs, m')
    else let '(r, m'') := map_remove k m' in (r, (k', vs) :: m'')
  end.

(** The loop over [message_ids], [unwrap_or_default] on a missing key. *)
Fixpoint bulk_collect (m : TagMap) (message_ids : list string) : list MessageTags :=
  match message_ids with
  | [] => []
  | message_id :: rest =>
    let '(r, m') := map_remove message_id m in
    mkMessageTags message_id (match r with Some tags => tags | None => [] end)
      :: bulk_collect m' rest
  end.

(** [get_message_tags_bulk conn message_ids] *)
Definition get_message_tags_bulk (db : TagStore) (message_ids : list string)
    : result (list MessageTags) :=
  match message_ids with
  | [] => Ok []
  | _ =>
    let m := fold_left (fun m '(message_id, tag) => map_push message_id tag m)
               (bulk_rows db message_ids) [] in
    Ok (bulk_collect m message_ids)
  end.

End Tags.

(** * Properties *)

Module ContainerFacts.
Import Container.
Open Scope N_scope.

Lemma to_N_byte_of_N (x : N) : Byte.to_N (byte_of_N x) = x mod 256.
Proof.
  unfold byte_of_N.
  pose proof (Byte.to_of_N_option_map (x mod 256)) as H.
  assert (Hle : (x mod 256 <=? 255) = true).
  { apply N.leb_le. pose proof (N.mod_lt x 256 ltac:(discriminate)). lia. }
  rewrite Hle in H.
  destruct (Byte.of_N (x mod 256)) eqn:E; [|discriminate].
  now apply Byte.to_of_N.
Qed.

Lemma from_le_u32_le_u32 (m : N) : m < 2 ^ 32 -> from_le_u32 (le_u32 m) = m.
Proof.
  intros Hm. unfold le_u32, from_le_u32.
  rewrite (N.mod_small m) by exact Hm.
  rewrite !to_N_byte_of_N.
  replace 65536 with (256 * 256) by reflexivity.
  replace 16777216 with (256 * 256 * 256) by reflexivity.
  rewrite <- !N.Div0.div_div.
  assert (H3 : m / 256 / 256 / 256 < 256).
  { rewrite !N.Div0.div_div. apply N.Div0.div_lt_upper_bound. simpl in *. lia. }
  rewrite (N.mod_small (m / 256 / 256 / 256)) by exact H3.
  pose proof (N.div_mod m 256 ltac:(discriminate)).
  pose proof (N.div_mod (m / 256) 256 ltac:(discriminate)).
  pose proof (N.div_mod (m / 256 / 256) 256 ltac:(discriminate)).
  lia.
Qed.

Lemma length_le_u32 (m : N) : length (le_u32 m) = 4%nat.
Proof. reflexivity. Qed.

Lemma take_app_exact {A} (n : N) (l1 l2 : list A) :
  length l1 = N.to_nat n -> take n (l1 ++ l2) = l1.
Proof.
  intros H. unfold take. rewrite firstn_app, <- H, firstn_all, Nat.sub_diag.
  now rewrite app_nil_r.
Qed.

Lemma drop_app_exact {A} (n : N) (l1 l2 : list A) :
  length l1 = N.to_nat n -> drop n (l1 ++ l2) = l2.
Proof.
  intros H. unfold drop. rewrite skipn_app, <- H, skipn_all, Nat.sub_diag. reflexivity.
Qed.

Lemma read_exact_app (n : N) (l1 l2 : bytes) :
  length l1 = N.to_nat n -> read_exact n (l1 ++ l2) = Ok (l1, l2).
Proof.
  intros H. unfold read_exact.
  rewrite take_app_exact, drop_app_exact by exact H.
  replace (lenN (l1 ++ l2) <? n) with false; [reflexivity|].
  symmetry. apply N.ltb_ge. unfold lenN. rewrite length_app. lia.
Qed.

Definition valid_chunk_size (cs : N) : bool := negb ((cs =? 0) || (MAX_CHUNK_SIZE <? cs)).

Lemma read_header_write_header (base rest : bytes) (cs : N) :
  length base = 12%nat -> valid_chunk_size cs = true ->
  read_header (write_header base cs ++ rest) = Ok (cs, base, rest).
Proof.
  intros Hb Hcs. unfold write_header, read_header.
  rewrite <- !app_assoc.
  rewrite read_exact_app by reflexivity. cbn [negb bytes_eqb MAGIC Byte.eqb].
  rewrite read_exact_app by reflexivity. cbn [negb bytes_eqb VERSION Byte.eqb].
  rewrite read_exact_app by apply length_le_u32.
  unfold valid_chunk_size in Hcs.
  assert (Hlt : cs < 2 ^ 32).
  { apply negb_true_iff, orb_false_iff in Hcs. destruct Hcs as [_ H].
    apply N.ltb_ge in H. unfold MAX_CHUNK_SIZE in H. simpl in *. lia. }
  rewrite from_le_u32_le_u32 by exact Hlt.
  apply negb_true_iff in Hcs. rewrite Hcs.
  rewrite read_exact_app by (rewrite Hb; reflexivity).
  reflexivity.
Qed.

Lemma encrypt_loop_nil aes_gcm_encrypt fuel key base cs counter total hashed :
  encrypt_loop aes_gcm_encrypt fuel key base cs [] counter total hashed = ([], hashed, total).
Proof. destruct fuel; [reflexivity|]. cbn. unfold take. now rewrite firstn_nil. Qed.

Lemma lenN_eq0 {A} (l : list A) : (lenN l =? 0) = match l with [] => true | _ => false end.
Proof. destruct l; reflexivity. Qed.

Section Roundtrip.

Variable aes_gcm_encrypt : bytes -> bytes -> bytes -> bytes.
Variable aes_gcm_decrypt : bytes -> bytes -> bytes -> option bytes.
Hypothesis decrypt_encrypt :
  forall key nonce pt, aes_gcm_decrypt key nonce (aes_gcm_encrypt key nonce pt) = Some pt.
Hypothesis length_encrypt :
  forall key nonce pt, length (aes_gcm_encrypt key nonce pt) = (length pt + 16)%nat.

(** The chunks written by the encrypt loop are read back, in order and
    with the same counters, by the decrypt loop; the hasher sees the whole
    input. *)
Lemma encrypt_decrypt_loop (key base : bytes) (cs : N) :
  0 < cs ->
  forall fuel input counter total hashed fuel_d total_d,
  (length input < fuel)%nat ->
  let '(out, h, _) := encrypt_loop aes_gcm_encrypt fuel key base cs input counter total hashed in
  h = hashed ++ input /\
  ((length out < fuel_d)%nat ->
   exists r, decrypt_loop aes_gcm_decrypt fuel_d key base (cs + TAG_LEN) out counter total_d
             = (Ok r, input)).
Proof.
  intros Hcs fuel. induction fuel as [|fuel IH];
    intros input counter total hashed fuel_d total_d Hlen; [lia|].
  destruct input as [|x xs].
  { cbn [encrypt_loop]. unfold take. rewrite firstn_nil. cbn.
    split; [now rewrite app_nil_r|].
    intros Hd. destruct fuel_d as [|fd]; [lia|]. exists total_d.
    cbn. unfold take. now rewrite firstn_nil. }
  set (c := N.to_nat cs).
  assert (Hc : (1 <= c)%nat) by (unfold c; lia).
  cbn [encrypt_loop].
  set (buf := take cs (x :: xs)).
  assert (Hbuf : buf <> []).
  { unfold buf, take. fold c. destruct c; [lia|]. discriminate. }
  rewrite lenN_eq0. destruct buf as [|b bs] eqn:Ebuf; [congruence|].
  rewrite <- Ebuf.
  assert (Hrest : (length (drop cs (x :: xs)) < fuel)%nat).
  { unfold drop. rewrite length_skipn. cbn [length] in *. fold c. lia. }
  specialize (IH (drop cs (x :: xs)) (saturating_add counter 1)
                 (saturating_add total (lenN buf)) (hashed ++ buf)).
  destruct (encrypt_loop aes_gcm_encrypt fuel key base cs (drop cs (x :: xs))
              (saturating_add counter 1) (saturating_add total (lenN buf)) (hashed ++ buf))
    as [[out h] t] eqn:Erec.
  split.
  { destruct (IH 0%nat 0 Hrest) as [Hh _]. rewrite Hh, <- app_assoc.
    unfold buf, take, drop. now rewrite firstn_skipn. }
  intros Hd.
  set (ct := aes_gcm_encrypt key (nonce_for_chunk base counter) buf).
  assert (Hct : length ct = (length buf + 16)%nat) by apply length_encrypt.
  destruct fuel_d as [|fd]; [lia|].
  cbn [decrypt_loop].
  destruct (Nat.le_gt_cases c (length (x :: xs))) as [Hfull|Hshort].
  - (* a full chunk: the decrypt buffer is exactly [ct] *)
    assert (Hbl : length buf = c) by (unfold buf, take; rewrite length_firstn; lia).
    assert (Hctn : length ct = N.to_nat (cs + TAG_LEN)) by (rewrite Hct, Hbl; unfold c, TAG_LEN; lia).
    rewrite take_app_exact by exact Hctn.
    replace (lenN ct =? 0) with false
      by (symmetry; apply N.eqb_neq; unfold lenN; rewrite Hctn; lia).
    unfold ct at 1. rewrite decrypt_encrypt.
    replace (lenN ct <? cs + TAG_LEN) with false
      by (symmetry; apply N.ltb_ge; unfold lenN; rewrite Hctn; lia).
    rewrite drop_app_exact by exact Hctn.
    destruct (IH fd (saturating_add total_d (lenN buf)) Hrest) as [_ Hdec].
    rewrite length_app in Hd.
    destruct (Hdec ltac:(rewrite length_encrypt in Hd; lia)) as [r Hr].
    rewrite Hr. exists r. f_equal.
    unfold buf, take, drop. apply firstn_skipn.
  - (* the last, short chunk *)
    assert (Hbe : buf = x :: xs) by (unfold buf, take; apply firstn_all2; fold c; lia).
    assert (Hde : drop cs (x :: xs) = []) by (unfold drop; apply skipn_all2; fold c; lia).
    rewrite Hde, encrypt_loop_nil in Erec. injection Erec as <- <- <-.
    rewrite app_nil_r.
    assert (Ht : take (cs + TAG_LEN) ct = ct)
      by (unfold take; apply firstn_all2;
          rewrite Hct, Hbe; unfold TAG_LEN; cbn [length] in *; unfold c in Hshort; lia).
    rewrite Ht.
    replace (lenN ct =? 0) with false
      by (symmetry; apply N.eqb_neq; unfold lenN; rewrite Hct; lia).
    unfold ct at 1. rewrite decrypt_encrypt.
    replace (lenN ct <? cs + TAG_LEN) with true
      by (symmetry; apply N.ltb_lt; unfold lenN; rewrite Hct, Hbe;
          unfold TAG_LEN; cbn [length] in *; unfold c in Hshort; lia).
    eexists. rewrite Hbe. reflexivity.
Qed.

Variable sha256 : bytes -> bytes.

Lemma default_chunk_size_valid : valid_chunk_size DEFAULT_CHUNK_SIZE = true.
Proof. reflexivity. Qed.

(** C1. Decrypting the container that [encrypt_stream_with_hash] writes for
    a plaintext [B] under a key [K] gives back exactly [B], and the returned
    hash is the hex SHA-256 of [B]. The base nonce is any 12 bytes (the
    [[u8; 12]] filled by [OsRng]). *)
Theorem encrypt_stream_with_hash_roundtrip (key base_nonce B : bytes) :
  length base_nonce = 12%nat ->
  let '(file, r) := encrypt_stream_with_hash aes_gcm_encrypt sha256 B key base_nonce in
  (exists total, r = Ok (hex_encode (sha256 B), total)) /\
  (exists n, decrypt_stream aes_gcm_decrypt file key = (Ok n, B)).
Proof.
  intros Hb. unfold encrypt_stream_with_hash, encrypt_stream_internal.
  change ((DEFAULT_CHUNK_SIZE =? 0) || (MAX_CHUNK_SIZE <? DEFAULT_CHUNK_SIZE)) with false.
  cbv iota.
  pose proof (encrypt_decrypt_loop key base_nonce DEFAULT_CHUNK_SIZE ltac:(reflexivity)
                (S (length B)) B 0 0 []) as Hloop.
  destruct (encrypt_loop aes_gcm_encrypt (S (length B)) key base_nonce DEFAULT_CHUNK_SIZE B 0 0 [])
    as [[out hashed] total] eqn:Eenc.
  destruct (Hloop (S (length out)) 0 ltac:(lia)) as [Hh Hdec].
  split.
  - exists total. rewrite Hh. reflexivity.
  - unfold decrypt_stream.
    rewrite read_header_write_header by (exact Hb || exact default_chunk_size_valid).
    apply Hdec. lia.
Qed.

End Roundtrip.

Section Lengths.

Variable aes_gcm_encrypt : bytes -> bytes -> bytes -> bytes.
Variable aes_gcm_decrypt : bytes -> bytes -> bytes -> option bytes.
Variable sha256 : bytes -> bytes.

Lemma empty_container (key base_nonce : bytes) :
  fst (encrypt_stream_with_hash aes_gcm_encrypt sha256 [] key base_nonce)
  = write_header base_nonce DEFAULT_CHUNK_SIZE.
Proof.
  unfold encrypt_stream_with_hash, encrypt_stream_internal.
  rewrite encrypt_loop_nil. cbn [fst]. apply app_nil_r.
Qed.

Lemma length_write_header (base_nonce : bytes) (cs : N) :
  length base_nonce = 12%nat -> lenN (write_header base_nonce cs) = HEADER_LEN.
Proof. intros Hb. unfold lenN, write_header. rewrite !length_app, Hb. reflexivity. Qed.

(** C2. The container written for the empty plaintext is the 21-byte
    header alone: [decrypt_stream] accepts it and yields no bytes, while
    [encrypted_plaintext_len] rejects it as too small (its own
    [payload_len == 0] branch, which would return 0, is never reached). *)
Theorem plaintext_len_empty_container (key base_nonce : bytes) :
  length base_nonce = 12%nat ->
  let file := fst (encrypt_stream_with_hash aes_gcm_encrypt sha256 [] key base_nonce) in
  encrypted_plaintext_len file = Err (Crypto "encrypted file too small") /\
  decrypt_stream aes_gcm_decrypt file key = (Ok 0, []).
Proof.
  intros Hb file. unfold file. rewrite empty_container. split.
  - unfold encrypted_plaintext_len. rewrite length_write_header by exact Hb. reflexivity.
  - unfold decrypt_stream.
    rewrite <- (app_nil_r (write_header base_nonce DEFAULT_CHUNK_SIZE)).
    rewrite read_header_write_header by (exact Hb || reflexivity).
    reflexivity.
Qed.

(** C3. On that same container, serial decryption succeeds with an empty
    output while [decrypt_file_parallel] fails for every worker count,
    before it creates the output file. *)
Theorem parallel_empty_container (key base_nonce : bytes) (workers : N) :
  length base_nonce = 12%nat ->
  let file := fst (encrypt_stream_with_hash aes_gcm_encrypt sha256 [] key base_nonce) in
  decrypt_stream aes_gcm_decrypt file key = (Ok 0, []) /\
  decrypt_file_parallel aes_gcm_decrypt file key workers
    = (Err (if workers =? 0 then Crypto "workers must be >= 1"
            else Crypto "encrypted file too small"), None).
Proof.
  intros Hb file. unfold file. rewrite empty_container. split.
  - unfold decrypt_stream.
    rewrite <- (app_nil_r (write_header base_nonce DEFAULT_CHUNK_SIZE)).
    rewrite read_header_write_header by (exact Hb || reflexivity).
    reflexivity.
  - unfold decrypt_file_parallel. destruct (workers =? 0); [reflexivity|].
    rewrite <- (app_nil_r (write_header base_nonce DEFAULT_CHUNK_SIZE)).
    rewrite read_header_write_header by (exact Hb || reflexivity).
    rewrite app_nil_r. unfold encrypted_plaintext_len.
    rewrite length_write_header by exact Hb. reflexivity.
Qed.

End Lengths.

(** The stand-in AEAD satisfies the laws assumed of AES-GCM. *)
Lemma bytes_eqb_refl (b : bytes) : bytes_eqb b b = true.
Proof. induction b as [|x b IH]; [reflexivity|]. cbn. now rewrite Byte.byte_dec_lb, IH. Qed.

Lemma toy_tag_length key nonce : length (toy_tag key nonce) = 16%nat.
Proof. unfold toy_tag. rewrite length_firstn, length_app, repeat_length. lia. Qed.

Lemma toy_length_encrypt key nonce pt :
  length (toy_encrypt key nonce pt) = (length pt + 16)%nat.
Proof. unfold toy_encrypt. now rewrite length_app, toy_tag_length. Qed.

Lemma toy_decrypt_encrypt key nonce pt :
  toy_decrypt key nonce (toy_encrypt key nonce pt) = Some pt.
Proof.
  unfold toy_decrypt. rewrite toy_length_encrypt.
  replace (Nat.ltb (length pt + 16) 16) with false by (symmetry; apply Nat.ltb_ge; lia).
  replace (length pt + 16 - 16)%nat with (length pt) by lia.
  unfold toy_encrypt. rewrite skipn_app, skipn_all, Nat.sub_diag. cbn [skipn app].
  rewrite bytes_eqb_refl, firstn_app, firstn_all, Nat.sub_diag. cbn [firstn].
  now rewrite app_nil_r.
Qed.

Definition sample_key : bytes := repeat Byte.x2a 32.
Definition sample_nonce : bytes := repeat Byte.x09 12.
Definition sample_plaintext : bytes := [Byte.x68; Byte.x65; Byte.x6c; Byte.x6c; Byte.x6f].

Lemma encrypt_stream_with_hash_roundtrip_witness :
  length sample_nonce = 12%nat /\
  let '(file, r) := encrypt_stream_with_hash toy_encrypt toy_sha256 sample_plaintext
                      sample_key sample_nonce in
  (exists total, r = Ok (hex_encode (toy_sha256 sample_plaintext), total)) /\
  (exists n, decrypt_stream toy_decrypt file sample_key = (Ok n, sample_plaintext)).
Proof.
  split; [reflexivity|].
  exact (encrypt_stream_with_hash_roundtrip toy_encrypt toy_decrypt toy_decrypt_encrypt
           toy_length_encrypt toy_sha256 sample_key sample_nonce sample_plaintext eq_refl).
Defined.

Lemma plaintext_len_empty_container_witness :
  length sample_nonce = 12%nat /\
  let file := fst (encrypt_stream_with_hash toy_encrypt toy_sha256 [] sample_key sample_nonce) in
  encrypted_plaintext_len file = Err (Crypto "encrypted file too small") /\
  decrypt_stream toy_decrypt file sample_key = (Ok 0, []).
Proof.
  split; [reflexivity|].
  exact (plaintext_len_empty_container toy_encrypt toy_decrypt toy_sha256
           sample_key sample_nonce eq_refl).
Defined.

Lemma parallel_empty_container_witness :
  length sample_nonce = 12%nat /\
  let file := fst (encrypt_stream_with_hash toy_encrypt toy_sha256 [] sample_key sample_nonce) in
  decrypt_stream toy_decrypt file sample_key = (Ok 0, []) /\
  decrypt_file_parallel toy_decrypt file sample_key 4
    = (Err (Crypto "encrypted file too small"), None).
Proof.
  split; [reflexivity|].
  exact (parallel_empty_container toy_encrypt toy_decrypt toy_sha256
           sample_key sample_nonce 4 eq_refl).
Defined.

End ContainerFacts.

Module QueryFacts.
Import Query.
Open Scope Z_scope.

(** ** Sorting: permutation, order, uniqueness *)

Section SortFacts.
Variable A : Type.
Variable before : A -> A -> bool.
Hypothesis before_irrefl : forall x, before x x = false.
Hypothesis before_trans :
  forall x y z, before x y = true -> before y z = true -> before x z = true.

Let R (x y : A) : Prop := before x y = true.

Lemma before_asym x y : before x y = true -> before y x = false.
Proof.
  intros H. destruct (before y x) eqn:E; [|reflexivity].
  rewrite <- (before_irrefl x). symmetry. exact (before_trans x y x H E).
Qed.

Lemma insert_by_perm (x : A) (l : list A) : Permutation (x :: l) (insert_by before x l).
Proof.
  induction l as [|y l IH]; cbn; [reflexivity|].
  destruct (before x y); [reflexivity|].
  transitivity (y :: x :: l); [apply perm_swap|]. now constructor.
Qed.

Lemma sort_by_perm (l : list A) : Permutation l (sort_by before l).
Proof.
  induction l as [|x l IH]; cbn; [reflexivity|].
  transitivity (x :: sort_by before l); [now constructor|]. apply insert_by_perm.
Qed.

Lemma insert_by_sorted (x : A) (l : list A) :
  StronglySorted R l ->
  (forall y, In y l -> before x y = true \/ before y x = true) ->
  StronglySorted R (insert_by before x l).
Proof.
  induction l as [|y l IH]; intros Hs Htot; cbn.
  - repeat constructor.
  - apply StronglySorted_inv in Hs as [Hs Hy].
    destruct (before x y) eqn:Exy.
    + constructor; [now constructor|].
      constructor; [exact Exy|].
      apply Forall_forall. intros z Hz. apply (before_trans x y z Exy).
      exact (proj1 (Forall_forall _ _) Hy z Hz).
    + constructor.
      * apply IH; [exact Hs|]. intros z Hz. apply Htot. now right.
      * apply Forall_forall. intros z Hz.
        apply (Permutation_in _ (Permutation_sym (insert_by_perm x l))) in Hz.
        destruct Hz as [<-|Hz].
        -- destruct (Htot y (or_introl eq_refl)) as [H|H]; [congruence|exact H].
        -- exact (proj1 (Forall_forall _ _) Hy z Hz).
Qed.

Lemma sort_by_sorted (l : list A) :
  NoDup l ->
  (forall x y, In x l -> In y l -> x <> y -> before x y = true \/ before y x = true) ->
  StronglySorted R (sort_by before l).
Proof.
  induction l as [|x l IH]; intros Hnd Htot; cbn; [constructor|].
  apply NoDup_cons_iff in Hnd as [Hx Hnd].
  apply insert_by_sorted.
  - apply IH; [exact Hnd|]. intros a b Ha Hb. apply Htot; now right.
  - intros y Hy. apply (Permutation_in _ (Permutation_sym (sort_by_perm l))) in Hy.
    apply Htot; [now left|now right|]. intros <-. contradiction.
Qed.

Lemma sorted_unique (l1 l2 : list A) :
  StronglySorted R l1 -> StronglySorted R l2 -> Permutation l1 l2 -> l1 = l2.
Proof.
  revert l2. induction l1 as [|a l1 IH]; intros l2 H1 H2 Hp.
  - symmetry. now apply Permutation_nil.
  - destruct l2 as [|b l2]; [apply Permutation_sym, Permutation_nil in Hp; discriminate|].
    apply StronglySorted_inv in H1 as [H1 Ha]. apply StronglySorted_inv in H2 as [H2 Hb].
    assert (a = b) as <-.
    { destruct (Permutation_in a Hp (or_introl eq_refl)) as [|Ha2]; [congruence|].
      destruct (Permutation_in b (Permutation_sym Hp) (or_introl eq_refl)) as [|Hb1]; [congruence|].
      pose proof (proj1 (Forall_forall _ _) Hb a Ha2) as E1.
      pose proof (proj1 (Forall_forall _ _) Ha b Hb1) as E2.
      unfold R in E1, E2. rewrite (before_asym _ _ E1) in E2. discriminate. }
    f_equal. apply IH; [exact H1|exact H2|]. exact (Permutation_cons_inv Hp).
Qed.

Lemma filter_sorted (p : A -> bool) (l : list A) :
  StronglySorted R l -> StronglySorted R (filter p l).
Proof.
  induction l as [|x l IH]; intros Hs; cbn; [constructor|].
  apply StronglySorted_inv in Hs as [Hs Hx].
  destruct (p x); [|now apply IH].
  constructor; [now apply IH|].
  apply Forall_forall. intros y Hy. apply filter_In in Hy as [Hy _].
  exact (proj1 (Forall_forall _ _) Hx y Hy).
Qed.

(** Below a member [c] of a strictly ordered list lies exactly the suffix
    after [c]. *)
Lemma filter_after (P S : list A) (c : A) :
  StronglySorted R (P ++ c :: S) -> filter (before c) (P ++ c :: S) = S.
Proof.
  intros Hs. rewrite filter_app. cbn. rewrite before_irrefl.
  assert (HP : filter (before c) P = []).
  { induction P as [|x P IH]; cbn; [reflexivity|].
    cbn in Hs. apply StronglySorted_inv in Hs as [Hs Hx].
    assert (Hxc : before x c = true)
      by (apply (proj1 (Forall_forall _ _) Hx); apply in_or_app; right; now left).
    rewrite (before_asym _ _ Hxc). now apply IH. }
  rewrite HP. cbn.
  assert (Hcs : StronglySorted R (c :: S)).
  { clear HP. induction P as [|x P IH]; [exact Hs|].
    apply IH. cbn in Hs. now apply StronglySorted_inv in Hs. }
  apply StronglySorted_inv in Hcs as [Hs' Hc]. clear Hs. rename Hs' into Hs.
  clear HP. induction S as [|y S IH]; cbn; [reflexivity|].
  apply Forall_cons_iff in Hc as [Hy Hc].
  rewrite Hy. f_equal. apply IH; [now apply StronglySorted_inv in Hs|exact Hc].
Qed.

End SortFacts.


(** ** The (sort_ts, id) order *)

Lemma id_lt_spec (a b : string) : id_lt a b = true <-> String_as_OT.lt a b.
Proof.
  unfold id_lt, String_as_OT.lt. destruct (String_as_OT.compare a b); split; congruence.
Qed.

Lemma id_lt_irrefl (a : string) : id_lt a a = false.
Proof.
  destruct (id_lt a a) eqn:E; [|reflexivity].
  apply id_lt_spec in E. exfalso.
  destruct String_as_OT.lt_strorder as [Hirr _]. exact (Hirr a E).
Qed.

Lemma id_lt_trans (a b c : string) : id_lt a b = true -> id_lt b c = true -> id_lt a c = true.
Proof.
  rewrite !id_lt_spec. destruct String_as_OT.lt_strorder as [_ Htr]. apply Htr.
Qed.

Lemma id_lt_total (a b : string) : a <> b -> id_lt a b = true \/ id_lt b a = true.
Proof.
  intros Hne. rewrite !id_lt_spec.
  destruct (String_as_OT.compare_spec a b) as [E|L|G]; [contradiction|now left|now right].
Qed.

Lemma ts_id_desc_irrefl (m : Message) : ts_id_desc m m = false.
Proof. unfold ts_id_desc. rewrite Z.ltb_irrefl, id_lt_irrefl, andb_false_r. reflexivity. Qed.

Lemma ts_id_desc_trans (a b c : Message) :
  ts_id_desc a b = true -> ts_id_desc b c = true -> ts_id_desc a c = true.
Proof.
  unfold ts_id_desc. rewrite !orb_true_iff, !andb_true_iff, !Z.ltb_lt, !Z.eqb_eq.
  intros [H1|[H1 I1]] [H2|[H2 I2]].
  - left. lia.
  - left. lia.
  - left. lia.
  - right. split; [lia|]. exact (id_lt_trans _ _ _ I2 I1).
Qed.

Lemma ts_id_desc_total (a b : Message) :
  msg_id a <> msg_id b -> ts_id_desc a b = true \/ ts_id_desc b a = true.
Proof.
  intros Hne. unfold ts_id_desc. rewrite !orb_true_iff, !andb_true_iff, !Z.ltb_lt, !Z.eqb_eq.
  destruct (Z.lt_trichotomy (msg_sort_ts a) (msg_sort_ts b)) as [H|[H|H]].
  - right. now left.
  - destruct (id_lt_total _ _ Hne) as [I|I].
    + right. right. split; [lia|exact I].
    + left. right. split; [lia|exact I].
  - left. now left.
Qed.

(** [id] is the primary key of [messages]. *)
Lemma key_unique (l : list Message) (x y : Message) :
  NoDup (map msg_id l) -> In x l -> In y l -> msg_id x = msg_id y -> x = y.
Proof.
  induction l as [|z l IH]; intros Hnd Hx Hy Hid; [destruct Hx|].
  cbn in Hnd. apply NoDup_cons_iff in Hnd as [Hz Hnd].
  destruct Hx as [<-|Hx], Hy as [<-|Hy].
  - reflexivity.
  - exfalso. apply Hz. rewrite Hid. now apply in_map.
  - exfalso. apply Hz. rewrite <- Hid. now apply in_map.
  - now apply IH.
Qed.

Lemma timeline_sorted (l : list Message) :
  NoDup (map msg_id l) ->
  StronglySorted (fun a b => ts_id_desc a b = true) (sort_by ts_id_desc l).
Proof.
  intros Hnd. apply (sort_by_sorted _ _ ts_id_desc_trans).
  - exact (NoDup_map_inv _ _ Hnd).
  - intros x y Hx Hy Hne. apply ts_id_desc_total.
    intros Hid. exact (Hne (key_unique l x y Hnd Hx Hy Hid)).
Qed.

Lemma NoDup_map_filter {B} (f : Message -> B) (p : Message -> bool) (l : list Message) :
  NoDup (map f l) -> NoDup (map f (filter p l)).
Proof.
  induction l as [|x l IH]; intros Hnd; cbn; [constructor|].
  cbn in Hnd. apply NoDup_cons_iff in Hnd as [Hx Hnd].
  destruct (p x); [|now apply IH].
  cbn. constructor; [|now apply IH].
  intros Hin. apply Hx. apply in_map_iff in Hin as [y [Hy Hin]].
  apply filter_In in Hin as [Hin _]. rewrite <- Hy. now apply in_map.
Qed.

Lemma Permutation_filter' {B} (p : B -> bool) (l l' : list B) :
  Permutation l l' -> Permutation (filter p l) (filter p l').
Proof.
  induction 1; cbn.
  - constructor.
  - destruct (p x); [now constructor|assumption].
  - destruct (p x), (p y); try constructor; reflexivity.
  - etransitivity; eassumption.
Qed.

Lemma filter_length_le' {B} (p : B -> bool) (l : list B) :
  (length (filter p l) <= length l)%nat.
Proof.
  induction l as [|x l IH]; cbn; [lia|]. destruct (p x); cbn; lia.
Qed.

Lemma filter_filter' {B} (p q : B -> bool) (l : list B) :
  filter q (filter p l) = filter (fun x => p x && q x) l.
Proof.
  induction l as [|x l IH]; cbn; [reflexivity|].
  destruct (p x); cbn; [destruct (q x); cbn; now rewrite IH|exact IH].
Qed.

(** ** Pages of [list_messages] *)

Lemma cursor_pred_before (c : Message) :
  forall m, cursor_pred (msg_sort_ts c) (msg_id c) m = ts_id_desc c m.
Proof. intros m. unfold cursor_pred, ts_id_desc. now rewrite Z.eqb_sym. Qed.

Lemma timeline_sorted' (messages : list Message) (thread_id : string) :
  NoDup (map msg_id messages) ->
  StronglySorted (fun a b => ts_id_desc a b = true) (timeline messages thread_id).
Proof. intros Hnd. apply timeline_sorted. now apply NoDup_map_filter. Qed.

Lemma sort_filter_commute (p : Message -> bool) (l : list Message) :
  NoDup (map msg_id l) ->
  sort_by ts_id_desc (filter p l) = filter p (sort_by ts_id_desc l).
Proof.
  intros Hnd. apply (sorted_unique _ _ ts_id_desc_irrefl ts_id_desc_trans).
  - apply timeline_sorted. now apply NoDup_map_filter.
  - apply filter_sorted. now apply timeline_sorted.
  - transitivity (filter p l).
    + apply Permutation_sym, sort_by_perm.
    + apply Permutation_filter', sort_by_perm.
Qed.

Lemma list_messages_page (messages : list Message) (thread_id : string) ts id limit :
  NoDup (map msg_id messages) ->
  list_messages messages thread_id (Some ts) (Some id) limit
  = sql_limit limit (filter (cursor_pred ts id) (timeline messages thread_id)).
Proof.
  intros Hnd. unfold list_messages, timeline. f_equal.
  rewrite <- sort_filter_commute by now apply NoDup_map_filter.
  rewrite filter_filter'. reflexivity.
Qed.

Lemma list_messages_first (messages : list Message) (thread_id : string) before_id limit :
  list_messages messages thread_id None before_id limit
  = sql_limit limit (timeline messages thread_id).
Proof.
  unfold list_messages, timeline, in_thread. f_equal. f_equal.
  apply filter_ext. intros m. now rewrite andb_true_r.
Qed.

Lemma last_opt_app {B} (l : list B) (a : B) : last_opt (l ++ [a]) = Some a.
Proof.
  induction l as [|x l IH]; [reflexivity|].
  cbn. destruct (l ++ [a]) eqn:E; [destruct l; discriminate|exact IH].
Qed.

Lemma sql_limit_split {B} (limit : Z) (l : list B) :
  exists r, l = sql_limit limit l ++ r.
Proof.
  unfold sql_limit. destruct (limit <? 0).
  - exists []. now rewrite app_nil_r.
  - exists (skipn (Z.to_nat limit) l). symmetry. apply firstn_skipn.
Qed.

Lemma sql_limit_nonempty {B} (limit : Z) (l : list B) :
  limit <> 0 -> l <> [] -> sql_limit limit l <> [].
Proof.
  intros Hl Hne. unfold sql_limit. destruct (limit <? 0) eqn:E; [exact Hne|].
  apply Z.ltb_ge in E. destruct l as [|x l]; [contradiction|].
  destruct (Z.to_nat limit) eqn:En; [lia|discriminate].
Qed.

(** One page taken from the front of a nonempty suffix, cut at its last row. *)
Lemma page_split {B} (limit : Z) (S : list B) :
  limit <> 0 -> S <> [] ->
  exists F c R, sql_limit limit S = F ++ [c] /\ S = F ++ c :: R.
Proof.
  intros Hl Hne. destruct (sql_limit_split limit S) as [R HR].
  destruct (exists_last (sql_limit_nonempty limit S Hl Hne)) as [F [c Hc]].
  exists F, c, R. split; [exact Hc|]. rewrite HR at 1. rewrite Hc, <- app_assoc. reflexivity.
Qed.

Lemma pages_from_suffix (messages : list Message) (thread_id : string) (limit : Z) :
  NoDup (map msg_id messages) -> limit <> 0 ->
  forall fuel P c S,
    timeline messages thread_id = P ++ c :: S -> (length S <= fuel)%nat ->
    concat (pages_from fuel messages thread_id limit c) = S.
Proof.
  intros Hnd Hl fuel. induction fuel as [|fuel IH]; intros P c S HT Hlen.
  - destruct S; [reflexivity|cbn in Hlen; lia].
  - cbn [pages_from]. rewrite list_messages_page by exact Hnd.
    rewrite (filter_ext _ _ (cursor_pred_before c)), HT.
    rewrite (filter_after _ _ ts_id_desc_irrefl ts_id_desc_trans P S c)
      by (rewrite <- HT; now apply timeline_sorted').
    destruct S as [|s S'].
    + unfold sql_limit. destruct (limit <? 0); [reflexivity|now rewrite firstn_nil].
    + destruct (page_split limit (s :: S') Hl ltac:(discriminate)) as [F [c' [R [Hp HS]]]].
      rewrite Hp, last_opt_app. cbn [concat].
      rewrite (IH (P ++ c :: F) c' R).
      * rewrite HS, <- app_assoc. reflexivity.
      * rewrite HT, HS, <- app_assoc. reflexivity.
      * assert (length (s :: S') = length (F ++ c' :: R)) as E by now rewrite HS.
        rewrite length_app in E. cbn in E, Hlen. lia.
Qed.

Lemma paginate_timeline (messages : list Message) (thread_id : string) (limit : Z) :
  NoDup (map msg_id messages) -> limit <> 0 ->
  concat (paginate messages thread_id limit) = timeline messages thread_id.
Proof.
  intros Hnd Hl. unfold paginate. rewrite list_messages_first.
  destruct (timeline messages thread_id) as [|s S'] eqn:HT.
  - unfold sql_limit. destruct (limit <? 0); [reflexivity|now rewrite firstn_nil].
  - destruct (page_split limit (s :: S') Hl ltac:(discriminate)) as [F [c' [R [Hp HS]]]].
    rewrite Hp, last_opt_app. cbn [concat].
    rewrite (pages_from_suffix messages thread_id limit Hnd Hl _ F c' R).
    + rewrite HS, <- app_assoc. reflexivity.
    + now rewrite HT.
    + assert (Hlen : (length (timeline messages thread_id) <= length messages)%nat).
      { unfold timeline. rewrite <- (Permutation_length (sort_by_perm _ _ _)).
        apply filter_length_le'. }
      rewrite HT, HS, length_app in Hlen. cbn in Hlen. lia.
Qed.

(** C6. For every thread and every limit other than 0: the thread's rows
    in [ORDER BY sort_ts DESC, id DESC] are strictly sorted by
    (sort_ts DESC, id DESC) (so no row twice) and are a permutation of the
    thread's rows; the page of [list_messages] with cursor (ts, id) is the
    limited list of the rows of the thread with
    [sort_ts < ts OR (sort_ts = ts AND id < id)] in that order; and the
    concatenation of the pages obtained by cursoring from the last row of
    each previous page, until an empty page, is exactly that timeline.
    [id] is the primary key of [messages]. *)
Theorem list_messages_cursor_totality (messages : list Message) (thread_id : string)
    (limit : Z) :
  NoDup (map msg_id messages) -> limit <> 0 ->
  StronglySorted (fun a b => ts_id_desc a b = true) (timeline messages thread_id) /\
  Permutation (timeline messages thread_id) (filter (in_thread thread_id) messages) /\
  (forall ts id, list_messages messages thread_id (Some ts) (Some id) limit
     = sql_limit limit (filter (cursor_pred ts id) (timeline messages thread_id))) /\
  concat (paginate messages thread_id limit) = timeline messages thread_id.
Proof.
  intros Hnd Hl. split; [|split; [|split]].
  - now apply timeline_sorted'.
  - unfold timeline. apply Permutation_sym, sort_by_perm.
  - intros ts id. now apply list_messages_page.
  - now apply paginate_timeline.
Qed.

Definition sample_messages : list Message :=
  [ mkMessage "m1" "t1" (Some 10) None 10;
    mkMessage "m2" "t1" None (Some 20) 20;
    mkMessage "m3" "t2" (Some 15) None 15;
    mkMessage "m4" "t1" (Some 20) None 20;
    mkMessage "m5" "t1" (Some 5) (Some 6) 5 ].

Lemma list_messages_cursor_totality_witness :
  NoDup (map msg_id sample_messages) /\ (2 <> 0) /\
  concat (paginate sample_messages "t1" 2)
  = [ mkMessage "m4" "t1" (Some 20) None 20; mkMessage "m2" "t1" None (Some 20) 20;
      mkMessage "m1" "t1" (Some 10) None 10; mkMessage "m5" "t1" (Some 5) (Some 6) 5 ].
Proof.
  assert (Hnd : NoDup (map msg_id sample_messages)).
  { cbn. repeat constructor; cbn; intuition discriminate. }
  split; [exact Hnd|]. split; [lia|].
  destruct (list_messages_cursor_totality sample_messages "t1" 2 Hnd ltac:(lia))
    as [_ [_ [_ Hc]]].
  rewrite Hc. reflexivity.
Defined.

(** ** Scrapbook discontinuity *)

Definition scrap_a : Message := mkMessage "a" "t1" (Some 5) None 5.
Definition scrap_b : Message := mkMessage "b" "t1" (Some 5) None 5.
Definition scrap_c : Message := mkMessage "c" "t1" (Some 5) None 5.

(** C4. Three messages a, b, c of one thread share the timestamp 5, so
    their (sort_ts, id) order is a < b < c. With a tagged at 1 and c at 2,
    the scrapbook lists c then a, both in thread t1; b lies strictly between
    a and c in the (sort_ts, id) order, yet the row of a is not marked
    discontinuous: with equal timestamps the caller takes the previous row
    c as the earlier message, and the interval from c to a is empty. *)
Theorem scrapbook_equal_ts_flag :
  let messages := [scrap_a; scrap_b; scrap_c] in
  let tags := [mkMessageTag "a" "tag:1" 1; mkMessageTag "c" "tag:1" 2] in
  let res := list_scrapbook_messages messages tags [mkThread "t1" (Some "Alice"%string)]
               "tag:1" None None 50 in
  map (fun r => msg_id (sm_message r)) res = ["c"; "a"]%string /\
  map (fun r => msg_thread_id (sm_message r)) res = ["t1"; "t1"]%string /\
  between_ts_id scrap_a scrap_c scrap_b = true /\
  ts_id_desc scrap_b scrap_a = true /\ ts_id_desc scrap_c scrap_b = true /\
  map sm_is_discontinuous res = [false; false].
Proof. vm_compute. repeat split. Qed.

(** ** Tag assignment *)

Lemma existsb_eqb_in (x : string) (l : list string) :
  existsb (String.eqb x) l = true <-> In x l.
Proof.
  rewrite existsb_exists. split.
  - intros [y [Hy E]]. apply String.eqb_eq in E. now subst.
  - intros Hx. exists x. split; [exact Hx|]. apply String.eqb_refl.
Qed.

Lemma pk_existsb (base : list MessageTag) (done : list string) (message_id tag_id : string)
    (now : Z) :
  (forall mt, In mt base -> mt_message_id mt <> message_id) ->
  existsb (fun mt => String.eqb (mt_message_id mt) message_id && String.eqb (mt_tag_id mt) tag_id)
    (base ++ map (fun t => mkMessageTag message_id t now) done)
  = existsb (String.eqb tag_id) done.
Proof.
  intros Hbase. rewrite existsb_app.
  replace (existsb _ base) with false.
  - cbn. induction done as [|t done IH]; cbn; [reflexivity|].
    rewrite String.eqb_refl, IH, (String.eqb_sym t tag_id). reflexivity.
  - symmetry. apply Bool.not_true_is_false. intros Hex.
    apply existsb_exists in Hex as [mt [Hmt E]].
    apply andb_true_iff in E as [E _]. apply String.eqb_eq in E.
    exact (Hbase mt Hmt E).
Qed.

Lemma insert_tags_spec (ids tag_ids_db : list string) (base : list MessageTag)
    (message_id : string) (now : Z) :
  (forall mt, In mt base -> mt_message_id mt <> message_id) ->
  forall tag_ids done, NoDup done ->
  let '(r, db') :=
    insert_tags (mkTagDb ids tag_ids_db (base ++ map (fun t => mkMessageTag message_id t now) done))
      message_id tag_ids now in
  db_message_ids db' = ids /\ db_tag_ids db' = tag_ids_db /\
  exists k, (k <= length tag_ids)%nat /\
    db_message_tags db'
      = base ++ map (fun t => mkMessageTag message_id t now) (done ++ firstn k tag_ids) /\
    (r = Ok tt <-> k = length tag_ids) /\
    (r = Ok tt <-> NoDup (done ++ tag_ids) /\ Forall (fun t => In t tag_ids_db) tag_ids /\
                   (tag_ids = [] \/ In message_id ids)).
Proof.
  intros Hbase tag_ids. induction tag_ids as [|t rest IH]; intros done Hnd.
  - cbn. split; [reflexivity|]. split; [reflexivity|]. exists O.
    rewrite !app_nil_r. split; [lia|]. split; [reflexivity|]. split; [tauto|].
    split; [intros _; repeat split; auto|intros _; reflexivity].
  - cbn [insert_tags]. unfold exec_insert_tag. cbn [db_message_tags db_message_ids db_tag_ids].
    rewrite (pk_existsb base done message_id t now Hbase).
    destruct (existsb (String.eqb t) done) eqn:Edup.
    { split; [reflexivity|]. split; [reflexivity|]. exists O. cbn.
      rewrite app_nil_r. split; [lia|]. split; [reflexivity|].
      split; [split; discriminate|]. split; [discriminate|].
      intros [Hn _]. exfalso. apply existsb_eqb_in in Edup.
      apply NoDup_remove_2 in Hn. apply Hn. now apply in_or_app; left. }
    destruct (negb (existsb (String.eqb message_id) ids)
              || negb (existsb (String.eqb t) tag_ids_db)) eqn:Efk.
    { split; [reflexivity|]. split; [reflexivity|]. exists O. cbn.
      rewrite app_nil_r. split; [lia|]. split; [reflexivity|].
      split; [split; discriminate|]. split; [discriminate|].
      intros [_ [Hf [Hnil|Hm]]]; [discriminate|]. exfalso.
      apply Forall_inv in Hf.
      apply orb_true_iff in Efk as [E|E]; apply Bool.negb_true_iff in E;
        apply Bool.not_true_iff_false in E; apply E; now apply existsb_eqb_in. }
    apply orb_false_iff in Efk as [Em Et].
    apply Bool.negb_false_iff in Em, Et. apply existsb_eqb_in in Em, Et.
    assert (Hnd' : NoDup (done ++ [t])).
    { apply NoDup_app; [exact Hnd|repeat constructor; auto|].
      intros x Hx [<-|[]]. apply Bool.not_true_iff_false in Edup. apply Edup.
      now apply existsb_eqb_in. }
    specialize (IH (done ++ [t]) Hnd').
    rewrite <- app_assoc in IH. cbn [app] in IH.
    match goal with
    | |- context [insert_tags (mkTagDb ids tag_ids_db ((base ++ ?M) ++ [?X]))] =>
      replace ((base ++ M) ++ [X])
        with (base ++ map (fun t => mkMessageTag message_id t now) (done ++ [t]))
        by (rewrite map_app, app_assoc; reflexivity)
    end.
    destruct (insert_tags _ message_id rest now) as [r db'].
    destruct IH as [H1 [H2 [k [Hk [Hdb [Hok1 Hok2]]]]]].
    split; [exact H1|]. split; [exact H2|]. exists (S k).
    split; [cbn; lia|]. split.
    + rewrite Hdb, <- app_assoc. reflexivity.
    + split; [rewrite Hok1; cbn; lia|].
      rewrite Hok2. split.
      * intros [Ha [Hb _]]. split; [exact Ha|]. split; [now constructor|]. now right.
      * intros [Ha [Hb _]]. split; [exact Ha|]. split; [now apply Forall_inv_tail in Hb|].
        now right.
Qed.

Lemma exec_delete_tags_base (db : TagDb) (message_id : string) :
  forall mt, In mt (db_message_tags (exec_delete_tags db message_id)) ->
  mt_message_id mt <> message_id.
Proof.
  intros mt Hin. cbn in Hin. apply filter_In in Hin as [_ E].
  apply Bool.negb_true_iff, String.eqb_neq in E. exact E.
Qed.

(** C8. [set_message_tags] runs its DELETE and each INSERT as separate
    statements with no transaction. Whatever the outcome, the key tables
    are unchanged, the rows of other messages are kept, and the message's
    rows are exactly one row per tag id of some prefix of [tag_ids], all
    with the same [tagged_at]; the whole list is inserted (and the call
    returns Ok) exactly when the tag ids are distinct, all exist, and the
    message exists (when the list is nonempty); on an error the rows deleted
    first stay deleted. *)
Theorem set_message_tags_effect (db : TagDb) (message_id : string)
    (tag_ids : list string) (now : Z) :
  let '(r, db') := set_message_tags db message_id tag_ids now in
  db_message_ids db' = db_message_ids db /\ db_tag_ids db' = db_tag_ids db /\
  exists k, (k <= length tag_ids)%nat /\
    db_message_tags db'
      = filter (fun mt => negb (String.eqb (mt_message_id mt) message_id)) (db_message_tags db)
        ++ map (fun t => mkMessageTag message_id t now) (firstn k tag_ids) /\
    (r = Ok tt <-> k = length tag_ids) /\
    (r = Ok tt <-> NoDup tag_ids /\ Forall (fun t => In t (db_tag_ids db)) tag_ids /\
                   (tag_ids = [] \/ In message_id (db_message_ids db))).
Proof.
  unfold set_message_tags.
  pose proof (insert_tags_spec (db_message_ids db) (db_tag_ids db)
                (db_message_tags (exec_delete_tags db message_id)) message_id now
                (exec_delete_tags_base db message_id) tag_ids [] (NoDup_nil _)) as H.
  cbn [map app] in H. rewrite app_nil_r in H.
  replace (exec_delete_tags db message_id)
    with (mkTagDb (db_message_ids db) (db_tag_ids db)
            (db_message_tags (exec_delete_tags db message_id))) by reflexivity.
  destruct (insert_tags _ message_id tag_ids now) as [r db'].
  exact H.
Qed.

Definition tagged_db : TagDb :=
  mkTagDb ["m1"%string] ["tag:1"%string; "tag:2"%string] [mkMessageTag "m1" "tag:1" 100].

(** C8, counterexample: message m1 carries tag:1; replacing its tags by a
    list with an unknown tag id, or with tag:2 twice, fails, and m1 has lost
    tag:1. *)
Lemma set_message_tags_not_atomic :
  set_message_tags tagged_db "m1" ["nope"%string] 200
  = (Err (Sqlite "FOREIGN KEY constraint failed"), mkTagDb ["m1"%string] ["tag:1"%string; "tag:2"%string] []) /\
  set_message_tags tagged_db "m1" ["tag:2"%string; "tag:2"%string] 200
  = (Err (Sqlite "UNIQUE constraint failed: message_tags.message_id, message_tags.tag_id"),
     mkTagDb ["m1"%string] ["tag:1"%string; "tag:2"%string] [mkMessageTag "m1" "tag:2" 200]).
Proof. split; reflexivity. Qed.

(** ** Media listings *)

Lemma StronglySorted_upgrade {A} (P Q : A -> A -> Prop) (l : list A) :
  (forall x y, In x l -> In y l -> x <> y -> P x y -> Q x y) ->
  NoDup l -> StronglySorted P l -> StronglySorted Q l.
Proof.
  induction l as [|x l IH]; intros HPQ Hnd Hs; [constructor|].
  apply StronglySorted_inv in Hs as [Hs Hx]. apply NoDup_cons_iff in Hnd as [Hxl Hnd].
  constructor.
  - apply IH; [|exact Hnd|exact Hs]. intros a b Ha Hb. apply HPQ; now right.
  - apply Forall_forall. intros y Hy. apply HPQ; [now left|now right| |].
    + intros <-. contradiction.
    + exact (proj1 (Forall_forall _ _) Hx y Hy).
Qed.

(** When the strict order is total on the distinct rows, the ORDER BY
    admits exactly one result: the one [sort_by] computes. *)
Lemma admits_unique {A} (before : A -> A -> bool)
    (irrefl : forall x, before x x = false)
    (trans : forall x y z, before x y = true -> before y z = true -> before x z = true)
    (rows out : list A) :
  NoDup rows ->
  (forall x y, In x rows -> In y rows -> x <> y -> before x y = true \/ before y x = true) ->
  order_admits before rows out -> out = sort_by before rows.
Proof.
  intros Hnd Htot [Hp Hs].
  assert (Hin : forall x, In x out -> In x rows)
    by (intros x Hx; exact (Permutation_in _ (Permutation_sym Hp) Hx)).
  apply (sorted_unique _ _ irrefl trans).
  - apply (StronglySorted_upgrade (fun x y => before y x = false)); [|exact (Permutation_NoDup Hp Hnd)|exact Hs].
    intros x y Hx Hy Hne Hyx.
    destruct (Htot x y (Hin x Hx) (Hin y Hy) Hne) as [H|H]; [exact H|congruence].
  - exact (sort_by_sorted _ _ trans rows Hnd Htot).
  - transitivity rows; [now apply Permutation_sym|apply sort_by_perm].
Qed.

Lemma key_unique_gen {B} (key : B -> string) (l : list B) (x y : B) :
  NoDup (map key l) -> In x l -> In y l -> key x = key y -> x = y.
Proof.
  induction l as [|z l IH]; intros Hnd Hx Hy Hk; [destruct Hx|].
  cbn in Hnd. apply NoDup_cons_iff in Hnd as [Hz Hnd].
  destruct Hx as [<-|Hx], Hy as [<-|Hy].
  - reflexivity.
  - exfalso. apply Hz. rewrite Hk. now apply in_map.
  - exfalso. apply Hz. rewrite <- Hk. now apply in_map.
  - now apply IH.
Qed.

Lemma media_join_in (attachments : list Attachment) (messages : list Message) (r : MediaRow) :
  In r (media_join attachments messages) ->
  In (fst r) attachments /\ In (snd r) messages /\ msg_id (snd r) = att_message_id (fst r).
Proof.
  unfold media_join. intros Hin. apply in_flat_map in Hin as [a [Ha Hin]].
  apply in_flat_map in Hin as [m [Hm Hin]].
  destruct (String.eqb (msg_id m) (att_message_id a)) eqn:E; [|destruct Hin].
  destruct Hin as [<-|[]]. apply String.eqb_eq in E. cbn. auto.
Qed.

(** [a.id] is a key of the join: an attachment meets at most the one
    message with its [message_id]. *)
Lemma media_join_key (attachments : list Attachment) (messages : list Message) :
  NoDup (map att_id attachments) -> NoDup (map msg_id messages) ->
  forall r1 r2, In r1 (media_join attachments messages) -> In r2 (media_join attachments messages) ->
  att_id (fst r1) = att_id (fst r2) -> r1 = r2.
Proof.
  intros Ha Hm [a1 m1] [a2 m2] H1 H2 Hk.
  apply media_join_in in H1 as [Ha1 [Hm1 E1]]. apply media_join_in in H2 as [Ha2 [Hm2 E2]].
  cbn in *. assert (a1 = a2) as <- by exact (key_unique_gen att_id _ _ _ Ha Ha1 Ha2 Hk).
  assert (m1 = m2) as <- by (apply (key_unique_gen msg_id _ _ _ Hm Hm1 Hm2); congruence).
  reflexivity.
Qed.

(** A lexicographic order: a key, then [a.id ASC]. *)
Definition lex_before (f : MediaRow -> Z) (r1 r2 : MediaRow) : bool :=
  (f r1 <? f r2) || ((f r1 =? f r2) && id_lt (att_id (fst r1)) (att_id (fst r2))).

Lemma lex_before_irrefl f r : lex_before f r r = false.
Proof. unfold lex_before. rewrite Z.ltb_irrefl, id_lt_irrefl, andb_false_r. reflexivity. Qed.

Lemma lex_before_trans f r1 r2 r3 :
  lex_before f r1 r2 = true -> lex_before f r2 r3 = true -> lex_before f r1 r3 = true.
Proof.
  unfold lex_before. rewrite !orb_true_iff, !andb_true_iff, !Z.ltb_lt, !Z.eqb_eq.
  intros [H1|[H1 I1]] [H2|[H2 I2]]; try (left; lia).
  right. split; [lia|exact (id_lt_trans _ _ _ I1 I2)].
Qed.

Lemma lex_before_total f r1 r2 :
  att_id (fst r1) <> att_id (fst r2) -> lex_before f r1 r2 = true \/ lex_before f r2 r1 = true.
Proof.
  intros Hne. unfold lex_before. rewrite !orb_true_iff, !andb_true_iff, !Z.ltb_lt, !Z.eqb_eq.
  destruct (Z.lt_trichotomy (f r1) (f r2)) as [H|[H|H]]; [left; now left| |right; now left].
  destruct (id_lt_total _ _ Hne); [left|right]; right; split; auto.
Qed.

Lemma thread_media_before_date (sort : string) :
  sort <> "size_asc"%string -> sort <> "size_desc"%string ->
  exists f, forall r1 r2, thread_media_before sort r1 r2 = lex_before f r1 r2.
Proof.
  intros H1 H2. apply String.eqb_neq in H1, H2.
  destruct (String.eqb sort "date_asc") eqn:H3.
  - exists (fun r => msg_ts (snd r)). intros [a1 m1] [a2 m2].
    unfold thread_media_before, lex_before. now rewrite H1, H2, H3.
  - exists (fun r => - msg_ts (snd r)). intros [a1 m1] [a2 m2].
    unfold thread_media_before, lex_before. rewrite H1, H2, H3. cbn [fst snd].
    f_equal.
    + apply eq_true_iff_eq. rewrite !Z.ltb_lt. lia.
    + f_equal. apply eq_true_iff_eq. rewrite !Z.eqb_eq. lia.
Qed.

Lemma media_before_irrefl r : media_before r r = false.
Proof.
  destruct r as [a m]. unfold media_before. destruct (msg_sent_at m).
  - rewrite Z.ltb_irrefl, id_lt_irrefl, andb_false_r. reflexivity.
  - apply id_lt_irrefl.
Qed.

Lemma media_before_trans r1 r2 r3 :
  media_before r1 r2 = true -> media_before r2 r3 = true -> media_before r1 r3 = true.
Proof.
  destruct r1 as [a1 m1], r2 as [a2 m2], r3 as [a3 m3]. unfold media_before.
  destruct (msg_sent_at m1) as [x|], (msg_sent_at m2) as [y|], (msg_sent_at m3) as [z|];
    rewrite ?orb_true_iff, ?andb_true_iff, ?Z.ltb_lt, ?Z.eqb_eq; intros H1 H2;
    try discriminate; try reflexivity; try exact (id_lt_trans _ _ _ H1 H2).
  destruct H1 as [H1|[H1 I1]], H2 as [H2|[H2 I2]]; try (left; lia).
  right. split; [lia|exact (id_lt_trans _ _ _ I1 I2)].
Qed.

Lemma media_before_total r1 r2 :
  att_id (fst r1) <> att_id (fst r2) -> media_before r1 r2 = true \/ media_before r2 r1 = true.
Proof.
  destruct r1 as [a1 m1], r2 as [a2 m2]. cbn [fst]. intros Hne. unfold media_before.
  destruct (msg_sent_at m1) as [x|], (msg_sent_at m2) as [y|]; auto using id_lt_total.
  rewrite !orb_true_iff, !andb_true_iff, !Z.ltb_lt, !Z.eqb_eq.
  destruct (Z.lt_trichotomy x y) as [H|[H|H]]; [right; now left| |left; now left].
  destruct (id_lt_total _ _ Hne); [left|right]; right; split; auto.
Qed.

(** Whatever the totality of the key, [sort_by] never places a row after
    one that it sorts before. *)
Lemma insert_by_weak_sorted {A} (before : A -> A -> bool)
    (irrefl : forall x, before x x = false)
    (trans : forall x y z, before x y = true -> before y z = true -> before x z = true)
    (x : A) (l : list A) :
  StronglySorted (fun a b => before b a = false) l ->
  StronglySorted (fun a b => before b a = false) (insert_by before x l).
Proof.
  induction l as [|y l IH]; intros Hs; cbn; [repeat constructor|].
  apply StronglySorted_inv in Hs as [Hs Hy].
  destruct (before x y) eqn:Exy.
  - constructor; [now constructor|]. constructor.
    + destruct (before y x) eqn:Eyx; [|reflexivity].
      rewrite <- (irrefl x). symmetry. exact (trans x y x Exy Eyx).
    + apply Forall_forall. intros z Hz.
      destruct (before z x) eqn:Ezx; [|reflexivity].
      rewrite <- (proj1 (Forall_forall _ _) Hy z Hz). symmetry. exact (trans z x y Ezx Exy).
  - constructor; [exact (IH Hs)|].
    apply Forall_forall. intros z Hz.
    apply (Permutation_in _ (Permutation_sym (insert_by_perm _ before x l))) in Hz.
    destruct Hz as [<-|Hz]; [exact Exy|exact (proj1 (Forall_forall _ _) Hy z Hz)].
Qed.

Lemma sort_by_weak_sorted {A} (before : A -> A -> bool)
    (irrefl : forall x, before x x = false)
    (trans : forall x y z, before x y = true -> before y z = true -> before x z = true)
    (l : list A) :
  StronglySorted (fun a b => before b a = false) (sort_by before l).
Proof.
  induction l as [|x l IH]; cbn; [constructor|].
  exact (insert_by_weak_sorted before irrefl trans x _ IH).
Qed.

Lemma in_firstn_l {A} (n : nat) (l : list A) (x : A) : In x (firstn n l) -> In x l.
Proof.
  revert l. induction n as [|n IH]; intros [|y l] Hx; cbn in *; try contradiction.
  destruct Hx as [<-|Hx]; [now left|right; exact (IH l Hx)].
Qed.

Lemma in_skipn_l {A} (n : nat) (l : list A) (x : A) : In x (skipn n l) -> In x l.
Proof.
  revert l. induction n as [|n IH]; intros [|y l] Hx; cbn in *; try exact Hx.
  right. exact (IH l Hx).
Qed.

Lemma StronglySorted_skipn {A} (R : A -> A -> Prop) (n : nat) (l : list A) :
  StronglySorted R l -> StronglySorted R (skipn n l).
Proof.
  revert l. induction n as [|n IH]; intros [|x l] Hs; cbn; try exact Hs.
  apply IH. exact (proj1 (StronglySorted_inv Hs)).
Qed.

Lemma StronglySorted_firstn {A} (R : A -> A -> Prop) (n : nat) (l : list A) :
  StronglySorted R l -> StronglySorted R (firstn n l).
Proof.
  revert l. induction n as [|n IH]; intros [|x l] Hs; cbn; try constructor.
  - apply IH. exact (proj1 (StronglySorted_inv Hs)).
  - apply Forall_forall. intros y Hy.
    exact (proj1 (Forall_forall _ _) (proj2 (StronglySorted_inv Hs)) y (in_firstn_l n l y Hy)).
Qed.

Lemma StronglySorted_sql_limit_offset {A} (R : A -> A -> Prop) (limit offset : Z) (l : list A) :
  StronglySorted R l -> StronglySorted R (sql_limit_offset limit offset l).
Proof.
  intros Hs. unfold sql_limit_offset, sql_limit. destruct (limit <? 0).
  - now apply StronglySorted_skipn.
  - now apply StronglySorted_firstn, StronglySorted_skipn.
Qed.

Lemma sql_limit_offset_incl {A} (limit offset : Z) (l : list A) :
  incl (sql_limit_offset limit offset l) l.
Proof.
  intros x Hx. unfold sql_limit_offset, sql_limit in Hx. destruct (limit <? 0).
  - exact (in_skipn_l _ _ _ Hx).
  - exact (in_skipn_l _ _ _ (in_firstn_l _ _ _ Hx)).
Qed.

Lemma StronglySorted_impl_in {A} (R R' : A -> A -> Prop) (l : list A) :
  (forall x y, In x l -> In y l -> R x y -> R' x y) ->
  StronglySorted R l -> StronglySorted R' l.
Proof.
  induction l as [|x l IH]; intros HR Hs; [constructor|].
  apply StronglySorted_inv in Hs as [Hs Hx]. constructor.
  - apply IH; [|exact Hs]. intros a b Ha Hb. apply HR; now right.
  - apply Forall_forall. intros y Hy. apply HR; [now left|now right|].
    exact (proj1 (Forall_forall _ _) Hx y Hy).
Qed.

(** The [messages] rows the importer writes: [sent_at] is
    [date_sent.or(date_recv)] and [received_at] is [date_recv], so a row
    without [sent_at] has no [received_at] either; [sort_ts] is
    [sent_at.or(received_at).unwrap_or(0)]; and the dates are epoch
    milliseconds, not negative. *)
Definition importer_shaped (m : Message) : Prop :=
  msg_sort_ts m = msg_ts m /\
  (msg_sent_at m = None -> msg_received_at m = None) /\
  (forall x, msg_sent_at m = Some x -> 0 <= x).

Lemma media_before_sort_ts (r1 r2 : MediaRow) :
  importer_shaped (snd r1) -> importer_shaped (snd r2) ->
  media_before r2 r1 = false -> msg_sort_ts (snd r2) <= msg_sort_ts (snd r1).
Proof.
  destruct r1 as [a1 m1], r2 as [a2 m2]. cbn [snd].
  intros [S1 [N1 P1]] [S2 [N2 P2]]. rewrite S1, S2. unfold media_before, msg_ts, coalesce.
  destruct (msg_sent_at m1) as [x|], (msg_sent_at m2) as [y|].
  - rewrite orb_false_iff, Z.ltb_ge. intros [H _]. exact H.
  - intros _. rewrite N2 by reflexivity. exact (P1 x eq_refl).
  - discriminate.
  - intros _. rewrite N1, N2 by reflexivity. lia.
Qed.

Lemma list_media_sort_ts (attachments : list Attachment) (messages : list Message)
    (thread_id : option string) (limit offset : Z) :
  (forall m, In m messages -> importer_shaped m) ->
  exists rows,
    list_media attachments messages thread_id limit offset = map fst rows /\
    incl rows (media_join attachments messages) /\
    StronglySorted (fun r1 r2 => msg_sort_ts (snd r2) <= msg_sort_ts (snd r1)) rows.
Proof.
  intros Hshape. unfold list_media.
  set (cond := fun r : MediaRow => match thread_id with
                                   | Some t => String.eqb (msg_thread_id (snd r)) t
                                   | None => true end).
  set (rows := sql_limit_offset limit offset
                 (sort_by media_before (filter cond (media_join attachments messages)))).
  assert (Hincl : incl rows (media_join attachments messages)).
  { intros r Hr. apply sql_limit_offset_incl in Hr.
    apply (Permutation_in _ (Permutation_sym (sort_by_perm _ media_before _))) in Hr.
    exact (proj1 (proj1 (filter_In _ _ _) Hr)). }
  exists rows. split; [reflexivity|]. split; [exact Hincl|].
  apply (StronglySorted_impl_in (fun x y => media_before y x = false)).
  - intros x y Hx Hy. apply media_before_sort_ts.
    + apply Hshape. exact (proj1 (proj2 (media_join_in _ _ _ (Hincl x Hx)))).
    + apply Hshape. exact (proj1 (proj2 (media_join_in _ _ _ (Hincl y Hy)))).
  - apply StronglySorted_sql_limit_offset.
    exact (sort_by_weak_sorted media_before media_before_irrefl media_before_trans _).
Qed.

Definition media_msg_a : Message := mkMessage "m1" "t1" (Some 10) None 10.
Definition media_msg_b : Message := mkMessage "m2" "t1" (Some 10) None 10.
Definition media_row_a : MediaRow := (mkAttachment "att:m1:aa" "m1" (Some 500) (Some 0), media_msg_a).
Definition media_row_b : MediaRow := (mkAttachment "att:m2:bb" "m2" (Some 500) (Some 0), media_msg_b).

(** C7. On the rows the importer writes, [list_media] returns attachments
    in [sort_ts] descending order: it orders by [sent_at DESC NULLS LAST,
    a.id ASC], and there a row without [sent_at] has [sort_ts] 0. On join
    rows of tables with primary keys that order is total, so the engine may
    return only the order [sort_by] computes; the same holds in the date
    modes of [list_thread_media] ([date_asc], and [date_desc] or any other
    string), ordered by COALESCE(sent_at, received_at, 0), then [a.id ASC].
    In [size_asc] and [size_desc] the ORDER BY has no [a.id] key: two
    attachments of equal size and date may come in either order. *)
Theorem media_listing_orders (attachments : list Attachment) (messages : list Message) :
  NoDup (map att_id attachments) -> NoDup (map msg_id messages) ->
  (forall thread_id limit offset,
     (forall m, In m messages -> importer_shaped m) ->
     exists rows,
       list_media attachments messages thread_id limit offset = map fst rows /\
       incl rows (media_join attachments messages) /\
       StronglySorted (fun r1 r2 => msg_sort_ts (snd r2) <= msg_sort_ts (snd r1)) rows) /\
  (forall rows out, incl rows (media_join attachments messages) -> NoDup rows ->
     order_admits media_before rows out -> out = sort_by media_before rows) /\
  (forall sort, sort <> "size_asc"%string -> sort <> "size_desc"%string ->
   forall rows out, incl rows (media_join attachments messages) -> NoDup rows ->
     order_admits (thread_media_before sort) rows out ->
     out = sort_by (thread_media_before sort) rows) /\
  (forall sort, sort = "size_asc"%string \/ sort = "size_desc"%string ->
     att_id (fst media_row_a) <> att_id (fst media_row_b) /\
     order_admits (thread_media_before sort) [media_row_a; media_row_b]
       [media_row_a; media_row_b] /\
     order_admits (thread_media_before sort) [media_row_a; media_row_b]
       [media_row_b; media_row_a]).
Proof.
  intros Ha Hm.
  pose proof (media_join_key attachments messages Ha Hm) as Hkey.
  split; [|split; [|split]].
  - intros thread_id limit offset Hshape. exact (list_media_sort_ts _ _ _ _ _ Hshape).
  - intros rows out Hincl Hnd.
    apply (admits_unique _ media_before_irrefl media_before_trans _ _ Hnd).
    intros x y Hx Hy Hne. apply media_before_total.
    intros E. exact (Hne (Hkey x y (Hincl x Hx) (Hincl y Hy) E)).
  - intros sort H1 H2 rows out Hincl Hnd.
    destruct (thread_media_before_date sort H1 H2) as [f Hf].
    apply (admits_unique _
             (fun r => eq_trans (Hf r r) (lex_before_irrefl f r))
             (fun r1 r2 r3 E1 E2 =>
                eq_trans (Hf r1 r3)
                  (lex_before_trans f r1 r2 r3 (eq_trans (eq_sym (Hf r1 r2)) E1)
                     (eq_trans (eq_sym (Hf r2 r3)) E2)))
             _ _ Hnd).
    intros x y Hx Hy Hne. rewrite !Hf. apply lex_before_total.
    intros E. exact (Hne (Hkey x y (Hincl x Hx) (Hincl y Hy) E)).
  - intros sort Hs. split; [discriminate|].
    destruct Hs as [->| ->]; (split; split;
      [reflexivity || apply perm_swap
      | repeat constructor; vm_compute; reflexivity
      | reflexivity || apply perm_swap
      | repeat constructor; vm_compute; reflexivity]).
Qed.

(** Messages as the importer writes them: m1 with [date_sent] 100 and
    [date_recv] 120, m2 with only [date_recv] 50 (so [sent_at] 50). *)
Definition imported_msg_1 : Message := mkMessage "m1" "t1" (Some 100) (Some 120) 100.
Definition imported_msg_2 : Message := mkMessage "m2" "t1" (Some 50) (Some 50) 50.
Definition att_msg_1 : Attachment := mkAttachment "att:m1:aa" "m1" (Some 10) (Some 0).
Definition att_msg_2 : Attachment := mkAttachment "att:m2:bb" "m2" (Some 10) (Some 0).

Lemma media_listing_orders_witness :
  NoDup (map att_id [att_msg_2; att_msg_1]) /\
  NoDup (map msg_id [imported_msg_1; imported_msg_2]) /\
  list_media [att_msg_2; att_msg_1] [imported_msg_1; imported_msg_2] None 10 0
  = [att_msg_1; att_msg_2] /\
  (forall out, order_admits media_before
                 (media_join [att_msg_2; att_msg_1] [imported_msg_1; imported_msg_2]) out ->
   out = [(att_msg_1, imported_msg_1); (att_msg_2, imported_msg_2)]) /\
  (exists rows,
     list_media [att_msg_2; att_msg_1] [imported_msg_1; imported_msg_2] None 10 0 = map fst rows /\
     incl rows (media_join [att_msg_2; att_msg_1] [imported_msg_1; imported_msg_2]) /\
     StronglySorted (fun r1 r2 => msg_sort_ts (snd r2) <= msg_sort_ts (snd r1)) rows) /\
  thread_media_before "size_asc" media_row_a media_row_b = false /\
  thread_media_before "size_asc" media_row_b media_row_a = false.
Proof.
  assert (Ha : NoDup (map att_id [att_msg_2; att_msg_1]))
    by (cbn; repeat constructor; cbn; intuition discriminate).
  assert (Hm : NoDup (map msg_id [imported_msg_1; imported_msg_2]))
    by (cbn; repeat constructor; cbn; intuition discriminate).
  assert (Hs : forall m, In m [imported_msg_1; imported_msg_2] -> importer_shaped m).
  { intros m [<-|[<-|[]]]; unfold importer_shaped; cbn;
      (split; [reflexivity|split; [discriminate|intros x Hx; injection Hx as <-; lia]]). }
  destruct (media_listing_orders _ _ Ha Hm) as [H1 [H2 _]].
  split; [exact Ha|]. split; [exact Hm|]. split; [vm_compute; reflexivity|]. split.
  - intros out Hout.
    rewrite (H2 _ out (incl_refl _) ltac:(vm_compute; repeat constructor; cbn; intuition discriminate) Hout).
    reflexivity.
  - split; [exact (H1 None 10 0 Hs)|]. split; vm_compute; reflexivity.
Defined.

End QueryFacts.

Module ImporterFacts.

Import Importer.
Open Scope Z_scope.

(** ** Starting an import *)

Lemma select_success_none (imports : list ImportRow) (h : string) :
  existsb (fun r => String.eqb (imp_source_hash r) h && status_eqb (imp_status r) Success)
    imports = false ->
  select_success_import imports h = None.
Proof.
  unfold select_success_import. induction imports as [|r l IH]; cbn; [reflexivity|].
  destruct (_ && _); [discriminate|exact IH].
Qed.

Lemma select_success_some (imports : list ImportRow) (h : string) :
  existsb (fun r => String.eqb (imp_source_hash r) h && status_eqb (imp_status r) Success)
    imports = true ->
  exists id, select_success_import imports h = Some id.
Proof.
  unfold select_success_import. induction imports as [|r l IH]; cbn; [discriminate|].
  destruct (_ && _); [eauto|exact IH].
Qed.

Lemma fresh_id_existsb (imports : list ImportRow) (import_id : string) :
  ~ In import_id (map imp_id imports) ->
  existsb (fun r => String.eqb (imp_id r) import_id) imports = false.
Proof.
  intros Hn. apply Bool.not_true_is_false. intros Hex.
  apply existsb_exists in Hex as [r [Hr Heq]]. apply String.eqb_eq in Heq.
  apply Hn. rewrite <- Heq. now apply in_map.
Qed.

(** C5. For a fresh import id, the start of [import_backup_with_progress]
    rejects with "already loaded" exactly when a [success] row has the
    plan's source hash; otherwise, when any other row (a [failed] or an
    interrupted one) has that hash, the insert of the [running] row violates
    the unique index on [source_hash] and the import fails with a SQLite
    error; only when no row has the hash is the [running] row inserted. *)
Theorem import_begin_outcome (imports : list ImportRow) (plan : ImportPlan)
    (import_id : string) (import_started_at : Z) :
  ~ In import_id (map imp_id imports) ->
  import_begin imports plan import_id import_started_at =
  if existsb (fun r => String.eqb (imp_source_hash r) (plan_source_hash plan)
                       && status_eqb (imp_status r) Success) imports
  then Err (InvalidArgument "archive already loaded for this backup")
  else if existsb (fun r => String.eqb (imp_source_hash r) (plan_source_hash plan)) imports
  then Err (Sqlite "UNIQUE constraint failed: imports.source_hash")
  else Ok (imports ++ [mkImportRow import_id import_started_at (plan_source_filename plan)
                         (plan_source_hash plan) Running]).
Proof.
  intros Hfresh. unfold import_begin.
  destruct (existsb _ imports) eqn:Es.
  - destruct (select_success_some _ _ Es) as [id Hid]. now rewrite Hid.
  - rewrite (select_success_none _ _ Es). unfold insert_import. cbn [imp_id imp_source_hash].
    now rewrite fresh_id_existsb.
Qed.

Definition failed_import : ImportRow :=
  mkImportRow "imp-1" 1000 "signal-2024.backup" "5e1c" Failed.

Lemma import_begin_outcome_witness :
  ~ In "imp-2"%string (map imp_id [failed_import]) /\
  import_begin [failed_import] (mkImportPlan "signal-2024.backup" "5e1c") "imp-2" 2000
  = Err (Sqlite "UNIQUE constraint failed: imports.source_hash").
Proof.
  assert (Hf : ~ In "imp-2"%string (map imp_id [failed_import])).
  { cbn. intros [H|[]]. discriminate. }
  split; [exact Hf|].
  rewrite (import_begin_outcome [failed_import] _ _ _ Hf). reflexivity.
Defined.

(** ** Attachment rows *)

Section PipelineFacts.
Variable path_exists : string -> bool.
Variable copy_attachment : string -> result (string * Z).

Lemma collect_results_found (results : list AttachmentResult) rows missing :
  collect_results results = Ok (rows, missing) ->
  forall r, In r rows -> In (Found r) results.
Proof.
  revert rows missing. induction results as [|x results IH]; intros rows missing H r Hr.
  - cbn in H. inversion H; subst. destruct Hr.
  - cbn in H. destruct x as [row| |msg].
    + destruct (collect_results results) as [[rows' m']|e] eqn:E; [|discriminate].
      inversion H; subst. destruct Hr as [<-|Hr]; [now left|right].
      exact (IH _ _ eq_refl r Hr).
    + destruct (collect_results results) as [[rows' m']|e] eqn:E; [|discriminate].
      inversion H; subst. right. exact (IH _ _ eq_refl r Hr).
    + discriminate.
Qed.

Lemma process_job_found (job : AttachmentJob) (r : AttachmentRowData) :
  process_job path_exists copy_attachment job = Found r ->
  ad_message_id r = mms_message_id (job_mid job) /\
  ad_id r = ("att:" ++ ad_message_id r ++ ":" ++ ad_sha256 r)%string.
Proof.
  unfold process_job. destruct (negb _); [discriminate|].
  destruct (copy_attachment _) as [[sha size]|e]; [|discriminate].
  intros H. inversion H; subst. split; reflexivity.
Qed.

Lemma jobs_of_in (export_dir : string) (parts : list Part) (job : AttachmentJob) :
  In job (jobs_of export_dir parts) ->
  exists p, In p parts /\ part_mid p = Some (job_mid job).
Proof.
  unfold jobs_of. intros Hin. apply in_flat_map in Hin as [p [Hp Hj]].
  exists p. split; [exact Hp|].
  unfold job_of_part in Hj. destruct (part_mid p) as [mid|]; [|destruct Hj].
  destruct Hj as [<-|[]]. reflexivity.
Qed.

(** C9. Every row that [map_attachments] hands to the insert has the
    message id "mms:" followed by the decimal message reference of the part
    it comes from, and the attachment id "att:<message_id>:<sha256>",
    whatever table that reference points into. *)
Theorem map_attachments_mms_message_id (export_dir : string) (parts : list Part)
    (rows : list AttachmentRowData) (missing : Z) :
  map_attachments path_exists copy_attachment export_dir parts = Ok (rows, missing) ->
  forall r, In r rows ->
  exists p mid, In p parts /\ part_mid p = Some mid /\
    ad_message_id r = mms_message_id mid /\
    ad_id r = ("att:" ++ ad_message_id r ++ ":" ++ ad_sha256 r)%string.
Proof.
  intros H r Hr.
  pose proof (collect_results_found _ _ _ H r Hr) as Hin.
  apply in_map_iff in Hin as [job [Hjob Hin]].
  destruct (jobs_of_in _ _ _ Hin) as [p [Hp Hmid]].
  destruct (process_job_found job r Hjob) as [Hm Hid].
  exists p, (job_mid job). auto.
Qed.

End PipelineFacts.

(** Part 5 refers to message 10; the file exists and its copy hashes to
    "9f86". Message 10 of the sms table is imported as "sms:10". *)
Definition sample_part : Part := mkPart 5 (Some 10) (Some 1) (Some "image/jpeg"%string) None None.

Definition sample_copy (path : string) : result (string * Z) := Ok ("9f86"%string, 4).

Lemma map_attachments_mms_message_id_witness :
  map_attachments (fun _ => true) sample_copy "frames" [sample_part]
  = Ok ([mkAttachmentRowData "att:mms:10:9f86" "mms:10" "9f86" (Some "image/jpeg"%string)
           (Some 4) (Some 0) None "image"], 0) /\
  (exists p mid, In p [sample_part] /\ part_mid p = Some mid /\
     mms_message_id mid = "mms:10"%string) /\
  sms_message_id 10 <> "mms:10"%string.
Proof.
  assert (H : map_attachments (fun _ => true) sample_copy "frames" [sample_part]
    = Ok ([mkAttachmentRowData "att:mms:10:9f86" "mms:10" "9f86" (Some "image/jpeg"%string)
             (Some 4) (Some 0) None "image"], 0)) by reflexivity.
  split; [exact H|]. split; [|discriminate].
  destruct (map_attachments_mms_message_id (fun _ => true) sample_copy "frames" [sample_part]
              _ _ H _ (or_introl eq_refl)) as [p [mid [Hp [Hmid [Hm _]]]]].
  exists p, mid. split; [exact Hp|]. split; [exact Hmid|]. rewrite <- Hm. reflexivity.
Defined.

End ImporterFacts.

Module MediaFacts.

Import Media.

Lemma fold_remove_in (l : list (string * MediaCacheEntry)) (fs : list string) (p : string) :
  In p (fold_left (fun fs ke => remove_file (entry_path (snd ke)) fs) l fs)
  <-> In p fs /\ ~ In p (map (fun ke => entry_path (snd ke)) l).
Proof.
  revert fs. induction l as [|ke l IH]; intros fs; cbn.
  - tauto.
  - rewrite IH. unfold remove_file. rewrite filter_In, Bool.negb_true_iff, String.eqb_neq.
    split.
    + intros [[Hp Hne] Hn]. split; [exact Hp|]. intros [E|E]; [congruence|contradiction].
    + intros [Hp Hn]. split; [split; [exact Hp|]|]; intros E; apply Hn; [left|right];
        [congruence|exact E].
Qed.

(** C10. For every cache state and file system, [clear] empties the entry
    map, deletes the file of every entry, and leaves the eviction queue
    empty without recording the removed keys: [drain_evictions] right after
    it returns the empty list. *)
Theorem clear_then_drain_empty (c : MediaCache) (fs : list string) :
  let '(c', fs') := clear c fs in
  fst (drain_evictions c') = [] /\ entries c' = [] /\
  (forall k e, In (k, e) (entries c) -> ~ In (entry_path e) fs') /\
  (forall p, In p fs' <-> In p fs /\ ~ In p (map (fun ke => entry_path (snd ke)) (entries c))).
Proof.
  unfold clear. cbn. split; [reflexivity|]. split; [reflexivity|]. split.
  - intros k e Hin Hp. apply fold_remove_in in Hp as [_ Hn]. apply Hn.
    exact (in_map (fun ke => entry_path (snd ke)) _ (k, e) Hin).
  - intros p. apply fold_remove_in.
Qed.

End MediaFacts.

(** ** More of the container format *)

Module ContainerExtraFacts.
Import Container ContainerFacts.
Open Scope N_scope.

Lemma byte_of_N_to_N (x : byte) : byte_of_N (Byte.to_N x) = x.
Proof.
  unfold byte_of_N. pose proof (Byte.to_N_bounded x) as Hb.
  rewrite N.mod_small by lia. now rewrite Byte.of_to_N.
Qed.

Lemma hex_val_digit_table :
  forallb (fun n => match hex_val (hex_digit n) with Some m => N.eqb m n | None => false end)
    (map N.of_nat (seq 0 16)) = true.
Proof. vm_compute. reflexivity. Qed.

Lemma hex_val_digit (n : N) : n < 16 -> hex_val (hex_digit n) = Some n.
Proof.
  intros H.
  assert (Hin : In n (map N.of_nat (seq 0 16))).
  { apply in_map_iff. exists (N.to_nat n). split; [apply N2Nat.id|].
    apply in_seq. lia. }
  pose proof (proj1 (forallb_forall _ _) hex_val_digit_table n Hin) as Hc. cbn beta in Hc.
  destruct (hex_val (hex_digit n)) as [m|]; [|discriminate].
  apply N.eqb_eq in Hc. now subst m.
Qed.

Lemma hex_decode_pairs_encode (k : bytes) :
  forall i, hex_decode_pairs i (hex_encode k) = inr k.
Proof.
  induction k as [|x k IH]; intros i; [reflexivity|].
  cbn [hex_encode hex_decode_pairs].
  pose proof (Byte.to_N_bounded x) as Hb.
  rewrite hex_val_digit by (apply N.Div0.div_lt_upper_bound; lia).
  rewrite hex_val_digit by (apply N.mod_lt; discriminate).
  rewrite IH. do 2 f_equal.
  rewrite N.mul_comm, <- N.div_mod by discriminate. apply byte_of_N_to_N.
Qed.

Lemma length_hex_encode (k : bytes) : String.length (hex_encode k) = (2 * length k)%nat.
Proof. induction k as [|x k IH]; [reflexivity|]. cbn [hex_encode String.length length]. lia. Qed.

(** X6. [parse_hex_key] reads back what [hex::encode] wrote for the
    keychain: the hex text of [k] gives [k] when [k] has 32 bytes, and the
    "invalid key length" error otherwise. *)
Theorem parse_hex_key_hex_encode display (k : bytes) :
  parse_hex_key display (hex_encode k)
  = if Nat.eqb (length k) 32 then Ok k else Err (Crypto "invalid key length").
Proof.
  unfold parse_hex_key, hex_decode.
  rewrite length_hex_encode.
  replace (Nat.odd (2 * length k)) with false
    by (symmetry; rewrite <- Nat.negb_even, Nat.even_mul; reflexivity).
  rewrite hex_decode_pairs_encode.
  destruct (Nat.eqb (length k) 32); reflexivity.
Qed.

Lemma fold_be_shift (l : bytes) : forall acc,
  fold_left (fun a b => a * 256 + Byte.to_N b) l acc
  = acc * 256 ^ N.of_nat (length l) + fold_left (fun a b => a * 256 + Byte.to_N b) l 0.
Proof.
  induction l as [|b l IH]; intros acc.
  - cbn. lia.
  - cbn [fold_left length]. rewrite IH, (IH (0 * 256 + Byte.to_N b)).
    rewrite Nat2N.inj_succ, N.pow_succ_r'. lia.
Qed.

Lemma from_be_indices (n : N) (k : nat) :
  fold_left (fun a b => a * 256 + Byte.to_N b)
    (map (fun i => byte_of_N (n / 256 ^ i)) (map N.of_nat (rev (seq 0 k)))) 0
  = n mod 256 ^ N.of_nat k.
Proof.
  induction k as [|k IH].
  - cbn. now rewrite N.mod_1_r.
  - rewrite seq_S, rev_app_distr. cbn [rev app map fold_left].
    rewrite fold_be_shift, IH, !length_map, length_rev, length_seq.
    rewrite to_N_byte_of_N; cbn [Nat.add].
    rewrite Nat2N.inj_succ, N.pow_succ_r', (N.mul_comm 256 (256 ^ _)), N.Div0.mod_mul_r.
    ring.
Qed.

Lemma from_be_be_u64 (n : N) :
  fold_left (fun a b => a * 256 + Byte.to_N b) (be_u64 n) 0 = n mod 2 ^ 64.
Proof. exact (from_be_indices n 8). Qed.

Lemma length_be_u64 (n : N) : length (be_u64 n) = 8%nat.
Proof. reflexivity. Qed.

(** X5. Under one base nonce, [nonce_for_chunk] gives distinct nonces to
    distinct chunk counters below 2^64. *)
Theorem nonce_for_chunk_injective (base : bytes) (i j : N) :
  length base = 12%nat -> i < 2 ^ 64 -> j < 2 ^ 64 ->
  nonce_for_chunk base i = nonce_for_chunk base j -> i = j.
Proof.
  intros _ Hi Hj Heq. unfold nonce_for_chunk in Heq.
  apply app_inv_head in Heq.
  rewrite <- (N.mod_small i (2 ^ 64)), <- (N.mod_small j (2 ^ 64)) by assumption.
  rewrite <- !from_be_be_u64. now rewrite Heq.
Qed.

Lemma bytes_eqb_eq (a b : bytes) : bytes_eqb a b = true -> a = b.
Proof.
  revert b; induction a as [|x a IH]; intros [|y b] H; try discriminate; [reflexivity|].
  cbn in H. apply andb_prop in H as [H1 H2].
  apply Byte.byte_dec_bl in H1. subst. f_equal. now apply IH.
Qed.

Lemma read_exact_ok (n : N) (s a b : bytes) :
  read_exact n s = Ok (a, b) -> s = a ++ b /\ length a = N.to_nat n.
Proof.
  unfold read_exact. destruct (lenN s <? n) eqn:E; [discriminate|].
  intros H. injection H as <- <-. apply N.ltb_ge in E. unfold lenN in E.
  split; [symmetry; apply firstn_skipn|].
  unfold take. rewrite length_firstn. lia.
Qed.

Lemma le_u32_from_le_u32 (c : bytes) : length c = 4%nat -> le_u32 (from_le_u32 c) = c.
Proof.
  intros Hc.
  destruct c as [|b0 [|b1 [|b2 [|b3 [|? ?]]]]]; try discriminate.
  unfold le_u32, from_le_u32.
  pose proof (Byte.to_N_bounded b0). pose proof (Byte.to_N_bounded b1).
  pose proof (Byte.to_N_bounded b2). pose proof (Byte.to_N_bounded b3).
  set (v := Byte.to_N b0 + 256 * Byte.to_N b1 + 65536 * Byte.to_N b2 + 16777216 * Byte.to_N b3).
  assert (Hv : v < 2 ^ 32) by (unfold v; change (2 ^ 32) with 4294967296; lia).
  rewrite (N.mod_small v) by exact Hv.
  assert (E0 : v mod 256 = Byte.to_N b0)
    by (symmetry; apply (N.mod_unique v 256 (Byte.to_N b1 + 256 * Byte.to_N b2 + 65536 * Byte.to_N b3)); unfold v; lia).
  assert (E1 : (v / 256) mod 256 = Byte.to_N b1).
  { replace (v / 256) with (Byte.to_N b1 + 256 * (Byte.to_N b2 + 256 * Byte.to_N b3))
      by (apply (N.div_unique v 256 _ (Byte.to_N b0)); unfold v; lia).
    symmetry; apply (N.mod_unique _ 256 (Byte.to_N b2 + 256 * Byte.to_N b3)); lia. }
  assert (E2 : (v / 65536) mod 256 = Byte.to_N b2).
  { replace (v / 65536) with (Byte.to_N b2 + 256 * Byte.to_N b3)
      by (apply (N.div_unique v 65536 _ (Byte.to_N b0 + 256 * Byte.to_N b1)); unfold v; lia).
    symmetry; apply (N.mod_unique _ 256 (Byte.to_N b3)); lia. }
  assert (E3 : (v / 16777216) mod 256 = Byte.to_N b3).
  { replace (v / 16777216) with (Byte.to_N b3)
      by (apply (N.div_unique v 16777216 _ (Byte.to_N b0 + 256 * Byte.to_N b1 + 65536 * Byte.to_N b2)); unfold v; lia).
    apply N.mod_small; lia. }
  unfold byte_of_N. rewrite E0, E1, E2, E3, !Byte.of_to_N. reflexivity.
Qed.

(** X4. Every stream that [read_header] accepts is a header as
    [write_header] writes it, for the chunk size and nonce it returns,
    followed by the unread rest; the nonce has 12 bytes and the chunk size
    is valid (between 1 and [MAX_CHUNK_SIZE]). *)
Theorem read_header_inverse (s rest nonce : bytes) (cs : N) :
  read_header s = Ok (cs, nonce, rest) ->
  s = write_header nonce cs ++ rest /\ length nonce = 12%nat /\ valid_chunk_size cs = true.
Proof.
  unfold read_header.
  destruct (read_exact 4 s) as [[magic s1]|e] eqn:R1; [|discriminate].
  destruct (negb (bytes_eqb magic MAGIC)) eqn:M; [discriminate|].
  destruct (read_exact 1 s1) as [[version s2]|e] eqn:R2; [|discriminate].
  destruct (negb (bytes_eqb version [VERSION])) eqn:V; [discriminate|].
  destruct (read_exact 4 s2) as [[chunk s3]|e] eqn:R3; [|discriminate].
  destruct ((from_le_u32 chunk =? 0) || (MAX_CHUNK_SIZE <? from_le_u32 chunk)) eqn:C;
    [discriminate|].
  destruct (read_exact 12 s3) as [[n s4]|e] eqn:R4; [|discriminate].
  intros H. injection H as <- <- <-.
  apply read_exact_ok in R1 as [-> _], R2 as [-> _], R3 as [-> Hc], R4 as [-> Hn].
  apply negb_false_iff, bytes_eqb_eq in M, V. subst magic version.
  split; [|split; [exact Hn|unfold valid_chunk_size; now rewrite C]].
  unfold write_header. rewrite le_u32_from_le_u32 by exact Hc.
  now rewrite <- !app_assoc.
Qed.

Lemma lenN_app {A} (a b : list A) : lenN (a ++ b) = lenN a + lenN b.
Proof. unfold lenN. rewrite length_app. lia. Qed.

Lemma lenN_take {A} (n : N) (l : list A) : lenN (take n l) = N.min n (lenN l).
Proof. unfold lenN, take. rewrite length_firstn. lia. Qed.

Lemma lenN_drop {A} (n : N) (l : list A) : lenN (drop n l) = lenN l - n.
Proof. unfold lenN, drop. rewrite length_skipn. lia. Qed.

Lemma drop_drop {A} (a b : N) (l : list A) : drop a (drop b l) = drop (b + a) l.
Proof. unfold drop. rewrite skipn_skipn. f_equal. lia. Qed.

Lemma take_app_lenN {A} (n : N) (l1 l2 : list A) : lenN l1 = n -> take n (l1 ++ l2) = l1.
Proof. intros H. apply take_app_exact. unfold lenN in H. lia. Qed.

Lemma drop_app_lenN {A} (n : N) (l1 l2 : list A) : lenN l1 = n -> drop n (l1 ++ l2) = l2.
Proof. intros H. apply drop_app_exact. unfold lenN in H. lia. Qed.

Lemma firstn_add' {A} (n m : nat) (l : list A) :
  firstn (n + m) l = firstn n l ++ firstn m (skipn n l).
Proof.
  revert l; induction n as [|n IH]; intros l; [reflexivity|].
  destruct l as [|x l]; [now rewrite !firstn_nil|]. cbn. now rewrite IH.
Qed.

Lemma skipn_repeat' {A} (x : A) (m n : nat) : skipn m (repeat x n) = repeat x (n - m).
Proof.
  revert n; induction m as [|m IH]; intros n; [now rewrite Nat.sub_0_r|].
  destruct n as [|n]; [reflexivity|]. cbn. apply IH.
Qed.

Lemma saturating_add_small (a b : N) : a + b <= U64_MAX -> saturating_add a b = a + b.
Proof. intros H. unfold saturating_add. lia. Qed.

Lemma chunks_nil (cs : N) : 0 < cs -> (0 + cs - 1) / cs = 0.
Proof. intros H. apply N.div_small. lia. Qed.

Lemma chunks_step (cs L : N) : 0 < cs -> cs <= L ->
  (L + cs - 1) / cs = 1 + (L - cs + cs - 1) / cs.
Proof.
  intros H HL. replace (L + cs - 1) with ((L - cs + cs - 1) + 1 * cs) by lia.
  rewrite N.div_add by lia. lia.
Qed.

Lemma chunks_last (cs L : N) : 0 < L -> L <= cs -> (L + cs - 1) / cs = 1.
Proof.
  intros H HL. symmetry. apply (N.div_unique _ _ _ (L - 1)); lia.
Qed.

Section Layout.
(** AES-256-GCM with the laws used in [Roundtrip]. *)

Variable aes_gcm_encrypt : bytes -> bytes -> bytes -> bytes.
Variable aes_gcm_decrypt : bytes -> bytes -> bytes -> option bytes.
Hypothesis decrypt_encrypt :
  forall key nonce pt, aes_gcm_decrypt key nonce (aes_gcm_encrypt key nonce pt) = Some pt.
Hypothesis length_encrypt :
  forall key nonce pt, length (aes_gcm_encrypt key nonce pt) = (length pt + 16)%nat.

Lemma lenN_encrypt key nonce pt : lenN (aes_gcm_encrypt key nonce pt) = lenN pt + TAG_LEN.
Proof. unfold lenN, TAG_LEN. rewrite length_encrypt. lia. Qed.

(** Where the encrypt loop puts each chunk: chunk [i] of the input,
    encrypted under counter [counter + i], is the [i]-th block of
    [chunk_size + 16] bytes of the output (the last one shorter). *)
Lemma encrypt_loop_layout (key base : bytes) (cs : N) (Hcs : 0 < cs) :
  forall fuel input counter total hashed,
  (length input < fuel)%nat ->
  counter + lenN input <= U64_MAX -> total + lenN input <= U64_MAX ->
  let '(out, h, t) := encrypt_loop aes_gcm_encrypt fuel key base cs input counter total hashed in
  t = total + lenN input /\ h = hashed ++ input /\
  lenN out = lenN input + TAG_LEN * ((lenN input + cs - 1) / cs) /\
  (forall i, i * cs < lenN input ->
     take (N.min cs (lenN input - i * cs) + TAG_LEN) (drop (i * (cs + TAG_LEN)) out)
     = aes_gcm_encrypt key (nonce_for_chunk base (counter + i)) (take cs (drop (i * cs) input))).
Proof.
  intros fuel. induction fuel as [|fuel IH];
    intros input counter total hashed Hfuel Hc Ht; [lia|].
  destruct input as [|x xs].
  { rewrite encrypt_loop_nil. cbn [lenN length N.of_nat].
    rewrite chunks_nil by exact Hcs.
    split; [lia|]. split; [now rewrite app_nil_r|]. split; [reflexivity|].
    intros i Hi. lia. }
  set (input := x :: xs) in *.
  assert (Hpos : 0 < lenN input) by (unfold input, lenN; cbn [length]; lia).
  cbn [encrypt_loop]. fold input.
  set (buf := take cs input). set (rest := drop cs input).
  assert (Hbuf : lenN buf = N.min cs (lenN input)) by apply lenN_take.
  pose proof (N.le_min_l cs (lenN input)). pose proof (N.le_min_r cs (lenN input)).
  pose proof (N.min_spec cs (lenN input)).
  assert (Hrest : lenN rest = lenN input - cs) by apply lenN_drop.
  replace (lenN buf =? 0) with false by (symmetry; apply N.eqb_neq; lia).
  rewrite (saturating_add_small counter 1) by lia.
  rewrite (saturating_add_small total (lenN buf)) by lia.
  assert (Hfuel' : (length rest < fuel)%nat).
  { unfold rest, drop. rewrite length_skipn. unfold input in *. cbn [length] in *. lia. }
  specialize (IH rest (counter + 1) (total + lenN buf) (hashed ++ buf) Hfuel'
                ltac:(lia) ltac:(lia)).
  destruct (encrypt_loop aes_gcm_encrypt fuel key base cs rest (counter + 1)
              (total + lenN buf) (hashed ++ buf)) as [[out h] t].
  destruct IH as (IHt & IHh & IHlen & IHpos).
  set (ct := aes_gcm_encrypt key (nonce_for_chunk base counter) buf).
  assert (Hct : lenN ct = lenN buf + TAG_LEN) by apply lenN_encrypt.
  split; [lia|]. split.
  { rewrite IHh, <- app_assoc. unfold buf, rest, take, drop. now rewrite firstn_skipn. }
  split.
  { rewrite lenN_app, Hct, IHlen, Hrest, Hbuf. unfold TAG_LEN.
    destruct (N.le_gt_cases cs (lenN input)) as [Hfull|Hshort].
    - rewrite (chunks_step cs (lenN input)) by lia. lia.
    - rewrite (chunks_last cs (lenN input)) by lia.
      replace (lenN input - cs) with 0 by lia. rewrite chunks_nil by lia. lia. }
  intros i Hi.
  destruct (N.zero_or_succ i) as [->|[j ->]].
  - rewrite !N.mul_0_l, N.add_0_r, N.sub_0_r.
    change (drop 0 (ct ++ out)) with (ct ++ out). change (drop 0 input) with input.
    rewrite take_app_lenN by (rewrite Hct, Hbuf; reflexivity).
    reflexivity.
  - rewrite N.mul_succ_l in Hi |- *. rewrite N.mul_succ_l.
    assert (Hfull : cs <= lenN input) by lia.
    assert (Hctl : lenN ct = cs + TAG_LEN) by lia.
    replace (j * (cs + TAG_LEN) + (cs + TAG_LEN)) with ((cs + TAG_LEN) + j * (cs + TAG_LEN))
      by lia.
    rewrite <- drop_drop, drop_app_lenN by exact Hctl.
    specialize (IHpos j ltac:(lia)).
    replace (lenN input - (j * cs + cs)) with (lenN rest - j * cs) by lia.
    rewrite IHpos.
    replace (counter + 1 + j) with (counter + N.succ j) by lia.
    unfold rest. rewrite drop_drop. do 3 f_equal. lia.
Qed.


Lemma chunks_bounds (cs L : N) : 0 < cs ->
  cs * ((L + cs - 1) / cs) <= L + cs - 1 < cs * ((L + cs - 1) / cs) + cs.
Proof.
  intros H. split; [apply N.Div0.mul_div_le|].
  pose proof (N.mod_lt (L + cs - 1) cs ltac:(lia)).
  pose proof (N.div_mod (L + cs - 1) cs ltac:(lia)). lia.
Qed.

Lemma plaintext_len_of_layout (base out : bytes) (cs L : N) :
  length base = 12%nat -> valid_chunk_size cs = true -> 0 < L ->
  lenN out = L + TAG_LEN * ((L + cs - 1) / cs) ->
  encrypted_plaintext_len (write_header base cs ++ out) = Ok L.
Proof.
  intros Hb Hcs HL Hout.
  assert (Hcs' : 0 < cs <= MAX_CHUNK_SIZE).
  { unfold valid_chunk_size in Hcs. apply negb_true_iff, orb_false_iff in Hcs as [H1 H2].
    apply N.eqb_neq in H1. apply N.ltb_ge in H2. lia. }
  set (k := (L + cs - 1) / cs) in *.
  pose proof (chunks_bounds cs L ltac:(lia)) as Hk. fold k in Hk.
  assert (Hk1 : 1 <= k).
  { unfold k. apply N.div_le_lower_bound; lia. }
  unfold encrypted_plaintext_len.
  rewrite lenN_app, length_write_header by exact Hb.
  unfold HEADER_LEN, TAG_LEN in *.
  replace (21 + lenN out <? 21 + 16) with false by (symmetry; apply N.ltb_ge; nia).
  rewrite read_header_write_header by assumption.
  replace (21 + lenN out - 21) with (lenN out) by lia.
  replace (lenN out =? 0) with false by (symmetry; apply N.eqb_neq; nia).
  set (q := L / cs). set (r := L mod cs).
  assert (HL' : L = cs * q + r) by (apply N.div_mod; lia).
  assert (Hr : r < cs) by (apply N.mod_lt; lia).
  destruct (N.eq_dec r 0) as [Hr0|Hr0].
  - assert (Hkq : k = q) by nia.
    replace (lenN out / (cs + 16)) with q
      by (apply (N.div_unique _ _ _ 0); nia).
    replace (lenN out mod (cs + 16)) with 0
      by (apply (N.mod_unique _ _ q); nia).
    cbn. f_equal. nia.
  - assert (Hkq : k = q + 1) by nia.
    replace (lenN out / (cs + 16)) with q
      by (apply (N.div_unique _ _ _ (r + 16)); nia).
    replace (lenN out mod (cs + 16)) with (r + 16)
      by (apply (N.mod_unique _ _ q); nia).
    replace ((0 <? r + 16) && (r + 16 <? 16)) with false
      by (symmetry; apply andb_false_iff; right; apply N.ltb_ge; lia).
    replace (r + 16 =? 0) with false by (symmetry; apply N.eqb_neq; lia).
    f_equal. nia.
Qed.

Lemma valid_chunk_size_pos (cs : N) : valid_chunk_size cs = true -> 0 < cs.
Proof.
  unfold valid_chunk_size. intros H.
  apply negb_true_iff, orb_false_iff in H as [H _]. apply N.eqb_neq in H. lia.
Qed.

Lemma encrypt_stream_internal_valid (input key base : bytes) (cs : N) :
  valid_chunk_size cs = true ->
  encrypt_stream_internal aes_gcm_encrypt input key base cs
  = let '(out, hashed, total) :=
      encrypt_loop aes_gcm_encrypt (S (length input)) key base cs input 0 0 [] in
    (write_header base cs ++ out, Ok (total, hashed)).
Proof.
  unfold valid_chunk_size, encrypt_stream_internal. intros H.
  apply negb_true_iff in H. now rewrite H.
Qed.

Section Chunks.
Variables (input key base out : bytes) (cs L : N).
Hypothesis Hb : length base = 12%nat.
Hypothesis Hcs : 0 < cs.
Hypothesis HL : lenN input = L.
Hypothesis Hlayout : forall i, i * cs < L ->
  take (N.min cs (L - i * cs) + TAG_LEN) (drop (i * (cs + TAG_LEN)) out)
  = aes_gcm_encrypt key (nonce_for_chunk base (0 + i)) (take cs (drop (i * cs) input)).

Lemma decrypt_chunk_at_layout (idx : N) :
  idx < (L + cs - 1) / cs ->
  decrypt_chunk_at aes_gcm_decrypt (write_header base cs ++ out) key base cs L
    ((L + cs - 1) / cs) idx = Ok (take cs (drop (idx * cs) input)).
Proof.
  intros Hidx. set (k := (L + cs - 1) / cs) in *.
  pose proof (chunks_bounds cs L Hcs) as Hk. fold k in Hk.
  assert (Hlt : idx * cs < L) by nia.
  unfold decrypt_chunk_at.
  replace (if idx =? k - 1 then L - idx * cs else cs) with (N.min cs (L - idx * cs)).
  2:{ destruct (N.eqb_spec idx (k - 1)) as [E|E].
      - apply N.min_r. nia.
      - apply N.min_l. assert (idx + 1 <= k - 1) by lia. nia. }
  unfold read_exact_at.
  rewrite <- drop_drop, drop_app_lenN by (apply length_write_header, Hb).
  rewrite Hlayout by exact Hlt. rewrite N.add_0_l.
  rewrite lenN_encrypt, lenN_take, lenN_drop, HL.
  replace (N.min cs (L - idx * cs) + TAG_LEN <? N.min cs (L - idx * cs) + TAG_LEN)
    with false by (symmetry; apply N.ltb_irrefl).
  now rewrite decrypt_encrypt.
Qed.

Lemma run_chunks_fill (n s : nat) (buf : bytes) :
  (s + n)%nat = N.to_nat ((L + cs - 1) / cs) ->
  buf = firstn (s * N.to_nat cs) input ++ repeat Byte.x00 (length input - s * N.to_nat cs) ->
  run_chunks aes_gcm_decrypt (write_header base cs ++ out) key base cs L
    ((L + cs - 1) / cs) (map N.of_nat (seq s n)) buf = (Ok tt, input).
Proof.
  set (k := (L + cs - 1) / cs).
  pose proof (chunks_bounds cs L Hcs) as Hk. fold k in Hk.
  assert (HLn : length input = N.to_nat L) by (unfold lenN in HL; lia).
  set (c := N.to_nat cs).
  assert (Hc : (1 <= c)%nat) by (unfold c; lia).
  assert (Hkc : (length input <= N.to_nat k * c)%nat) by (unfold c; nia).
  revert s buf. induction n as [|n IH]; intros s buf Hs ->.
  - cbn [seq map run_chunks]. rewrite Nat.add_0_r in Hs. subst s.
    rewrite firstn_all2 by lia. replace (length input - N.to_nat k * c)%nat with 0%nat by lia.
    now rewrite app_nil_r.
  - cbn [seq map run_chunks].
    rewrite decrypt_chunk_at_layout by lia.
    apply IH; [lia|].
    assert (Hsc : (s * c < length input)%nat).
    { assert (s + 1 <= N.to_nat k)%nat by lia. unfold c. nia. }
    unfold write_exact_at, take, drop.
    rewrite !N2Nat.inj_mul, Nat2N.id. fold c.
    rewrite N2Nat.inj_add, N2Nat.inj_mul, Nat2N.id. fold c.
    unfold lenN. rewrite Nat2N.id.
    rewrite firstn_app, firstn_firstn, Nat.min_id, length_firstn.
    replace (s * c - Nat.min (s * c) (length input))%nat with 0%nat by lia.
    cbn [firstn]. rewrite app_nil_r.
    rewrite skipn_app.
    rewrite (skipn_all2 (firstn (s * c) input)) by (rewrite !length_firstn; lia).
    rewrite !length_firstn.
    rewrite skipn_repeat', ?length_skipn. cbn [app].
    rewrite app_assoc, <- firstn_add'. f_equal.
    + f_equal. lia.
    + f_equal. lia.
Qed.
End Chunks.

Lemma container_layout (input key base : bytes) (cs : N) :
  valid_chunk_size cs = true -> lenN input <= U64_MAX ->
  exists out,
  encrypt_stream_internal aes_gcm_encrypt input key base cs
    = (write_header base cs ++ out, Ok (lenN input, input)) /\
  lenN out = lenN input + TAG_LEN * ((lenN input + cs - 1) / cs) /\
  (forall i, i * cs < lenN input ->
     take (N.min cs (lenN input - i * cs) + TAG_LEN) (drop (i * (cs + TAG_LEN)) out)
     = aes_gcm_encrypt key (nonce_for_chunk base (0 + i)) (take cs (drop (i * cs) input))).
Proof.
  intros Hcs Hmax. rewrite encrypt_stream_internal_valid by exact Hcs.
  pose proof (encrypt_loop_layout key base cs (valid_chunk_size_pos cs Hcs)
                (S (length input)) input 0 0 [] ltac:(lia) ltac:(lia) ltac:(lia)) as H.
  destruct (encrypt_loop aes_gcm_encrypt (S (length input)) key base cs input 0 0 [])
    as [[out h] t].
  destruct H as (-> & -> & Hlen & Hpos).
  exists out. split; [reflexivity|]. split; assumption.
Qed.

(** The blocks the loop writes, chunk by chunk: chunk [i] of the input
    ([chunk_size] bytes from [i * chunk_size], the last one shorter) sealed
    under the nonce for counter [counter + i], for the
    [ceil(n / chunk_size)] chunks of an [n]-byte input. *)
Definition sealed_chunks (key base : bytes) (cs : N) (input : bytes) (counter : N) : bytes :=
  concat (map (fun i => aes_gcm_encrypt key (nonce_for_chunk base (counter + i))
                          (take cs (drop (i * cs) input)))
            (map N.of_nat (seq 0 (N.to_nat ((lenN input + cs - 1) / cs))))).

Lemma chunks_succ (cs L : N) : 0 < cs -> 0 < L ->
  (L + cs - 1) / cs = N.succ ((L - cs + cs - 1) / cs).
Proof.
  intros Hcs HL. destruct (N.le_gt_cases cs L) as [H|H].
  - rewrite (chunks_step cs L Hcs H). lia.
  - rewrite (chunks_last cs L HL ltac:(lia)).
    replace (L - cs) with 0 by lia. rewrite chunks_nil by exact Hcs. reflexivity.
Qed.

Lemma encrypt_loop_blocks (key base : bytes) (cs : N) (Hcs : 0 < cs) :
  forall fuel input counter total hashed,
  (length input < fuel)%nat ->
  counter + lenN input <= U64_MAX -> total + lenN input <= U64_MAX ->
  fst (fst (encrypt_loop aes_gcm_encrypt fuel key base cs input counter total hashed))
  = sealed_chunks key base cs input counter.
Proof.
  intros fuel. induction fuel as [|fuel IH];
    intros input counter total hashed Hfuel Hc Ht; [lia|].
  destruct input as [|x xs].
  { rewrite encrypt_loop_nil. unfold sealed_chunks. cbn [lenN length N.of_nat].
    rewrite chunks_nil by exact Hcs. reflexivity. }
  set (input := x :: xs) in *.
  assert (Hpos : 0 < lenN input) by (unfold input, lenN; cbn [length]; lia).
  cbn [encrypt_loop]. fold input.
  set (buf := take cs input). set (rest := drop cs input).
  assert (Hbuf : lenN buf = N.min cs (lenN input)) by apply lenN_take.
  assert (Hrest : lenN rest = lenN input - cs) by apply lenN_drop.
  pose proof (N.le_min_r cs (lenN input)). pose proof (N.min_spec cs (lenN input)).
  replace (lenN buf =? 0) with false by (symmetry; apply N.eqb_neq; lia).
  rewrite (saturating_add_small counter 1) by lia.
  rewrite (saturating_add_small total (lenN buf)) by lia.
  assert (Hfuel' : (length rest < fuel)%nat).
  { unfold rest, drop. rewrite length_skipn. unfold input in *. cbn [length] in *. lia. }
  specialize (IH rest (counter + 1) (total + lenN buf) (hashed ++ buf) Hfuel'
                ltac:(lia) ltac:(lia)).
  destruct (encrypt_loop aes_gcm_encrypt fuel key base cs rest (counter + 1)
              (total + lenN buf) (hashed ++ buf)) as [[out h] t].
  cbn [fst] in IH |- *. rewrite IH. unfold sealed_chunks.
  rewrite (chunks_succ cs (lenN input) Hcs Hpos), N2Nat.inj_succ, <- Hrest.
  cbn [seq map concat]. rewrite N.add_0_r, N.mul_0_l. change (drop 0 input) with input.
  f_equal. rewrite <- seq_shift, !map_map. f_equal. apply map_ext. intros j.
  unfold rest. rewrite drop_drop. f_equal.
  - f_equal. lia.
  - f_equal. f_equal. lia.
Qed.

(** X1. [encrypt_stream_internal] writes the 21-byte header of
    [write_header] followed by one sealed block per chunk: chunk [i] of the
    plaintext ([chunk_size] bytes, the last one shorter) encrypted under
    [nonce_for_chunk base i], which appends a 16-byte tag. The container for
    an [n]-byte plaintext thus has [21 + n + 16 * ceil(n / chunk_size)]
    bytes; the call reports [n] bytes and hands the hasher exactly the
    plaintext. *)
Theorem encrypt_stream_internal_layout (input key base : bytes) (cs : N) :
  length base = 12%nat -> valid_chunk_size cs = true -> lenN input <= U64_MAX ->
  encrypt_stream_internal aes_gcm_encrypt input key base cs
  = (write_header base cs ++ sealed_chunks key base cs input 0, Ok (lenN input, input)) /\
  lenN (write_header base cs ++ sealed_chunks key base cs input 0)
  = HEADER_LEN + lenN input + TAG_LEN * ((lenN input + cs - 1) / cs).
Proof.
  intros Hb Hcs Hmax.
  pose proof (encrypt_loop_blocks key base cs (valid_chunk_size_pos cs Hcs)
                (S (length input)) input 0 0 [] ltac:(lia) ltac:(lia) ltac:(lia)) as Hblocks.
  destruct (container_layout input key base cs Hcs Hmax) as (out & Heq & Hlen & _).
  rewrite encrypt_stream_internal_valid in Heq |- * by exact Hcs.
  destruct (encrypt_loop aes_gcm_encrypt (S (length input)) key base cs input 0 0 [])
    as [[out' h] t].
  cbn [fst] in Hblocks. subst out'.
  injection Heq as Hout -> ->. apply app_inv_head in Hout. subst out.
  split; [reflexivity|]. rewrite lenN_app, length_write_header by exact Hb. lia.
Qed.

(** X2. [encrypted_plaintext_len] of the container written for a non-empty
    plaintext is the plaintext's length, for every valid chunk size. *)
Theorem encrypted_plaintext_len_container (input key base : bytes) (cs : N) :
  length base = 12%nat -> valid_chunk_size cs = true -> 0 < lenN input ->
  lenN input <= U64_MAX ->
  encrypted_plaintext_len (fst (encrypt_stream_internal aes_gcm_encrypt input key base cs))
  = Ok (lenN input).
Proof.
  intros Hb Hcs Hpos Hmax.
  destruct (container_layout input key base cs Hcs Hmax) as (out & -> & Hlen & _).
  now apply plaintext_len_of_layout.
Qed.

(** X3. On the container written for a non-empty plaintext, [decrypt_file_parallel]
    succeeds for every worker count [>= 1], reports the plaintext length and
    leaves exactly the plaintext in the output file: the bytes serial
    decryption produces. *)
Theorem decrypt_file_parallel_container (input key base : bytes) (cs workers : N) :
  length base = 12%nat -> valid_chunk_size cs = true -> 0 < lenN input ->
  lenN input <= U64_MAX -> 0 < workers ->
  let file := fst (encrypt_stream_internal aes_gcm_encrypt input key base cs) in
  decrypt_file_parallel aes_gcm_decrypt file key workers = (Ok (lenN input), Some input) /\
  exists n, decrypt_stream aes_gcm_decrypt file key = (Ok n, input).
Proof.
  intros Hb Hcs Hpos Hmax Hw file.
  assert (Hcs0 : 0 < cs) by exact (valid_chunk_size_pos cs Hcs).
  split.
  - destruct (container_layout input key base cs Hcs Hmax) as (out & Heq & Hlen & Hlay).
    unfold file. rewrite Heq. cbn [fst].
    unfold decrypt_file_parallel.
    replace (workers =? 0) with false by (symmetry; apply N.eqb_neq; lia).
    rewrite read_header_write_header by assumption.
    rewrite (plaintext_len_of_layout base out cs (lenN input)) by assumption.
    replace (lenN input =? 0) with false by (symmetry; apply N.eqb_neq; lia).
    unfold indices.
    rewrite (run_chunks_fill input key base out cs (lenN input) Hb Hcs0 eq_refl Hlay
               (N.to_nat ((lenN input + cs - 1) / cs)) 0)
      by (reflexivity || (cbn [Nat.mul firstn app]; f_equal; unfold lenN; lia)).
    reflexivity.
  - unfold file. rewrite encrypt_stream_internal_valid by exact Hcs.
    pose proof (encrypt_decrypt_loop aes_gcm_encrypt aes_gcm_decrypt decrypt_encrypt
                  length_encrypt key base cs Hcs0 (S (length input)) input 0 0 []) as Hloop.
    destruct (encrypt_loop aes_gcm_encrypt (S (length input)) key base cs input 0 0 [])
      as [[out hashed] total].
    destruct (Hloop (S (length out)) 0 ltac:(lia)) as [_ Hdec].
    unfold decrypt_stream. cbn [fst].
    rewrite read_header_write_header by assumption.
    apply Hdec. lia.
Qed.

End Layout.


Lemma encrypt_stream_internal_layout_witness :
  length sample_nonce = 12%nat /\ valid_chunk_size 2 = true /\
  lenN sample_plaintext <= U64_MAX /\
  encrypt_stream_internal toy_encrypt sample_plaintext sample_key sample_nonce 2
  = (write_header sample_nonce 2 ++ sealed_chunks toy_encrypt sample_key sample_nonce 2
       sample_plaintext 0, Ok (lenN sample_plaintext, sample_plaintext)) /\
  lenN (write_header sample_nonce 2 ++ sealed_chunks toy_encrypt sample_key sample_nonce 2
          sample_plaintext 0)
  = HEADER_LEN + lenN sample_plaintext + TAG_LEN * ((lenN sample_plaintext + 2 - 1) / 2).
Proof.
  assert (H : lenN sample_plaintext <= U64_MAX) by now vm_compute.
  exact (conj eq_refl (conj eq_refl (conj H
           (encrypt_stream_internal_layout toy_encrypt toy_length_encrypt
              sample_plaintext sample_key sample_nonce 2 eq_refl eq_refl H)))).
Defined.

Lemma encrypted_plaintext_len_container_witness :
  length sample_nonce = 12%nat /\ valid_chunk_size 2 = true /\
  0 < lenN sample_plaintext /\ lenN sample_plaintext <= U64_MAX /\
  encrypted_plaintext_len
    (fst (encrypt_stream_internal toy_encrypt sample_plaintext sample_key sample_nonce 2))
  = Ok (lenN sample_plaintext).
Proof.
  assert (H1 : 0 < lenN sample_plaintext) by now vm_compute.
  assert (H2 : lenN sample_plaintext <= U64_MAX) by now vm_compute.
  exact (conj eq_refl (conj eq_refl (conj H1 (conj H2
           (encrypted_plaintext_len_container toy_encrypt toy_length_encrypt
              sample_plaintext sample_key sample_nonce 2 eq_refl eq_refl H1 H2))))).
Defined.

Lemma decrypt_file_parallel_container_witness :
  length sample_nonce = 12%nat /\ valid_chunk_size 2 = true /\
  0 < lenN sample_plaintext /\ lenN sample_plaintext <= U64_MAX /\ 0 < 3 /\
  let file := fst (encrypt_stream_internal toy_encrypt sample_plaintext sample_key
                     sample_nonce 2) in
  decrypt_file_parallel toy_decrypt file sample_key 3
    = (Ok (lenN sample_plaintext), Some sample_plaintext) /\
  exists n, decrypt_stream toy_decrypt file sample_key = (Ok n, sample_plaintext).
Proof.
  assert (H1 : 0 < lenN sample_plaintext) by now vm_compute.
  assert (H2 : lenN sample_plaintext <= U64_MAX) by now vm_compute.
  assert (H3 : 0 < 3) by now vm_compute.
  exact (conj eq_refl (conj eq_refl (conj H1 (conj H2 (conj H3
           (decrypt_file_parallel_container toy_encrypt toy_decrypt toy_decrypt_encrypt
              toy_length_encrypt sample_plaintext sample_key sample_nonce 2 3
              eq_refl eq_refl H1 H2 H3)))))).
Defined.

Definition sample_header_stream : bytes := write_header sample_nonce 4 ++ [Byte.x01].

Lemma read_header_inverse_witness :
  read_header sample_header_stream = Ok (4, sample_nonce, [Byte.x01]) /\
  sample_header_stream = write_header sample_nonce 4 ++ [Byte.x01] /\
  length sample_nonce = 12%nat /\ valid_chunk_size 4 = true.
Proof.
  assert (H : read_header sample_header_stream = Ok (4, sample_nonce, [Byte.x01]))
    by (vm_compute; reflexivity).
  split; [exact H|]. exact (read_header_inverse _ _ _ _ H).
Defined.

Lemma nonce_for_chunk_injective_witness :
  length sample_nonce = 12%nat /\ 7 < 2 ^ 64 /\
  nonce_for_chunk sample_nonce 7 = nonce_for_chunk sample_nonce 7 /\ 7 = 7.
Proof.
  refine (conj eq_refl (conj _ (conj eq_refl _))); [now vm_compute|].
  apply (nonce_for_chunk_injective sample_nonce 7 7); [reflexivity|now vm_compute ..|reflexivity].
Defined.

End ContainerExtraFacts.

(** ** Around a message *)

Module QueryExtraFacts.
Import Query QueryFacts.
Open Scope Z_scope.

Lemma ts_id_asc_flip (a b : Message) : ts_id_asc a b = ts_id_desc b a.
Proof. unfold ts_id_asc, ts_id_desc. now rewrite Z.eqb_sym. Qed.

Lemma ts_id_asc_irrefl (m : Message) : ts_id_asc m m = false.
Proof. rewrite ts_id_asc_flip. apply ts_id_desc_irrefl. Qed.

Lemma ts_id_asc_trans (a b c : Message) :
  ts_id_asc a b = true -> ts_id_asc b c = true -> ts_id_asc a c = true.
Proof. rewrite !ts_id_asc_flip. intros H1 H2. exact (ts_id_desc_trans _ _ _ H2 H1). Qed.

Lemma StronglySorted_rev' {A} (R : A -> A -> Prop) (l : list A) :
  StronglySorted R l -> StronglySorted (fun x y => R y x) (rev l).
Proof.
  induction l as [|x l IH]; intros Hs; cbn; [constructor|].
  apply StronglySorted_inv in Hs as [Hs Hx].
  specialize (IH Hs). clear Hs.
  assert (H : forall k, StronglySorted (fun x y => R y x) k ->
                        Forall (fun y => R x y) k ->
                        StronglySorted (fun x y => R y x) (k ++ [x])).
  { induction k as [|y k IHk]; intros Hk Hf; cbn; [repeat constructor|].
    apply StronglySorted_inv in Hk as [Hk Hy]. apply Forall_cons_iff in Hf as [Hxy Hf].
    constructor; [now apply IHk|]. apply Forall_app. split; [exact Hy|]. now constructor. }
  apply H; [exact IH|]. apply Forall_forall. intros y Hy. apply in_rev in Hy.
  exact (proj1 (Forall_forall _ _) Hx y Hy).
Qed.

Lemma StronglySorted_impl' {A} (R R' : A -> A -> Prop) (l : list A) :
  (forall x y, R x y -> R' x y) -> StronglySorted R l -> StronglySorted R' l.
Proof.
  intros Himp. induction 1 as [|x l Hs IH Hx]; constructor; [exact IH|].
  eapply Forall_impl; [|exact Hx]. intros y. apply Himp.
Qed.

Section Prefix.
Variable A : Type.
Variable before : A -> A -> bool.
Hypothesis before_irrefl : forall x, before x x = false.
Hypothesis before_trans :
  forall x y z, before x y = true -> before y z = true -> before x z = true.

(** Above a member [c] of a strictly ordered list lies exactly the prefix
    before [c]. *)
Lemma filter_before (P S : list A) (c : A) :
  StronglySorted (fun x y => before x y = true) (P ++ c :: S) ->
  filter (fun x => before x c) (P ++ c :: S) = P.
Proof.
  induction P as [|x P IH]; intros Hs; cbn.
  - rewrite before_irrefl. apply StronglySorted_inv in Hs as [_ Hc].
    induction S as [|y S IHS]; cbn; [reflexivity|].
    apply Forall_cons_iff in Hc as [Hy Hc].
    rewrite (before_asym _ _ before_irrefl before_trans _ _ Hy). exact (IHS Hc).
  - cbn in Hs. apply StronglySorted_inv in Hs as [Hs Hx].
    assert (Hxc : before x c = true)
      by (apply (proj1 (Forall_forall _ _) Hx); apply in_or_app; right; now left).
    rewrite Hxc. f_equal. now apply IH.
Qed.
End Prefix.

Lemma get_message_member (messages : list Message) (c : Message) :
  NoDup (map msg_id messages) -> In c messages -> get_message messages (msg_id c) = Ok c.
Proof.
  intros Hnd Hc. unfold get_message.
  destruct (find (fun m => String.eqb (msg_id m) (msg_id c)) messages) as [m|] eqn:E.
  - apply find_some in E as [Hm Hid]. apply String.eqb_eq in Hid.
    f_equal. exact (key_unique messages m c Hnd Hm Hc Hid).
  - exfalso. pose proof (find_none _ _ E c Hc) as H. cbn in H.
    rewrite String.eqb_refl in H. discriminate.
Qed.

(** X7. [list_messages_around] on the id of a stored message [c] whose
    [sort_ts] is its [COALESCE(sent_at, received_at, 0)] returns a window
    of the thread's timeline in ascending order: with the timeline read
    oldest first as [L ++ c :: R], the result is the last [before] rows of
    [L], then [c], then the first [after] rows of [R] (a negative limit
    takes them all). *)
Lemma list_messages_around_window (messages : list Message) (c : Message) (before after : Z) :
  NoDup (map msg_id messages) ->
  In c messages ->
  msg_sort_ts c = msg_ts c ->
  exists L R,
    rev (timeline messages (msg_thread_id c)) = L ++ c :: R /\
    list_messages_around messages (msg_id c) before after
    = Ok (rev (sql_limit before (rev L)) ++ [c] ++ sql_limit after R).
Proof.
  intros Hnd Hc Hts.
  set (t := msg_thread_id c).
  assert (HcT : In c (timeline messages t)).
  { unfold timeline. apply (Permutation_in _ (sort_by_perm _ ts_id_desc _)).
    apply filter_In. split; [exact Hc|]. unfold in_thread, t. apply String.eqb_refl. }
  apply in_split in HcT as [P [S HT]].
  pose proof (timeline_sorted' messages t Hnd) as Hs. rewrite HT in Hs.
  exists (rev S), (rev P). split.
  { rewrite HT, rev_app_distr. cbn. now rewrite <- app_assoc. }
  rewrite rev_involutive.
  unfold list_messages_around. rewrite (get_message_member messages c Hnd Hc).
  fold (msg_ts c). rewrite <- Hts. fold t.
  rewrite (list_messages_page messages t _ _ before Hnd), HT.
  rewrite (filter_ext _ _ (cursor_pred_before c)).
  rewrite (filter_after _ _ ts_id_desc_irrefl ts_id_desc_trans P S c Hs).
  do 3 f_equal. unfold list_messages_after. f_equal.
  set (cond := fun m => _ : bool).
  assert (Hcond : forall m, cond m = in_thread t m && ts_id_desc m c).
  { intros m. unfold cond, in_thread, ts_id_desc. now rewrite Z.eqb_sym. }
  rewrite (filter_ext _ _ Hcond), <- filter_filter'.
  apply (sorted_unique _ _ ts_id_asc_irrefl ts_id_asc_trans).
  - apply (sort_by_sorted _ _ ts_id_asc_trans).
    + apply NoDup_map_inv with (f := msg_id). now do 2 apply NoDup_map_filter.
    + intros x y Hx Hy Hne. rewrite !ts_id_asc_flip.
      apply filter_In in Hx as [Hx _], Hy as [Hy _].
      apply filter_In in Hx as [Hx _], Hy as [Hy _].
      destruct (ts_id_desc_total y x) as [H|H]; [|now left|now right].
      intros Hid. exact (Hne (key_unique messages x y Hnd Hx Hy (eq_sym Hid))).
  - assert (HP : StronglySorted (fun a b => ts_id_desc a b = true) P).
    { clear -Hs. induction P as [|x P IH]; [constructor|].
      cbn in Hs. apply StronglySorted_inv in Hs as [Hs Hx].
      constructor; [now apply IH|].
      apply Forall_forall. intros y Hy. apply (proj1 (Forall_forall _ _) Hx).
      apply in_or_app. now left. }
    apply StronglySorted_rev' in HP.
    eapply StronglySorted_impl'; [|exact HP]. intros a b. cbn. now rewrite ts_id_asc_flip.
  - transitivity (filter (fun m => ts_id_desc m c) (filter (in_thread t) messages)).
    { apply Permutation_sym, sort_by_perm. }
    transitivity (filter (fun m => ts_id_desc m c) (timeline messages t)).
    { apply Permutation_filter', sort_by_perm. }
    rewrite HT, (filter_before _ _ ts_id_desc_irrefl ts_id_desc_trans P S c Hs).
    apply Permutation_rev.
Qed.

Lemma list_messages_around_window_witness :
  NoDup (map msg_id sample_messages) /\
  In (mkMessage "m2" "t1" None (Some 20) 20) sample_messages /\
  msg_sort_ts (mkMessage "m2" "t1" None (Some 20) 20)
  = msg_ts (mkMessage "m2" "t1" None (Some 20) 20) /\
  list_messages_around sample_messages "m2" 1 1
  = Ok [mkMessage "m1" "t1" (Some 10) None 10; mkMessage "m2" "t1" None (Some 20) 20;
        mkMessage "m4" "t1" (Some 20) None 20] /\
  exists L R,
    rev (timeline sample_messages "t1") = L ++ mkMessage "m2" "t1" None (Some 20) 20 :: R /\
    list_messages_around sample_messages "m2" 1 1
    = Ok (rev (sql_limit 1 (rev L)) ++ [mkMessage "m2" "t1" None (Some 20) 20] ++ sql_limit 1 R).
Proof.
  assert (Hnd : NoDup (map msg_id sample_messages)).
  { cbn. repeat constructor; cbn; intuition discriminate. }
  assert (Hin : In (mkMessage "m2" "t1" None (Some 20) 20) sample_messages).
  { simpl. tauto. }
  split; [exact Hnd|]. split; [exact Hin|]. split; [reflexivity|]. split; [vm_compute; reflexivity|].
  exact (list_messages_around_window sample_messages (mkMessage "m2" "t1" None (Some 20) 20)
           1 1 Hnd Hin eq_refl).
Defined.

End QueryExtraFacts.

(** ** Tags *)

Module TagFacts.
Import Query QueryFacts Importer Tags.
Open Scope Z_scope.

Lemma existsb_key_absent {B} (key : B -> string) (l : list B) (k : string) :
  ~ In k (map key l) -> existsb (fun x => String.eqb (key x) k) l = false.
Proof.
  induction l as [|x l IH]; intros Hn; cbn; [reflexivity|].
  destruct (String.eqb_spec (key x) k) as [E|E].
  - exfalso. apply Hn. now left.
  - apply IH. intros H. apply Hn. now right.
Qed.

Lemma existsb_key_present {B} (key : B -> string) (l : list B) (x : B) :
  In x l -> existsb (fun y => String.eqb (key y) (key x)) l = true.
Proof.
  intros Hx. apply existsb_exists. exists x. split; [exact Hx|]. apply String.eqb_refl.
Qed.

Lemma fold_max_bounds (l : list Z) (m0 : Z) :
  m0 <= fold_left Z.max l m0 /\ (forall x, In x l -> x <= fold_left Z.max l m0) /\
  (fold_left Z.max l m0 = m0 \/ In (fold_left Z.max l m0) l).
Proof.
  revert m0. induction l as [|x l IH]; intros m0; cbn.
  - split; [lia|]. split; [tauto|now left].
  - destruct (IH (Z.max m0 x)) as [H1 [H2 H3]]. split; [lia|]. split.
    + intros y [<-|Hy]; [lia|now apply H2].
    + destruct H3 as [H3|H3]; [|right; now right].
      rewrite H3. destruct (Z.max_spec m0 x) as [[_ ->]|[_ ->]]; [right; now left|now left].
Qed.

Lemma max_display_order_acc (ts : list Tag) (m : Z) :
  fold_left (fun acc t =>
      match acc with
      | None => Some (tag_display_order t)
      | Some m => Some (Z.max m (tag_display_order t))
      end) ts (Some m)
  = Some (fold_left Z.max (map tag_display_order ts) m).
Proof. revert m. induction ts as [|t ts IH]; intros m; cbn; [reflexivity|]. apply IH. Qed.

(** Every stored order lies below the order [create_tag] gives a new tag,
    when the orders are [i64] values below [i64::MAX]. *)
Lemma next_display_order_above (tags : list Tag) :
  (forall t, In t tags -> - 2 ^ 63 <= tag_display_order t < 2 ^ 63 - 1) ->
  forall t, In t tags ->
  tag_display_order t
  < wrap_i64 (match max_display_order tags with Some m => m | None => -1 end + 1).
Proof.
  intros Hr t Ht. destruct tags as [|t0 ts]; [destruct Ht|].
  unfold max_display_order. cbn [fold_left]. rewrite max_display_order_acc.
  destruct (fold_max_bounds (map tag_display_order ts) (tag_display_order t0)) as [H1 [H2 H3]].
  set (M := fold_left Z.max (map tag_display_order ts) (tag_display_order t0)) in *.
  assert (HM : - 2 ^ 63 <= M < 2 ^ 63 - 1).
  { destruct H3 as [H3|H3].
    - rewrite H3. apply Hr. now left.
    - apply in_map_iff in H3 as [u [Hu Hin]]. rewrite <- Hu. apply Hr. now right. }
  assert (Hw : wrap_i64 (M + 1) = M + 1).
  { unfold wrap_i64. rewrite Z.mod_small by lia. lia. }
  rewrite Hw. destruct Ht as [<-|Ht]; [lia|].
  pose proof (H2 _ (in_map tag_display_order _ _ Ht)). lia.
Qed.

Lemma insert_by_keeps_last {A} (before : A -> A -> bool) (y t : A) (l : list A) :
  before y t = true -> exists l', insert_by before y (l ++ [t]) = l' ++ [t].
Proof.
  intros Hyt. induction l as [|z l IH]; cbn.
  - rewrite Hyt. now exists [y].
  - destruct (before y z).
    + now exists (y :: z :: l).
    + destruct IH as [l' E]. rewrite E. now exists (z :: l').
Qed.

Lemma sort_by_keeps_last {A} (before : A -> A -> bool) (t : A) (l : list A) :
  (forall y, In y l -> before y t = true) -> exists l', sort_by before (l ++ [t]) = l' ++ [t].
Proof.
  intros Hl. unfold sort_by. rewrite fold_right_app. cbn.
  induction l as [|y l IH]; cbn; [now exists []|].
  destruct IH as [l' E]; [intros z Hz; apply Hl; now right|].
  rewrite E. apply insert_by_keeps_last. apply Hl. now left.
Qed.

Lemma StronglySorted_app_last {A} (R : A -> A -> Prop) (l : list A) (a x : A) :
  StronglySorted R (l ++ [a]) -> In x l -> R x a.
Proof.
  induction l as [|y l IH]; intros Hs Hx; [destruct Hx|].
  cbn in Hs. apply StronglySorted_inv in Hs as [Hs Hy].
  destruct Hx as [<-|Hx].
  - apply (proj1 (Forall_forall _ _) Hy). apply in_or_app. right. now left.
  - now apply IH.
Qed.

Lemma admits_last {A} (before : A -> A -> bool) (l out : list A) (t : A) :
  (forall y, In y l -> before y t = true) ->
  order_admits before (l ++ [t]) out -> last_opt out = Some t.
Proof.
  intros Hl [Hp Hs].
  destruct (exists_last (l := out)) as [o [a Eo]].
  { intros ->. apply Permutation_sym, Permutation_nil in Hp. now destruct l. }
  subst out. rewrite last_opt_app. f_equal.
  assert (Ht : In t (o ++ [a])) by (apply (Permutation_in _ Hp), in_or_app; right; now left).
  assert (Ha : In a (l ++ [t])) by (apply (Permutation_in _ (Permutation_sym Hp)), in_or_app; right; now left).
  apply in_app_or in Ht as [Ht|[<-|[]]]; [|reflexivity].
  apply in_app_or in Ha as [Ha|[->|[]]]; [|reflexivity].
  pose proof (StronglySorted_app_last _ _ _ _ Hs Ht) as H. cbn in H.
  rewrite (Hl a Ha) in H. discriminate.
Qed.

(** X8. When the [i64] display orders of the stored tags lie below
    [i64::MAX] and neither the id [tag:<now>] nor the name is taken,
    [create_tag] appends a tag with that id and timestamp whose display
    order exceeds every stored one, so the new tag comes last in
    [list_tags] and in every order the ORDER BY admits. *)
Theorem create_tag_listed_last (db : TagStore) (now : Z) (name color : string) :
  (forall t, In t (st_tags db) -> - 2 ^ 63 <= tag_display_order t < 2 ^ 63 - 1) ->
  ~ In ("tag:" ++ string_of_Z now)%string (map tag_id (st_tags db)) ->
  ~ In name (map tag_name (st_tags db)) ->
  exists t,
    create_tag db now name color = (Ok t, mkTagStore (st_tags db ++ [t]) (st_message_tags db)) /\
    tag_id t = ("tag:" ++ string_of_Z now)%string /\ tag_created_at t = now /\
    (forall t', In t' (st_tags db) -> tag_display_order t' < tag_display_order t) /\
    last_opt (list_tags (mkTagStore (st_tags db ++ [t]) (st_message_tags db))) = Some t /\
    (forall out, order_admits tag_before (st_tags db ++ [t]) out -> last_opt out = Some t).
Proof.
  intros Hr Hid Hname.
  set (t := mkTag ("tag:" ++ string_of_Z now)%string name color now
              (wrap_i64 (match max_display_order (st_tags db) with Some m => m | None => -1 end + 1))).
  assert (Hab : forall y, In y (st_tags db) -> tag_before y t = true).
  { intros y Hy. unfold tag_before. apply orb_true_intro. left. apply Z.ltb_lt.
    exact (next_display_order_above _ Hr y Hy). }
  exists t. split; [|split; [reflexivity|split; [reflexivity|split; [|split]]]].
  - unfold create_tag, exec_insert_tag_row. fold t. cbn [tag_id tag_name t].
    rewrite (existsb_key_absent tag_name _ _ Hname), (existsb_key_absent tag_id _ _ Hid).
    reflexivity.
  - exact (next_display_order_above _ Hr).
  - unfold list_tags. cbn [st_tags].
    destruct (sort_by_keeps_last tag_before t _ Hab) as [l' ->]. apply last_opt_app.
  - intros out. apply admits_last. exact Hab.
Qed.

(** X9. Two [create_tag] calls in the same millisecond: once the first
    has succeeded, the second fails and leaves the tables unchanged. It
    fails on [tags.name] when its name is already stored (the first call's
    name included), and otherwise on the primary key [tags.id], whatever
    its colour. *)
Theorem create_tag_same_millisecond (db db' : TagStore) (now : Z) (name color name' color' : string)
    (t : Tag) :
  create_tag db now name color = (Ok t, db') ->
  (In name' (map tag_name (st_tags db')) ->
   create_tag db' now name' color' = (Err (Sqlite "UNIQUE constraint failed: tags.name"), db')) /\
  (~ In name' (map tag_name (st_tags db')) ->
   create_tag db' now name' color' = (Err (Sqlite "UNIQUE constraint failed: tags.id"), db')).
Proof.
  unfold create_tag at 1, exec_insert_tag_row.
  destruct (existsb _ (st_tags db)); [discriminate|].
  destruct (existsb _ (st_tags db)); [discriminate|].
  intros E. injection E as Et Edb. subst db' t. cbn [st_tags]. split.
  - intros Hin. unfold create_tag, exec_insert_tag_row. cbn [st_tags tag_name].
    apply in_map_iff in Hin as [u [Hu Hin]].
    assert (existsb (fun t' => String.eqb (tag_name t') name') (st_tags db ++ _) = true) as ->
      by (rewrite <- Hu; apply existsb_key_present; exact Hin).
    reflexivity.
  - intros Hn. unfold create_tag, exec_insert_tag_row. cbn [st_tags tag_name tag_id].
    rewrite (existsb_key_absent tag_name _ _ Hn).
    rewrite existsb_app. cbn [existsb tag_id]. rewrite String.eqb_refl, orb_true_r.
    reflexivity.
Qed.

(** The join of [get_message_tags] before the ORDER BY. *)
Definition tag_join (tags : list Tag) (mts : list MessageTag) (message_id : string) : list Tag :=
  flat_map (fun t =>
     flat_map (fun mt =>
       if String.eqb (mt_tag_id mt) (tag_id t) && String.eqb (mt_message_id mt) message_id
       then [t] else []) mts) tags.

Lemma get_message_tags_join (db : TagStore) (message_id : string) :
  get_message_tags db message_id = sort_by tag_before (tag_join (st_tags db) (st_message_tags db) message_id).
Proof. reflexivity. Qed.

Lemma tag_join_in (tags : list Tag) mts message_id (t : Tag) :
  In t (tag_join tags mts message_id) -> In t tags.
Proof.
  unfold tag_join. intros H. apply in_flat_map in H as [u [Hu H]].
  apply in_flat_map in H as [mt [_ H]].
  destruct (_ && _); [destruct H as [<-|[]]; exact Hu|destruct H].
Qed.

Lemma tag_join_one_removed (t : Tag) (mts : list MessageTag) message_id (id : string) :
  String.eqb (tag_id t) id = true ->
  filter (fun t => negb (String.eqb (tag_id t) id))
    (flat_map (fun mt =>
       if String.eqb (mt_tag_id mt) (tag_id t) && String.eqb (mt_message_id mt) message_id
       then [t] else []) mts) = [].
Proof.
  intros E. induction mts as [|mt mts IHm]; cbn; [reflexivity|].
  rewrite filter_app, IHm. destruct (_ && _); cbn; [|reflexivity].
  rewrite E. reflexivity.
Qed.

Lemma tag_join_one_kept (t : Tag) (mts : list MessageTag) message_id (id : string) :
  String.eqb (tag_id t) id = false ->
  flat_map (fun mt =>
    if String.eqb (mt_tag_id mt) (tag_id t) && String.eqb (mt_message_id mt) message_id
    then [t] else []) (filter (fun mt => negb (String.eqb (mt_tag_id mt) id)) mts)
  = filter (fun t => negb (String.eqb (tag_id t) id))
      (flat_map (fun mt =>
         if String.eqb (mt_tag_id mt) (tag_id t) && String.eqb (mt_message_id mt) message_id
         then [t] else []) mts).
Proof.
  intros E. induction mts as [|mt mts IHm]; cbn; [reflexivity|].
  rewrite filter_app, <- IHm.
  destruct (String.eqb (mt_tag_id mt) (tag_id t)) eqn:Em; cbn.
  - apply String.eqb_eq in Em.
    assert (Hne : String.eqb (mt_tag_id mt) id = false) by (rewrite Em; exact E).
    rewrite Hne. cbn. rewrite Em, String.eqb_refl. cbn.
    destruct (String.eqb (mt_message_id mt) message_id); cbn; [now rewrite E|reflexivity].
  - destruct (negb (String.eqb (mt_tag_id mt) id)); cbn; [rewrite Em|]; reflexivity.
Qed.

Lemma tag_join_delete (tags : list Tag) mts message_id (id : string) :
  tag_join (filter (fun t => negb (String.eqb (tag_id t) id)) tags)
    (filter (fun mt => negb (String.eqb (mt_tag_id mt) id)) mts) message_id
  = filter (fun t => negb (String.eqb (tag_id t) id)) (tag_join tags mts message_id).
Proof.
  unfold tag_join. induction tags as [|t tags IH]; cbn; [reflexivity|].
  rewrite filter_app. destruct (String.eqb (tag_id t) id) eqn:E; cbn.
  - rewrite IH, tag_join_one_removed by exact E. reflexivity.
  - rewrite IH, tag_join_one_kept by exact E. reflexivity.
Qed.

Lemma filter_all_true {B} (p : B -> bool) (l : list B) :
  (forall x, In x l -> p x = true) -> filter p l = l.
Proof.
  induction l as [|x l IH]; intros H; cbn; [reflexivity|].
  rewrite (H x (or_introl eq_refl)). f_equal. apply IH. intros y Hy. apply H. now right.
Qed.

(** X10. [delete_tag] always returns [Ok]; afterwards no listed tag has
    the id, and the tags of every message are its former tags without the
    deleted one (as a multiset: the ORDER BY does not fix ties). *)
Theorem delete_tag_cascade (db : TagStore) (id message_id : string) :
  fst (delete_tag db id) = Ok tt /\
  ~ In id (map tag_id (list_tags (snd (delete_tag db id)))) /\
  Permutation (get_message_tags (snd (delete_tag db id)) message_id)
    (filter (fun t => negb (String.eqb (tag_id t) id)) (get_message_tags db message_id)).
Proof.
  unfold delete_tag. destruct (existsb _ (st_tags db)) eqn:Ex; cbn [fst snd].
  - split; [reflexivity|]. split.
    + unfold list_tags. cbn [st_tags]. intros H.
      apply in_map_iff in H as [t [Ht H]].
      apply (Permutation_in _ (Permutation_sym (sort_by_perm _ _ _))) in H.
      apply filter_In in H as [_ H]. rewrite Ht, String.eqb_refl in H. discriminate.
    + rewrite !get_message_tags_join. cbn [st_tags st_message_tags].
      rewrite tag_join_delete.
      transitivity (filter (fun t => negb (String.eqb (tag_id t) id))
                      (tag_join (st_tags db) (st_message_tags db) message_id)).
      * apply Permutation_sym, sort_by_perm.
      * apply Permutation_filter', sort_by_perm.
  - split; [reflexivity|]. split.
    + intros H. apply in_map_iff in H as [t [Ht H]]. unfold list_tags in H.
      apply (Permutation_in _ (Permutation_sym (sort_by_perm _ _ _))) in H.
      assert (existsb (fun t => String.eqb (tag_id t) id) (st_tags db) = true) as Ht'.
      { apply existsb_exists. exists t. split; [exact H|]. rewrite Ht. apply String.eqb_refl. }
      congruence.
    + rewrite filter_all_true; [reflexivity|].
      intros t Ht. rewrite get_message_tags_join in Ht.
      apply (Permutation_in _ (Permutation_sym (sort_by_perm _ _ _))), tag_join_in in Ht.
      destruct (String.eqb_spec (tag_id t) id) as [E|E]; [|reflexivity].
      assert (existsb (fun t => String.eqb (tag_id t) id) (st_tags db) = true) as Ht'.
      { apply existsb_exists. exists t. split; [exact Ht|]. rewrite E. apply String.eqb_refl. }
      congruence.
Qed.

(** X11. [update_tag] on an id no tag has succeeds and changes nothing. *)
Theorem update_tag_missing_id (db : TagStore) (id name color : string) :
  ~ In id (map tag_id (st_tags db)) -> update_tag db id name color = (Ok tt, db).
Proof.
  intros Hn. unfold update_tag. rewrite (existsb_key_absent tag_id _ _ Hn). cbn [andb].
  destruct db as [tags mts]. cbn [st_tags st_message_tags]. f_equal. f_equal.
  cbn in Hn. induction tags as [|t tags IH]; cbn; [reflexivity|].
  destruct (String.eqb_spec (tag_id t) id) as [E|E].
  - exfalso. apply Hn. now left.
  - f_equal. apply IH. intros H. apply Hn. now right.
Qed.

(** X12. [update_tag] that gives a tag the name another tag holds fails
    on [tags.name UNIQUE] and changes nothing. *)
Theorem update_tag_name_taken (db : TagStore) (t t' : Tag) (color : string) :
  In t (st_tags db) -> In t' (st_tags db) -> tag_id t' <> tag_id t ->
  update_tag db (tag_id t) (tag_name t') color
  = (Err (Sqlite "UNIQUE constraint failed: tags.name"), db).
Proof.
  intros Ht Ht' Hne. unfold update_tag.
  replace (existsb _ (st_tags db) && existsb _ (st_tags db)) with true; [reflexivity|].
  symmetry. apply andb_true_intro. split; apply existsb_exists.
  - exists t. split; [exact Ht|]. apply String.eqb_refl.
  - exists t'. split; [exact Ht'|]. apply andb_true_intro. split.
    + apply negb_true_iff, String.eqb_neq. exact Hne.
    + apply String.eqb_refl.
Qed.

(** Lookup in the association list, [unwrap_or_default]. *)
Definition map_lookup (k : string) (m : TagMap) : list Tag :=
  match find (fun p => String.eqb k (fst p)) m with Some (_, vs) => vs | None => [] end.



Lemma map_push_lookup (k k' : string) (v : Tag) (m : TagMap) :
  map_lookup k (map_push k' v m) = if String.eqb k k' then map_lookup k m ++ [v] else map_lookup k m.
Proof.
  unfold map_lookup. induction m as [|[k0 vs] m IH]; cbn.
  - destruct (String.eqb_spec k k'); reflexivity.
  - destruct (String.eqb_spec k' k0) as [E|E]; cbn.
    + subst k0. destruct (String.eqb k k'); reflexivity.
    + destruct (String.eqb_spec k k0) as [E'|E'].
      * subst k0. destruct (String.eqb_spec k k'); [congruence|reflexivity].
      * exact IH.
Qed.

Lemma map_push_keys (k : string) (v : Tag) (m : TagMap) :
  NoDup (map fst m) -> NoDup (map fst (map_push k v m)).
Proof.
  induction m as [|[k0 vs] m IH]; intros Hnd; cbn; [repeat constructor; intros []|].
  cbn in Hnd. apply NoDup_cons_iff in Hnd as [Hk0 Hnd].
  destruct (String.eqb_spec k k0); cbn; constructor; try assumption.
  - intros Hin. apply Hk0. clear -Hin n.
    induction m as [|[k1 vs1] m IH]; cbn in *; [destruct Hin as [<-|[]]; congruence|].
    destruct (String.eqb k k1); cbn in Hin.
    + exact Hin.
    + destruct Hin as [<-|Hin]; [now left|right; now apply IH].
  - now apply IH.
Qed.

Lemma NoDup_map_filter_gen {A B} (p : A -> bool) (f : A -> B) (l : list A) :
  NoDup (map f l) -> NoDup (map f (filter p l)).
Proof.
  intros Hnd. induction l as [|x rest IH]; cbn in *; [exact Hnd|].
  inversion Hnd as [|? ? Hx Hrest]; subst.
  destruct (p x); cbn; [constructor|]; [|apply IH; exact Hrest|apply IH; exact Hrest].
  rewrite in_map_iff. intros [y [Hy Hy']]. rewrite filter_In in Hy'.
  apply Hx. rewrite <- Hy. apply in_map. apply Hy'.
Qed.

Lemma find_filter_same {A} (p q : A -> bool) (l : list A) :
  (forall x, p x = true -> q x = true) -> find p (filter q l) = find p l.
Proof.
  intros Hpq. induction l as [|x l IH]; cbn; [reflexivity|].
  destruct (p x) eqn:Px.
  - rewrite (Hpq x Px). cbn. now rewrite Px.
  - destruct (q x); cbn; [rewrite Px|]; exact IH.
Qed.

Lemma find_filter_none {A} (p q : A -> bool) (l : list A) :
  (forall x, p x = true -> q x = false) -> find p (filter q l) = None.
Proof.
  intros Hpq. induction l as [|x l IH]; cbn; [reflexivity|].
  destruct (q x) eqn:Qx; cbn; [|exact IH].
  destruct (p x) eqn:Px; [|exact IH]. rewrite (Hpq x Px) in Qx. discriminate.
Qed.

Lemma map_remove_eq (k : string) (m : TagMap) :
  NoDup (map fst m) ->
  map_remove k m = (option_map snd (find (fun p => String.eqb k (fst p)) m),
                    filter (fun p => negb (String.eqb k (fst p))) m).
Proof.
  induction m as [|[k0 vs] m IH]; intros Hnd; cbn; [reflexivity|].
  cbn in Hnd. apply NoDup_cons_iff in Hnd as [Hk0 Hnd].
  destruct (String.eqb_spec k k0) as [E|E]; cbn.
  - subst k0. f_equal. symmetry. apply filter_all_true. intros [k1 v1] Hin. cbn.
    apply negb_true_iff, String.eqb_neq. intros <-. apply Hk0. now apply (in_map fst) in Hin.
  - rewrite (IH Hnd). reflexivity.
Qed.

Lemma map_remove_spec (k : string) (m : TagMap) :
  NoDup (map fst m) ->
  let '(r, m') := map_remove k m in
  match r with Some vs => vs | None => [] end = map_lookup k m /\
  map_lookup k m' = [] /\
  (forall k', k' <> k -> map_lookup k' m' = map_lookup k' m) /\
  NoDup (map fst m').
Proof.
  intros Hnd. rewrite (map_remove_eq k m Hnd). unfold map_lookup. split; [|split; [|split]].
  - destruct (find _ m) as [[k1 v1]|]; reflexivity.
  - rewrite find_filter_none; [reflexivity|]. intros x Hx. now rewrite Hx.
  - intros k' Hne. rewrite find_filter_same; [reflexivity|].
    intros [k1 v1] Hx. cbn in *. apply String.eqb_eq in Hx. subst k1.
    apply negb_true_iff, String.eqb_neq. congruence.
  - now apply NoDup_map_filter_gen.
Qed.

(** The loop over [message_ids]: the first occurrence of an id takes its
    entry out of the map, a later one finds none. *)
Lemma bulk_collect_spec (ids : list string) (m : TagMap) :
  NoDup (map fst m) ->
  map mts_message_id (bulk_collect m ids) = ids /\
  forall i id tags, nth_error (bulk_collect m ids) i = Some (mkMessageTags id tags) ->
    (In id (firstn i ids) -> tags = []) /\
    (~ In id (firstn i ids) -> tags = map_lookup id m).
Proof.
  revert m. induction ids as [|k ids IH]; intros m Hnd; cbn.
  - split; [reflexivity|]. intros [|i]; discriminate.
  - pose proof (map_remove_spec k m Hnd) as Hr.
    destruct (map_remove k m) as [r m'] eqn:Er. destruct Hr as [H1 [H2 [H3 H4]]].
    destruct (IH m' H4) as [IH1 IH2]. cbn. split; [now rewrite IH1|].
    intros [|i] id tags Hn; cbn in Hn.
    + injection Hn as <- <-. split; [intros []|intros _; exact H1].
    + destruct (IH2 i id tags Hn) as [J1 J2]. cbn [firstn In]. split.
      * intros [<-|Hin]; [|now apply J1].
        destruct (in_dec string_dec k (firstn i ids)) as [Hin|Hin]; [now apply J1|].
        rewrite (J2 Hin). exact H2.
      * intros Hn'. rewrite (J2 (fun H => Hn' (or_intror H))). apply H3.
        intros <-. apply Hn'. now left.
Qed.

(** Building the map from the rows. *)
Lemma bulk_map_spec (rows : list (string * Tag)) (m : TagMap) :
  NoDup (map fst m) ->
  let m' := fold_left (fun m '(message_id, tag) => map_push message_id tag m) rows m in
  NoDup (map fst m') /\
  forall k, map_lookup k m' = map_lookup k m ++ map snd (filter (fun r => String.eqb (fst r) k) rows).
Proof.
  revert m. induction rows as [|[k0 t] rows IH]; intros m Hnd; cbn.
  - split; [exact Hnd|]. intros k. now rewrite app_nil_r.
  - destruct (IH (map_push k0 t m) (map_push_keys k0 t m Hnd)) as [J1 J2].
    split; [exact J1|]. intros k. rewrite J2, map_push_lookup.
    destruct (String.eqb_spec k k0) as [E|E].
    + subst k0. rewrite String.eqb_refl. cbn. now rewrite <- app_assoc.
    + destruct (String.eqb_spec k0 k); [congruence|]. reflexivity.
Qed.

Lemma flat_map_cons' {A B} (f : A -> list B) (x : A) (l : list A) :
  flat_map f (x :: l) = f x ++ flat_map f l.
Proof. reflexivity. Qed.

Lemma flat_map_app_fun {A B} (f g : A -> list B) (l : list A) :
  Permutation (flat_map (fun x => f x ++ g x) l) (flat_map f l ++ flat_map g l).
Proof.
  induction l as [|x l IH]; cbn; [reflexivity|].
  rewrite <- !app_assoc. apply Permutation_app_head.
  rewrite IH, !app_assoc. apply Permutation_app_tail, Permutation_app_comm.
Qed.

Lemma flat_map_swap {A B C} (g : A -> B -> list C) (la : list A) (lb : list B) :
  Permutation (flat_map (fun a => flat_map (fun b => g a b) lb) la)
              (flat_map (fun b => flat_map (fun a => g a b) la) lb).
Proof.
  induction la as [|a la IH]; cbn.
  - induction lb; cbn; [reflexivity|exact IHlb].
  - rewrite IH. symmetry. apply flat_map_app_fun.
Qed.

Lemma bulk_join_filter (mts : list MessageTag) (tags : list Tag) (ids : list string)
    (id : string) :
  In id ids ->
  map snd (filter (fun r => String.eqb (fst r) id)
    (flat_map (fun mt =>
       if existsb (String.eqb (mt_message_id mt)) ids then
         flat_map (fun t =>
           if String.eqb (mt_tag_id mt) (tag_id t) then [(mt_message_id mt, t)] else [])
           tags
       else []) mts))
  = flat_map (fun mt => flat_map (fun t =>
      if String.eqb (mt_tag_id mt) (tag_id t) && String.eqb (mt_message_id mt) id
      then [t] else []) tags) mts.
Proof.
  intros Hid. induction mts as [|mt mts IH]; [reflexivity|].
  rewrite !flat_map_cons', filter_app, map_app, IH. f_equal.
  destruct (existsb (String.eqb (mt_message_id mt)) ids) eqn:Ex.
  - clear IH. induction tags as [|t ts IHt]; [reflexivity|].
    rewrite !flat_map_cons', filter_app, map_app, IHt.
    destruct (String.eqb (mt_tag_id mt) (tag_id t)); cbn; [|reflexivity].
    destruct (String.eqb (mt_message_id mt) id); reflexivity.
  - assert (Hne : String.eqb (mt_message_id mt) id = false).
    { destruct (String.eqb_spec (mt_message_id mt) id) as [E|E]; [|reflexivity].
      exfalso. assert (existsb (String.eqb (mt_message_id mt)) ids = true) as Ht.
      { apply existsb_exists. exists id. split; [exact Hid|]. now apply String.eqb_eq. }
      congruence. }
    clear IH. induction tags as [|t ts IHt]; [reflexivity|].
    rewrite !flat_map_cons', <- IHt, Hne, andb_false_r. reflexivity.
Qed.

(** The rows of one message id in the bulk SELECT are the rows of
    [get_message_tags]'s join. *)
Lemma bulk_rows_of (db : TagStore) (ids : list string) (id : string) :
  In id ids ->
  Permutation (map snd (filter (fun r => String.eqb (fst r) id) (bulk_rows db ids)))
              (get_message_tags db id).
Proof.
  intros Hid. unfold bulk_rows, get_message_tags.
  transitivity (map snd (filter (fun r => String.eqb (fst r) id)
    (flat_map (fun mt =>
       if existsb (String.eqb (mt_message_id mt)) ids then
         flat_map (fun t =>
           if String.eqb (mt_tag_id mt) (tag_id t) then [(mt_message_id mt, t)] else [])
           (st_tags db)
       else []) (st_message_tags db)))).
  { apply Permutation_map, Permutation_filter'. apply Permutation_sym, sort_by_perm. }
  transitivity (flat_map (fun t =>
       flat_map (fun mt =>
         if String.eqb (mt_tag_id mt) (tag_id t) && String.eqb (mt_message_id mt) id
         then [t] else []) (st_message_tags db)) (st_tags db));
    [|apply sort_by_perm].
  rewrite (flat_map_swap (fun t mt =>
    if String.eqb (mt_tag_id mt) (tag_id t) && String.eqb (mt_message_id mt) id
    then [t] else [])).
  apply Permutation_refl'. now apply bulk_join_filter.
Qed.

(** X13. [get_message_tags_bulk] returns one entry per requested id, in
    the order of the request; the first occurrence of an id carries the
    tags [get_message_tags] returns for it (up to the order of ties), and
    every repeated occurrence an empty list, since the first one removed
    the id from the map. *)
Theorem get_message_tags_bulk_shape (db : TagStore) (ids : list string) :
  exists res,
    get_message_tags_bulk db ids = Ok res /\
    map mts_message_id res = ids /\
    forall i id tags, nth_error res i = Some (mkMessageTags id tags) ->
      (In id (firstn i ids) -> tags = []) /\
      (~ In id (firstn i ids) -> Permutation tags (get_message_tags db id)).
Proof.
  destruct ids as [|k ids'].
  - exists []. split; [reflexivity|]. split; [reflexivity|]. intros [|i]; discriminate.
  - unfold get_message_tags_bulk.
    destruct (bulk_map_spec (bulk_rows db (k :: ids')) [] ltac:(constructor)) as [M1 M2].
    set (M := fold_left _ _ _) in *.
    destruct (bulk_collect_spec (k :: ids') M M1) as [C1 C2].
    eexists. split; [reflexivity|]. split; [exact C1|].
    intros i id tags Hn. destruct (C2 i id tags Hn) as [D1 D2]. split; [exact D1|].
    intros Hnin. rewrite (D2 Hnin), M2. cbn.
    apply bulk_rows_of.
    assert (Hi : nth_error (map mts_message_id (bulk_collect M (k :: ids'))) i = Some id)
      by (rewrite nth_error_map, Hn; reflexivity).
    rewrite C1 in Hi. now apply nth_error_In in Hi.
Qed.

Definition sample_tag_store : TagStore :=
  mkTagStore [mkTag "tag:1" "work" "red" 1 0; mkTag "tag:2" "fun" "blue" 2 1]
             [mkMessageTag "m1" "tag:1" 5; mkMessageTag "m1" "tag:2" 6].

Lemma create_tag_listed_last_witness :
  (forall t, In t (st_tags sample_tag_store) -> - 2 ^ 63 <= tag_display_order t < 2 ^ 63 - 1) /\
  ~ In ("tag:" ++ string_of_Z 3)%string (map tag_id (st_tags sample_tag_store)) /\
  ~ In "home"%string (map tag_name (st_tags sample_tag_store)) /\
  create_tag sample_tag_store 3 "home" "green"
  = (Ok (mkTag "tag:3" "home" "green" 3 2),
     mkTagStore (st_tags sample_tag_store ++ [mkTag "tag:3" "home" "green" 3 2])
       (st_message_tags sample_tag_store)) /\
  exists t,
    create_tag sample_tag_store 3 "home" "green"
    = (Ok t, mkTagStore (st_tags sample_tag_store ++ [t]) (st_message_tags sample_tag_store)) /\
    last_opt (list_tags (mkTagStore (st_tags sample_tag_store ++ [t])
                           (st_message_tags sample_tag_store))) = Some t.
Proof.
  assert (Hr : forall t, In t (st_tags sample_tag_store) ->
                         - 2 ^ 63 <= tag_display_order t < 2 ^ 63 - 1).
  { intros t Ht. simpl in Ht. destruct Ht as [<-|[<-|[]]]; simpl; lia. }
  assert (Hid : ~ In ("tag:" ++ string_of_Z 3)%string (map tag_id (st_tags sample_tag_store))).
  { simpl. intuition discriminate. }
  assert (Hn : ~ In "home"%string (map tag_name (st_tags sample_tag_store))).
  { simpl. intuition discriminate. }
  split; [exact Hr|]. split; [exact Hid|]. split; [exact Hn|]. split; [vm_compute; reflexivity|].
  destruct (create_tag_listed_last sample_tag_store 3 "home" "green" Hr Hid Hn)
    as [t [H1 [_ [_ [_ [H2 _]]]]]].
  exists t. split; [exact H1|exact H2].
Defined.

Lemma create_tag_same_millisecond_witness :
  create_tag sample_tag_store 3 "home" "green"
  = (Ok (mkTag "tag:3" "home" "green" 3 2),
     mkTagStore (st_tags sample_tag_store ++ [mkTag "tag:3" "home" "green" 3 2])
       (st_message_tags sample_tag_store)) /\
  create_tag (mkTagStore (st_tags sample_tag_store ++ [mkTag "tag:3" "home" "green" 3 2])
                (st_message_tags sample_tag_store)) 3 "home" "brown"
  = (Err (Sqlite "UNIQUE constraint failed: tags.name"),
     mkTagStore (st_tags sample_tag_store ++ [mkTag "tag:3" "home" "green" 3 2])
       (st_message_tags sample_tag_store)) /\
  create_tag (mkTagStore (st_tags sample_tag_store ++ [mkTag "tag:3" "home" "green" 3 2])
                (st_message_tags sample_tag_store)) 3 "garden" "brown"
  = (Err (Sqlite "UNIQUE constraint failed: tags.id"),
     mkTagStore (st_tags sample_tag_store ++ [mkTag "tag:3" "home" "green" 3 2])
       (st_message_tags sample_tag_store)).
Proof.
  assert (H : create_tag sample_tag_store 3 "home" "green"
              = (Ok (mkTag "tag:3" "home" "green" 3 2),
                 mkTagStore (st_tags sample_tag_store ++ [mkTag "tag:3" "home" "green" 3 2])
                   (st_message_tags sample_tag_store))) by (vm_compute; reflexivity).
  assert (Hhome : In "home"%string
            (map tag_name (st_tags (mkTagStore (st_tags sample_tag_store ++ [mkTag "tag:3" "home" "green" 3 2])
                                      (st_message_tags sample_tag_store)))))
    by (simpl; tauto).
  assert (Hgarden : ~ In "garden"%string
            (map tag_name (st_tags (mkTagStore (st_tags sample_tag_store ++ [mkTag "tag:3" "home" "green" 3 2])
                                      (st_message_tags sample_tag_store)))))
    by (simpl; intuition discriminate).
  split; [exact H|]. split.
  - exact (proj1 (create_tag_same_millisecond sample_tag_store _ 3 "home" "green" "home" "brown" _ H) Hhome).
  - exact (proj2 (create_tag_same_millisecond sample_tag_store _ 3 "home" "green" "garden" "brown" _ H)
             Hgarden).
Defined.

Lemma update_tag_missing_id_witness :
  ~ In "tag:9"%string (map tag_id (st_tags sample_tag_store)) /\
  update_tag sample_tag_store "tag:9" "misc" "grey" = (Ok tt, sample_tag_store).
Proof.
  assert (H : ~ In "tag:9"%string (map tag_id (st_tags sample_tag_store)))
    by (simpl; intuition discriminate).
  split; [exact H|]. exact (update_tag_missing_id sample_tag_store "tag:9" "misc" "grey" H).
Defined.

Lemma update_tag_name_taken_witness :
  In (mkTag "tag:1" "work" "red" 1 0) (st_tags sample_tag_store) /\
  In (mkTag "tag:2" "fun" "blue" 2 1) (st_tags sample_tag_store) /\
  update_tag sample_tag_store "tag:1" "fun" "green"
  = (Err (Sqlite "UNIQUE constraint failed: tags.name"), sample_tag_store).
Proof.
  assert (H1 : In (mkTag "tag:1" "work" "red" 1 0) (st_tags sample_tag_store)) by (simpl; tauto).
  assert (H2 : In (mkTag "tag:2" "fun" "blue" 2 1) (st_tags sample_tag_store)) by (simpl; tauto).
  split; [exact H1|]. split; [exact H2|].
  exact (update_tag_name_taken sample_tag_store _ _ "green" H1 H2 ltac:(discriminate)).
Defined.

End TagFacts.


(** ** Passphrase normalisation and message batches *)

Module ImporterExtraFacts.

Import Importer.

Open Scope Z_scope.

(** ** Passphrase *)

Lemma filter_trim_start (s : rstr) :
  filter passphrase_keep (trim_start s) = filter passphrase_keep s.
Proof.
  induction s as [|c s IH]; cbn; [reflexivity|].
  destruct (is_whitespace c) eqn:W; cbn; [|reflexivity].
  unfold passphrase_keep at 2. rewrite W. cbn. exact IH.
Qed.

Lemma filter_trim_end (s : rstr) :
  filter passphrase_keep (trim_end s) = filter passphrase_keep s.
Proof.
  induction s as [|c s IH]; cbn; [reflexivity|].
  destruct (trim_end s) as [|c' s'] eqn:E; cbn in IH |- *.
  - destruct (is_whitespace c) eqn:W; cbn.
    + unfold passphrase_keep. rewrite W. cbn. exact IH.
    + rewrite <- IH. reflexivity.
  - rewrite <- IH. reflexivity.
Qed.

Lemma filter_trim (s : rstr) :
  filter passphrase_keep (trim s) = filter passphrase_keep s.
Proof. unfold trim. now rewrite filter_trim_end, filter_trim_start. Qed.

Lemma digit_cases (c : Z) : is_ascii_digit c = true ->
  c = 48 \/ c = 49 \/ c = 50 \/ c = 51 \/ c = 52 \/ c = 53 \/ c = 54 \/ c = 55 \/ c = 56 \/ c = 57.
Proof. unfold is_ascii_digit. rewrite andb_true_iff, !Z.leb_le. lia. Qed.

Lemma digit_keep (c : Z) : is_ascii_digit c = true -> passphrase_keep c = true /\ utf8_len c = 1%nat.
Proof.
  intros H. apply digit_cases in H.
  repeat destruct H as [->|H]; [..|subst c]; split; reflexivity.
Qed.

Lemma filter_keep_digits (s : rstr) :
  forallb is_ascii_digit s = true -> filter passphrase_keep s = s.
Proof.
  induction s as [|c s IH]; cbn; [reflexivity|].
  intros H. apply andb_true_iff in H as [Hc Hs].
  rewrite (proj1 (digit_keep c Hc)). f_equal. now apply IH.
Qed.

Lemma str_len_digits (s : rstr) :
  forallb is_ascii_digit s = true -> str_len s = length s.
Proof.
  induction s as [|c s IH]; [reflexivity|].
  intros H. cbn [forallb] in H. apply andb_true_iff in H as [Hc Hs].
  change (str_len (c :: s)) with (utf8_len c + str_len s)%nat.
  rewrite (proj2 (digit_keep c Hc)), IH by exact Hs. reflexivity.
Qed.

Lemma str_len_nil (s : rstr) : str_len s = 0%nat -> s = [].
Proof.
  destruct s as [|c s]; cbn; [reflexivity|].
  unfold utf8_len. destruct (c <? 128), (c <? 2048), (c <? 65536); discriminate.
Qed.

Lemma normalize_passphrase_spec (raw n : rstr) :
  normalize_passphrase raw = inr n <->
  n = filter passphrase_keep raw /\ length n = 30%nat /\ forallb is_ascii_digit n = true.
Proof.
  unfold normalize_passphrase. rewrite filter_trim.
  destruct (Nat.eqb (str_len (trim raw)) 0) eqn:E.
  - apply Nat.eqb_eq, str_len_nil in E. split; [discriminate|].
    intros [-> [Hl _]]. rewrite <- filter_trim, E in Hl. discriminate.
  - destruct (forallb is_ascii_digit (filter passphrase_keep raw)) eqn:D; cbn.
    + rewrite (str_len_digits _ D).
      destruct (Nat.eqb (length (filter passphrase_keep raw)) 30) eqn:L; cbn.
      * apply Nat.eqb_eq in L.
        split; [intros H; injection H as <-; auto|intros [-> _]; reflexivity].
      * split; [discriminate|]. intros [-> [H _]]. apply Nat.eqb_neq in L. contradiction.
    + destruct (negb (Nat.eqb (str_len (filter passphrase_keep raw)) 30));
        (split; [discriminate|]); intros [-> [_ H]]; congruence.
Qed.

(** X14. [normalize_passphrase] succeeds exactly when the characters of
    the input other than whitespace (Unicode [White_Space]) and [-] are 30
    ASCII digits, and it returns those digits; trimming the input first
    changes nothing, and for digits the byte length it checks is the
    character count. *)
Theorem normalize_passphrase_ok (raw n : rstr) :
  normalize_passphrase raw = inr n <->
  n = filter passphrase_keep raw /\ length n = 30%nat /\ forallb is_ascii_digit n = true.
Proof. apply normalize_passphrase_spec. Qed.

(** X15. A normalized passphrase normalizes to itself. *)
Theorem normalize_passphrase_idempotent (raw n : rstr) :
  normalize_passphrase raw = inr n -> normalize_passphrase n = inr n.
Proof.
  intros H. apply normalize_passphrase_spec in H as [_ [Hl Hd]].
  apply normalize_passphrase_spec. split; [|split; assumption].
  symmetry. now apply filter_keep_digits.
Qed.

(** A passphrase with an ideographic space (U+3000) inside and a
    no-break space (U+00A0) at the end. *)
Definition spaced_passphrase : rstr :=
  of_ascii " 123456-789012-" ++ [12288] ++ of_ascii "345678-901234-567890" ++ [160].

Lemma normalize_passphrase_idempotent_witness :
  normalize_passphrase spaced_passphrase = inr (of_ascii "123456789012345678901234567890") /\
  normalize_passphrase (of_ascii "123456789012345678901234567890")
  = inr (of_ascii "123456789012345678901234567890").
Proof.
  assert (H : normalize_passphrase spaced_passphrase
              = inr (of_ascii "123456789012345678901234567890")) by (vm_compute; reflexivity).
  split; [exact H|]. exact (normalize_passphrase_idempotent _ _ H).
Defined.

Definition stored_id (r : MessagesRow) : string := row_id (mr_data r).
Definition stored_key (r : MessagesRow) : string := row_dedupe_key (mr_data r).

Lemma existsb_false_not_in {B} (f : B -> string) (l : list B) (k : string) :
  existsb (fun r => String.eqb (f r) k) l = false -> ~ In k (map f l).
Proof.
  intros H Hin. apply in_map_iff in Hin as [r [Hr Hin]].
  assert (existsb (fun r => String.eqb (f r) k) l = true) as H'.
  { apply existsb_exists. exists r. split; [exact Hin|]. now apply String.eqb_eq. }
  congruence.
Qed.

Lemma existsb_true_in {B} (f : B -> string) (l : list B) (k : string) :
  existsb (fun r => String.eqb (f r) k) l = true -> exists r, In r l /\ f r = k.
Proof.
  intros H. apply existsb_exists in H as [r [Hin H]]. apply String.eqb_eq in H. eauto.
Qed.

Lemma NoDup_snoc {B} (l : list B) (a : B) : NoDup l -> ~ In a l -> NoDup (l ++ [a]).
Proof.
  intros Hnd Ha. apply (Permutation_NoDup (Permutation_cons_append l a)).
  now constructor.
Qed.

(** One row of the statement. *)
Lemma insert_or_ignore_spec (t : list MessagesRow) (row : MessageRowData) :
  let v := Query.coalesce (row_sent_at row) (row_received_at row) 0 in
  NoDup (map stored_id t) -> NoDup (map stored_key t) ->
  exists a,
    insert_or_ignore_message t row v = (t ++ a, Z.of_nat (length a)) /\
    NoDup (map stored_id (t ++ a)) /\ NoDup (map stored_key (t ++ a)) /\
    (a = [] \/ a = [mkMessagesRow row v]) /\
    (exists r, In r (t ++ a) /\ (stored_id r = row_id row \/ stored_key r = row_dedupe_key row)).
Proof.
  intros v Hi Hk. unfold insert_or_ignore_message.
  destruct (existsb (fun r => String.eqb (row_id (mr_data r)) (row_id row)) t) eqn:Ei.
  - exists []. rewrite app_nil_r. cbn [orb]. split; [reflexivity|]. split; [exact Hi|].
    split; [exact Hk|]. split; [now left|].
    destruct (existsb_true_in _ _ _ Ei) as [r [Hr E]]. exists r. split; [exact Hr|now left].
  - destruct (existsb (fun r => String.eqb (row_dedupe_key (mr_data r)) (row_dedupe_key row)) t)
      eqn:Ek; cbn [orb].
    + exists []. rewrite app_nil_r. split; [reflexivity|]. split; [exact Hi|].
      split; [exact Hk|]. split; [now left|].
      destruct (existsb_true_in _ _ _ Ek) as [r [Hr E]]. exists r. split; [exact Hr|now right].
    + exists [mkMessagesRow row v].
      assert (Hfresh : map (fun r => if String.eqb (row_id (mr_data r)) (row_id row)
                                     then mkMessagesRow (mr_data r)
                                            (Query.coalesce (row_sent_at row) (row_received_at row) 0)
                                     else r) (t ++ [mkMessagesRow row v])
                       = t ++ [mkMessagesRow row v]).
      { rewrite map_app. cbn. rewrite String.eqb_refl. f_equal.
        - apply existsb_false_not_in in Ei. clear -Ei.
          induction t as [|r t IH]; cbn; [reflexivity|].
          destruct (String.eqb_spec (row_id (mr_data r)) (row_id row)) as [E|E].
          + exfalso. apply Ei. now left.
          + f_equal. apply IH. intros H. apply Ei. now right. }
      split; [destruct (v =? 0); [rewrite Hfresh|]; reflexivity|].
      split; [|split; [|split; [now right|]]].
      * rewrite map_app. apply NoDup_snoc; [exact Hi|]. exact (existsb_false_not_in _ _ _ Ei).
      * rewrite map_app. apply NoDup_snoc; [exact Hk|]. exact (existsb_false_not_in _ _ _ Ek).
      * exists (mkMessagesRow row v). split; [apply in_or_app; right; now left|now left].
Qed.

Lemma fold_insert_spec (batch : list MessageRowData) (t : list MessagesRow) (n : Z) :
  NoDup (map stored_id t) -> NoDup (map stored_key t) ->
  exists added,
    fold_left (fun '(t, n) row =>
        let '(t', c) := insert_or_ignore_message t row
                          (Query.coalesce (row_sent_at row) (row_received_at row) 0) in
        (t', n + c)) batch (t, n)
    = (t ++ added, n + Z.of_nat (length added)) /\
    NoDup (map stored_id (t ++ added)) /\ NoDup (map stored_key (t ++ added)) /\
    (forall r, In r added ->
       In (mr_data r) batch /\
       mr_sort_ts r = Query.coalesce (row_sent_at (mr_data r)) (row_received_at (mr_data r)) 0) /\
    (forall row, In row batch -> exists r, In r (t ++ added) /\
       (stored_id r = row_id row \/ stored_key r = row_dedupe_key row)).
Proof.
  revert t n. induction batch as [|row batch IH]; intros t n Hi Hk.
  - exists []. rewrite app_nil_r. cbn. split; [f_equal; lia|]. split; [exact Hi|].
    split; [exact Hk|]. split; intros ? [].
  - cbn [fold_left].
    destruct (insert_or_ignore_spec t row Hi Hk) as [a [Ea [Hi' [Hk' [Ha Hr]]]]].
    rewrite Ea.
    destruct (IH (t ++ a) (n + Z.of_nat (length a)) Hi' Hk') as [b [Eb [Hi'' [Hk'' [Hb Hrb]]]]].
    exists (a ++ b). rewrite app_assoc. split; [rewrite Eb, length_app; f_equal; lia|].
    split; [exact Hi''|]. split; [exact Hk''|]. split.
    + intros r Hin. apply in_app_or in Hin as [Hin|Hin].
      * destruct Ha as [E|E]; subst a; [destruct Hin|].
        destruct Hin as [<-|[]]. split; [now left|reflexivity].
      * destruct (Hb r Hin) as [H1 H2]. split; [now right|exact H2].
    + intros row' [<-|Hin].
      * destruct Hr as [r [Hin Hm]]. exists r. split; [|exact Hm].
        apply in_or_app. left. exact Hin.
      * now apply Hrb.
Qed.

Lemma insert_message_batch_spec (table : list MessagesRow) (batch : list MessageRowData) :
  NoDup (map stored_id table) -> NoDup (map stored_key table) ->
  exists added,
    insert_message_batch table batch = (Ok (Z.of_nat (length added)), table ++ added) /\
    NoDup (map stored_id (table ++ added)) /\ NoDup (map stored_key (table ++ added)) /\
    (forall r, In r added ->
       In (mr_data r) batch /\ Query.msg_sort_ts (message_of r) = Query.msg_ts (message_of r)) /\
    (forall row, In row batch -> exists r, In r (table ++ added) /\
       (stored_id r = row_id row \/ stored_key r = row_dedupe_key row)).
Proof.
  intros Hi Hk. destruct batch as [|row0 rest].
  - exists []. rewrite app_nil_r. split; [reflexivity|]. split; [exact Hi|].
    split; [exact Hk|]. split; intros ? [].
  - destruct (fold_insert_spec (row0 :: rest) table 0 Hi Hk) as [added [E [H1 [H2 [H3 H4]]]]].
    exists added. unfold insert_message_batch. rewrite E. split; [reflexivity|].
    split; [exact H1|]. split; [exact H2|]. split; [|exact H4].
    intros r Hr. destruct (H3 r Hr) as [Hb Hs]. split; [exact Hb|].
    unfold message_of, Query.msg_ts. cbn. exact Hs.
Qed.

(** X16. On a table whose ids and dedupe keys are unique,
    [insert_message_batch] only appends: it returns the number of rows it
    adds, every added row comes from the batch and has [sort_ts =
    COALESCE(sent_at, received_at, 0)], ids and dedupe keys stay unique, and
    every row of the batch is either added or shares its id or dedupe key
    with a stored row. *)
Theorem insert_message_batch_effect (table : list MessagesRow) (batch : list MessageRowData) :
  NoDup (map stored_id table) -> NoDup (map stored_key table) ->
  exists added,
    insert_message_batch table batch = (Ok (Z.of_nat (length added)), table ++ added) /\
    NoDup (map stored_id (table ++ added)) /\ NoDup (map stored_key (table ++ added)) /\
    (forall r, In r added ->
       In (mr_data r) batch /\ Query.msg_sort_ts (message_of r) = Query.msg_ts (message_of r)) /\
    (forall row, In row batch -> exists r, In r (table ++ added) /\
       (stored_id r = row_id row \/ stored_key r = row_dedupe_key row)).
Proof. apply insert_message_batch_spec. Qed.

Lemma fold_insert_all_present (batch : list MessageRowData) (t : list MessagesRow) (n : Z) :
  (forall row, In row batch -> exists r, In r t /\
     (stored_id r = row_id row \/ stored_key r = row_dedupe_key row)) ->
  fold_left (fun '(t, n) row =>
      let '(t', c) := insert_or_ignore_message t row
                        (Query.coalesce (row_sent_at row) (row_received_at row) 0) in
      (t', n + c)) batch (t, n) = (t, n).
Proof.
  revert n. induction batch as [|row batch IH]; intros n Hall; cbn [fold_left]; [reflexivity|].
  assert (Hc : insert_or_ignore_message t row
                 (Query.coalesce (row_sent_at row) (row_received_at row) 0) = (t, 0)).
  { unfold insert_or_ignore_message.
    destruct (Hall row (or_introl eq_refl)) as [r [Hr [E|E]]].
    - replace (existsb _ t) with true; [reflexivity|]. symmetry.
      apply existsb_exists. exists r. split; [exact Hr|]. now apply String.eqb_eq.
    - replace (existsb (fun r => String.eqb (row_dedupe_key (mr_data r)) (row_dedupe_key row)) t)
        with true; [now rewrite orb_true_r|]. symmetry.
      apply existsb_exists. exists r. split; [exact Hr|]. now apply String.eqb_eq. }
  rewrite Hc, Z.add_0_r. apply IH. intros row' Hin. apply Hall. now right.
Qed.

(** X17. Inserting the same batch a second time adds no row and returns 0. *)
Theorem insert_message_batch_again (table table' : list MessagesRow)
    (batch : list MessageRowData) (n : Z) :
  NoDup (map stored_id table) -> NoDup (map stored_key table) ->
  insert_message_batch table batch = (Ok n, table') ->
  insert_message_batch table' batch = (Ok 0, table').
Proof.
  intros Hi Hk E.
  destruct (insert_message_batch_spec table batch Hi Hk) as [added [E' [_ [_ [_ H4]]]]].
  rewrite E' in E. injection E as _ <-.
  destruct batch as [|row0 rest]; [reflexivity|].
  unfold insert_message_batch. rewrite fold_insert_all_present; [reflexivity|exact H4].
Qed.

Definition sample_row (id key : string) (sent recv : option Z) : MessageRowData :=
  mkMessageRowData id "1"%string None sent recv "text"%string (Some "hi"%string) 0 0 None None key.

Definition sample_table : list MessagesRow :=
  [mkMessagesRow (sample_row "sms:1"%string "sms:1"%string (Some 10) None) 10].

Definition sample_batch : list MessageRowData :=
  [sample_row "sms:2"%string "sms:2"%string None (Some 20); sample_row "sms:3"%string "sms:1"%string (Some 30) None;
   sample_row "sms:4"%string "sms:4"%string None None].

Lemma insert_message_batch_effect_witness :
  NoDup (map stored_id sample_table) /\ NoDup (map stored_key sample_table) /\
  insert_message_batch sample_table sample_batch
  = (Ok 2, sample_table ++ [mkMessagesRow (sample_row "sms:2"%string "sms:2"%string None (Some 20)) 20;
                            mkMessagesRow (sample_row "sms:4"%string "sms:4"%string None None) 0]) /\
  exists added,
    insert_message_batch sample_table sample_batch
    = (Ok (Z.of_nat (length added)), sample_table ++ added).
Proof.
  assert (Hi : NoDup (map stored_id sample_table)) by (repeat constructor; simpl; tauto).
  assert (Hk : NoDup (map stored_key sample_table)) by (repeat constructor; simpl; tauto).
  split; [exact Hi|]. split; [exact Hk|]. split; [vm_compute; reflexivity|].
  destruct (insert_message_batch_effect sample_table sample_batch Hi Hk) as [added [E _]].
  exists added. exact E.
Defined.

Lemma insert_message_batch_again_witness :
  NoDup (map stored_id sample_table) /\ NoDup (map stored_key sample_table) /\
  insert_message_batch sample_table sample_batch
  = (Ok 2, sample_table ++ [mkMessagesRow (sample_row "sms:2"%string "sms:2"%string None (Some 20)) 20;
                            mkMessagesRow (sample_row "sms:4"%string "sms:4"%string None None) 0]) /\
  insert_message_batch
    (sample_table ++ [mkMessagesRow (sample_row "sms:2"%string "sms:2"%string None (Some 20)) 20;
                      mkMessagesRow (sample_row "sms:4"%string "sms:4"%string None None) 0]) sample_batch
  = (Ok 0, sample_table ++ [mkMessagesRow (sample_row "sms:2"%string "sms:2"%string None (Some 20)) 20;
                            mkMessagesRow (sample_row "sms:4"%string "sms:4"%string None None) 0]).
Proof.
  assert (Hi : NoDup (map stored_id sample_table)) by (repeat constructor; simpl; tauto).
  assert (Hk : NoDup (map stored_key sample_table)) by (repeat constructor; simpl; tauto).
  assert (E : insert_message_batch sample_table sample_batch
    = (Ok 2, sample_table ++ [mkMessagesRow (sample_row "sms:2"%string "sms:2"%string None (Some 20)) 20;
                              mkMessagesRow (sample_row "sms:4"%string "sms:4"%string None None) 0]))
    by (vm_compute; reflexivity).
  split; [exact Hi|]. split; [exact Hk|]. split; [exact E|].
  exact (insert_message_batch_again _ _ _ _ Hi Hk E).
Defined.

End ImporterExtraFacts.


(** ** The media cache: [insert], [get] and [evict_lru] *)

Module MediaExtraFacts.

Import Media.

Open Scope Z_scope.

Definition drop_keys (ks : list string) (l : list (string * MediaCacheEntry))
    : list (string * MediaCacheEntry) :=
  filter (fun ke => negb (existsb (String.eqb (fst ke)) ks)) l.

Lemma filter_filter_and {A} (p q : A -> bool) (l : list A) :
  filter q (filter p l) = filter (fun x => p x && q x) l.
Proof.
  induction l as [|x l IH]; cbn; [reflexivity|].
  destruct (p x); cbn; [destruct (q x); cbn; rewrite IH; reflexivity|exact IH].
Qed.

Lemma drop_keys_cons (k : string) (ks : list string) l :
  drop_keys ks (filter (fun ke => negb (String.eqb (fst ke) k)) l) = drop_keys (k :: ks) l.
Proof.
  unfold drop_keys. rewrite filter_filter_and. apply filter_ext. intros ke. cbn.
  destruct (String.eqb (fst ke) k); reflexivity.
Qed.

Lemma drop_keys_nil l : drop_keys [] l = l.
Proof.
  induction l as [|x l IH]; [reflexivity|]. unfold drop_keys in *. cbn in *. now rewrite IH.
Qed.

Lemma In_drop_keys ke ks l : In ke (drop_keys ks l) <-> In ke l /\ ~ In (fst ke) ks.
Proof.
  unfold drop_keys. rewrite filter_In, Bool.negb_true_iff. split.
  - intros [Hin Hx]. split; [exact Hin|]. intros Hk.
    assert (existsb (String.eqb (fst ke)) ks = true) as E.
    { apply existsb_exists. exists (fst ke). split; [exact Hk|apply String.eqb_refl]. }
    congruence.
  - intros [Hin Hn]. split; [exact Hin|].
    destruct (existsb (String.eqb (fst ke)) ks) eqn:E; [|reflexivity].
    apply existsb_exists in E as [k [Hk Heq]]. apply String.eqb_eq in Heq. subst k.
    contradiction.
Qed.

Lemma NoDup_drop_keys ks l : NoDup (map fst l) -> NoDup (map fst (drop_keys ks l)).
Proof. apply TagFacts.NoDup_map_filter_gen. Qed.

Lemma NoDup_fst_unique (l : list (string * MediaCacheEntry)) k e e' :
  NoDup (map fst l) -> In (k, e) l -> In (k, e') l -> e = e'.
Proof.
  induction l as [|[k0 e0] l IH]; cbn; [tauto|].
  intros Hnd H1 H2. inversion Hnd as [|? ? Hn Hnd']; subst.
  destruct H1 as [E1|H1], H2 as [E2|H2].
  - congruence.
  - inversion E1; subst. exfalso. apply Hn. apply in_map_iff. now exists (k, e').
  - inversion E2; subst. exfalso. apply Hn. apply in_map_iff. now exists (k, e).
  - now apply IH.
Qed.

(** [evict_expired] removes exactly the keys found expired. *)
Lemma evict_expired_entries (c : MediaCache) (fs : list string) (now : Z) :
  entries (fst (evict_expired c fs now)) =
  drop_keys (map fst (filter (fun ke => MEDIA_TTL <? now - entry_last_access (snd ke)) (entries c)))
    (entries c).
Proof.
  unfold evict_expired.
  generalize (filter (fun ke => MEDIA_TTL <? now - entry_last_access (snd ke)) (entries c)) as l.
  intros l. revert c fs. induction l as [|[k e] l IH]; intros c fs; cbn.
  - now rewrite drop_keys_nil.
  - rewrite IH. cbn. apply drop_keys_cons.
Qed.

Lemma min_by_last_access_in l m : min_by_last_access l = Some m -> In m l.
Proof.
  induction l as [|ke l IH]; cbn; [discriminate|].
  destruct (min_by_last_access l) as [m'|]; intros H.
  - destruct (_ <? _); inversion H; subst; [right; now apply IH|now left].
  - inversion H; subst. now left.
Qed.

Lemma min_by_last_access_le l m :
  min_by_last_access l = Some m ->
  forall ke, In ke l -> entry_last_access (snd m) <= entry_last_access (snd ke).
Proof.
  revert m. induction l as [|ke0 l IH]; cbn; [discriminate|]; intros m.
  destruct (min_by_last_access l) as [m'|] eqn:Em; intros H ke Hin.
  - specialize (IH m' eq_refl).
    destruct (entry_last_access (snd m') <? entry_last_access (snd ke0)) eqn:Elt;
      inversion H; subst; clear H.
    + apply Z.ltb_lt in Elt. destruct Hin as [<-|Hin]; [lia|now apply IH].
    + apply Z.ltb_ge in Elt. destruct Hin as [<-|Hin]; [lia|]. specialize (IH ke Hin). lia.
  - inversion H; subst. destruct Hin as [<-|Hin]; [lia|].
    destruct l; cbn in Em; [contradiction|].
    destruct (min_by_last_access l); [destruct (_ <? _)|]; discriminate.
Qed.

Lemma min_by_last_access_some l : l <> [] -> exists m, min_by_last_access l = Some m.
Proof.
  destruct l as [|ke l]; [congruence|]. intros _. cbn.
  destruct (min_by_last_access l) as [m|]; [destruct (_ <? _)|]; eauto.
Qed.

Lemma record_eviction_entries c k : entries (record_eviction c k) = entries c.
Proof. reflexivity. Qed.

Lemma filter_length_lt {A} (p : A -> bool) (l : list A) (x : A) :
  In x l -> p x = false -> (length (filter p l) < length l)%nat.
Proof.
  induction l as [|y l IH]; cbn; [tauto|]. intros [<-|Hin] Hp.
  - rewrite Hp. apply Nat.lt_succ_r. clear. induction l as [|z l IH]; cbn; [lia|].
    destruct (p z); cbn; lia.
  - specialize (IH Hin Hp). destruct (p y); cbn; lia.
Qed.

(** Each round of the loop drops the keys it evicts. *)
Lemma evict_lru_loop_drop n c fs :
  exists ks, entries (fst (evict_lru_loop n c fs)) = drop_keys ks (entries c).
Proof.
  revert c fs. induction n as [|n IH]; intros c fs; cbn [evict_lru_loop fst].
  - exists []. now rewrite drop_keys_nil.
  - destruct (Nat.ltb MAX_MEDIA_FILES (length (entries c))).
    + destruct (min_by_last_access (entries c)) as [[k e]|].
      * destruct (IH (record_eviction (mkMediaCache (filter (fun ke => negb (String.eqb (fst ke) k))
              (entries c)) (evicted c)) k) (remove_file (entry_path e) fs)) as [ks Hks].
        exists (k :: ks). rewrite Hks. apply drop_keys_cons.
      * exists []. now rewrite drop_keys_nil.
    + exists []. now rewrite drop_keys_nil.
Qed.

Lemma evict_lru_loop_length n c fs :
  (length (entries (fst (evict_lru_loop n c fs))) <= Nat.max MAX_MEDIA_FILES (length (entries c) - n))%nat.
Proof.
  revert c fs. induction n as [|n IH]; intros c fs; cbn [evict_lru_loop fst].
  - lia.
  - destruct (Nat.ltb MAX_MEDIA_FILES (length (entries c))) eqn:Elt.
    + apply Nat.ltb_lt in Elt.
      destruct (min_by_last_access (entries c)) as [[k e]|] eqn:Em.
      * pose proof (IH (record_eviction (mkMediaCache (filter (fun ke => negb (String.eqb (fst ke) k))
              (entries c)) (evicted c)) k) (remove_file (entry_path e) fs)) as H.
        rewrite record_eviction_entries in H. cbn [entries] in H.
        assert (length (filter (fun ke => negb (String.eqb (fst ke) k)) (entries c)) < length (entries c))%nat.
        { apply (filter_length_lt _ _ (k, e)); [now apply min_by_last_access_in|].
          cbn. now rewrite String.eqb_refl. }
        unfold MAX_MEDIA_FILES in *. lia.
      * destruct (min_by_last_access_some (entries c)) as [m Hm]; [|congruence].
        intros E. rewrite E in Elt. cbn in Elt. unfold MAX_MEDIA_FILES in Elt. lia.
    + apply Nat.ltb_ge in Elt. cbn [fst]. lia.
Qed.

Lemma map_insert_NoDup key e l : NoDup (map fst l) -> NoDup (map fst (map_insert key e l)).
Proof.
  intros Hnd. unfold map_insert.
  destruct (existsb (fun ke => String.eqb (fst ke) key) l) eqn:Ex.
  - rewrite map_map. erewrite map_ext; [exact Hnd|]. intros ke. cbn.
    destruct (String.eqb (fst ke) key) eqn:Ek; [apply String.eqb_eq in Ek; cbn; congruence|reflexivity].
  - rewrite map_app. apply ImporterExtraFacts.NoDup_snoc; [exact Hnd|].
    now apply (ImporterExtraFacts.existsb_false_not_in fst).
Qed.

Lemma map_insert_in key e l : In (key, e) (map_insert key e l).
Proof.
  unfold map_insert. destruct (existsb (fun ke => String.eqb (fst ke) key) l) eqn:Ex.
  - apply existsb_exists in Ex as [ke [Hin Hk]]. apply in_map_iff. exists ke.
    now rewrite Hk.
  - apply in_or_app. right. now left.
Qed.

Lemma map_insert_other key e l ke :
  In ke (map_insert key e l) -> fst ke <> key -> In ke l.
Proof.
  unfold map_insert. destruct (existsb (fun ke => String.eqb (fst ke) key) l).
  - intros Hin Hne. apply in_map_iff in Hin as [x [Hx Hin]].
    destruct (String.eqb (fst x) key); [subst ke; cbn in Hne; congruence|congruence].
  - intros Hin Hne. apply in_app_or in Hin as [Hin|[E|[]]]; [exact Hin|subst ke; cbn in Hne; congruence].
Qed.

(** The entry of [key] is in the map, and every other entry was used
    strictly before it. *)
Definition holds_newest (key : string) (e : MediaCacheEntry) (l : list (string * MediaCacheEntry)) : Prop :=
  NoDup (map fst l) /\ In (key, e) l /\
  forall ke, In ke l -> fst ke <> key -> entry_last_access (snd ke) < entry_last_access e.

Lemma holds_newest_drop key e ks l :
  holds_newest key e l -> ~ In key ks -> holds_newest key e (drop_keys ks l).
Proof.
  intros [Hnd [Hin Hlt]] Hk. split; [now apply NoDup_drop_keys|]. split.
  - apply In_drop_keys. now split.
  - intros ke Hke Hne. apply In_drop_keys in Hke as [Hke _]. now apply Hlt.
Qed.

Lemma evict_expired_holds c fs now key e :
  holds_newest key e (entries c) -> ~ (MEDIA_TTL < now - entry_last_access e) ->
  holds_newest key e (entries (fst (evict_expired c fs now))).
Proof.
  intros H Hn. rewrite evict_expired_entries. apply holds_newest_drop; [exact H|].
  intros Hk. apply in_map_iff in Hk as [[k e'] [Hk Hin]]. cbn in Hk. subst k.
  apply filter_In in Hin as [Hin Hexp]. cbn in Hexp. apply Z.ltb_lt in Hexp.
  destruct H as [Hnd [Hin' _]].
  rewrite (NoDup_fst_unique _ _ _ _ Hnd Hin Hin') in Hexp. contradiction.
Qed.

Lemma exists_other_key (l : list (string * MediaCacheEntry)) key :
  NoDup (map fst l) -> (1 < length l)%nat -> exists ke, In ke l /\ fst ke <> key.
Proof.
  destruct l as [|x [|y l]]; cbn; try lia. intros Hnd _.
  destruct (String.eqb (fst x) key) eqn:Ex.
  - apply String.eqb_eq in Ex. exists y. split; [right; now left|].
    intros Ey. inversion Hnd as [|? ? Hn _]. apply Hn. left. congruence.
  - apply String.eqb_neq in Ex. exists x. split; [now left|exact Ex].
Qed.

Lemma filter_as_drop_keys k l :
  filter (fun ke => negb (String.eqb (fst ke) k)) l = drop_keys [k] l.
Proof. now rewrite <- drop_keys_cons, drop_keys_nil. Qed.

Lemma evict_lru_loop_holds n c fs key e :
  holds_newest key e (entries c) -> holds_newest key e (entries (fst (evict_lru_loop n c fs))).
Proof.
  revert c fs. induction n as [|n IH]; intros c fs H; cbn [evict_lru_loop fst]; [exact H|].
  destruct (Nat.ltb MAX_MEDIA_FILES (length (entries c))) eqn:Elt; [|exact H].
  apply Nat.ltb_lt in Elt.
  destruct (min_by_last_access (entries c)) as [[k en]|] eqn:Em; [|exact H].
  apply IH. rewrite record_eviction_entries. cbn [entries].
  rewrite filter_as_drop_keys. apply holds_newest_drop; [exact H|].
  intros [Ek|[]]. subst k. destruct H as [Hnd [Hin Hlt]].
  assert (en = e) as ->.
  { apply (NoDup_fst_unique (entries c) key); [exact Hnd| |exact Hin].
    now apply min_by_last_access_in. }
  destruct (exists_other_key (entries c) key Hnd) as [ke [Hke Hne]];
    [unfold MAX_MEDIA_FILES in Elt; lia|].
  pose proof (min_by_last_access_le _ _ Em ke Hke). specialize (Hlt ke Hke Hne).
  cbn in *. lia.
Qed.

Lemma get_hit c fs key e t_get t_acc :
  holds_newest key e (entries c) -> ~ (MEDIA_TTL < t_get - entry_last_access e) ->
  fst (fst (get c fs key t_get t_acc)) = Some (entry_path e).
Proof.
  intros H Hn. pose proof (evict_expired_holds c fs t_get key e H Hn) as H'.
  unfold get. destruct (evict_expired c fs t_get) as [c1 fs1]. cbn [fst] in H'.
  destruct H' as [Hnd [Hin _]].
  destruct (find (fun ke => String.eqb (fst ke) key) (entries c1)) as [[k en]|] eqn:Ef.
  - apply find_some in Ef as [Hf Hk]. cbn in Hk. apply String.eqb_eq in Hk. subst k.
    rewrite (NoDup_fst_unique _ _ _ _ Hnd Hf Hin). reflexivity.
  - apply (find_none _ _ Ef) in Hin. cbn in Hin. now rewrite String.eqb_refl in Hin.
Qed.

Lemma MediaCacheEntry_eq_dec (a b : MediaCacheEntry) : {a = b} + {a <> b}.
Proof. decide equality; [apply Z.eq_dec|apply string_dec]. Defined.

Lemma key_entry_eq_dec (a b : string * MediaCacheEntry) : {a = b} + {a <> b}.
Proof. decide equality; [apply MediaCacheEntry_eq_dec|apply string_dec]. Defined.

Lemma evict_lru_loop_oldest n c fs :
  NoDup (map fst (entries c)) ->
  forall ke ke', In ke (entries c) -> ~ In ke (entries (fst (evict_lru_loop n c fs))) ->
  In ke' (entries (fst (evict_lru_loop n c fs))) ->
  entry_last_access (snd ke) <= entry_last_access (snd ke').
Proof.
  revert c fs. induction n as [|n IH]; intros c fs Hnd ke ke' Hin Hout Hin';
    cbn [evict_lru_loop fst] in Hout, Hin'; [contradiction|].
  destruct (Nat.ltb MAX_MEDIA_FILES (length (entries c))); [|contradiction].
  destruct (min_by_last_access (entries c)) as [[k en]|] eqn:Em; [|contradiction].
  set (c' := record_eviction (mkMediaCache (filter (fun ke => negb (String.eqb (fst ke) k))
               (entries c)) (evicted c)) k) in *.
  assert (entries c' = filter (fun ke => negb (String.eqb (fst ke) k)) (entries c)) as Ec'
    by reflexivity.
  destruct (In_dec key_entry_eq_dec ke (entries c')) as [Hk|Hk].
  - apply (IH c' (remove_file (entry_path en) fs)); [|exact Hk|exact Hout|exact Hin'].
    rewrite Ec'. now apply TagFacts.NoDup_map_filter_gen.
  - destruct (evict_lru_loop_drop n c' (remove_file (entry_path en) fs)) as [ks Hks].
    rewrite Hks in Hin'. apply In_drop_keys in Hin' as [Hin' _].
    rewrite Ec' in Hin', Hk. apply filter_In in Hin' as [Hin' _].
    assert (fst ke = k) as Hfk.
    { destruct (String.eqb (fst ke) k) eqn:E; [now apply String.eqb_eq|].
      exfalso. apply Hk. apply filter_In. now rewrite E. }
    destruct ke as [k0 e0]. cbn in Hfk. subst k0.
    assert (e0 = en) as ->.
    { apply (NoDup_fst_unique (entries c) k); [exact Hnd|exact Hin|].
      now apply min_by_last_access_in. }
    exact (min_by_last_access_le _ _ Em ke' Hin').
Qed.

Fixpoint nodupb (l : list string) : bool :=
  match l with
  | [] => true
  | x :: rest => negb (existsb (String.eqb x) rest) && nodupb rest
  end.

Lemma nodupb_NoDup (l : list string) : nodupb l = true -> NoDup l.
Proof.
  induction l as [|x l IH]; cbn; intros H; [constructor|].
  apply andb_true_iff in H as [Hx Hl]. constructor; [|now apply IH].
  intros Hin. apply Bool.negb_true_iff in Hx.
  assert (existsb (String.eqb x) l = true) as E
    by (apply existsb_exists; exists x; split; [exact Hin|apply String.eqb_refl]).
  congruence.
Qed.

(** X18. Whatever the clock, [insert] leaves at most [MAX_MEDIA_FILES]
    entries in the cache, and keeps the keys of the map distinct. *)
Theorem insert_bounded (c : MediaCache) (fs : list string) (key path : string) (t_insert t_expire : Z) :
  NoDup (map fst (entries c)) ->
  (length (entries (fst (insert c fs key path t_insert t_expire))) <= MAX_MEDIA_FILES)%nat /\
  NoDup (map fst (entries (fst (insert c fs key path t_insert t_expire)))).
Proof.
  intros Hnd. unfold insert.
  set (c1 := mkMediaCache (map_insert key (mkMediaCacheEntry path t_insert) (entries c)) (evicted c)).
  assert (Hnd1 : NoDup (map fst (entries (fst (evict_expired c1 fs t_expire))))).
  { rewrite evict_expired_entries. apply NoDup_drop_keys. now apply map_insert_NoDup. }
  destruct (evict_expired c1 fs t_expire) as [c2 fs2]. cbn [fst] in Hnd1. unfold evict_lru.
  split.
  - pose proof (evict_lru_loop_length (length (entries c2)) c2 fs2) as H.
    rewrite Nat.sub_diag, Nat.max_0_r in H. exact H.
  - destruct (evict_lru_loop_drop (length (entries c2)) c2 fs2) as [ks ->].
    now apply NoDup_drop_keys.
Qed.

(** X19. A file inserted at time [t_insert], when every entry already in
    the cache was used before [t_insert], is returned by a [get] of its key
    made within [MEDIA_TTL] of the insertion: neither the expiry nor the
    size limit of [insert] evicts it, nor the expiry of [get]. *)
Theorem insert_then_get (c : MediaCache) (fs : list string) (key path : string)
    (t_insert t_expire t_get t_access : Z) :
  NoDup (map fst (entries c)) ->
  (forall ke, In ke (entries c) -> entry_last_access (snd ke) < t_insert) ->
  t_expire - t_insert <= MEDIA_TTL ->
  t_get - t_insert <= MEDIA_TTL ->
  let '(c', fs') := insert c fs key path t_insert t_expire in
  fst (fst (get c' fs' key t_get t_access)) = Some path.
Proof.
  intros Hnd Hold Hexp Hget. unfold insert.
  set (e := mkMediaCacheEntry path t_insert).
  set (c1 := mkMediaCache (map_insert key e (entries c)) (evicted c)).
  assert (H1 : holds_newest key e (entries c1)).
  { split; [now apply map_insert_NoDup|]. split; [apply map_insert_in|].
    intros ke Hke Hne. apply Hold. exact (map_insert_other _ _ _ _ Hke Hne). }
  assert (H2 : holds_newest key e (entries (fst (evict_expired c1 fs t_expire)))).
  { apply evict_expired_holds; [exact H1|]. cbn. lia. }
  destruct (evict_expired c1 fs t_expire) as [c2 fs2]. cbn [fst] in H2. unfold evict_lru.
  pose proof (evict_lru_loop_holds (length (entries c2)) c2 fs2 key e H2) as H3.
  destruct (evict_lru_loop (length (entries c2)) c2 fs2) as [c3 fs3]. cbn [fst] in H3.
  apply (get_hit c3 fs3 key e t_get t_access H3). cbn. lia.
Qed.

(** X20. With distinct keys, the size limit only evicts least recently
    used entries: every entry [evict_lru] removes was used no later than
    every entry it keeps. *)
Theorem evict_lru_oldest (c : MediaCache) (fs : list string) :
  NoDup (map fst (entries c)) ->
  forall ke ke', In ke (entries c) -> ~ In ke (entries (fst (evict_lru c fs))) ->
  In ke' (entries (fst (evict_lru c fs))) ->
  entry_last_access (snd ke) <= entry_last_access (snd ke').
Proof.
  intros Hnd. unfold evict_lru. apply evict_lru_loop_oldest. exact Hnd.
Qed.

Definition cache_key (n : nat) : string := String (ascii_of_nat (65 + n)) ":v".

(** [n] entries, the [i]-th used at time [i]. *)
Definition sample_cache (n : nat) : MediaCache :=
  mkMediaCache
    (map (fun i => (cache_key i, mkMediaCacheEntry (String (ascii_of_nat (65 + i)) ".bin") (Z.of_nat i)))
       (seq 0 n))
    [].

Lemma insert_bounded_witness :
  NoDup (map fst (entries (sample_cache 20))) /\
  (length (entries (fst (insert (sample_cache 20) [] "Z:v" "Z.bin" 25 30))) <= MAX_MEDIA_FILES)%nat /\
  NoDup (map fst (entries (fst (insert (sample_cache 20) [] "Z:v" "Z.bin" 25 30)))) /\
  evicted (fst (insert (sample_cache 20) [] "Z:v" "Z.bin" 25 30)) = ["A"%string].
Proof.
  assert (H : NoDup (map fst (entries (sample_cache 20))))
    by (apply nodupb_NoDup; vm_compute; reflexivity).
  pose proof (insert_bounded (sample_cache 20) [] "Z:v" "Z.bin" 25 30 H) as HB.
  split; [exact H|]. split; [exact (proj1 HB)|]. split; [exact (proj2 HB)|].
  vm_compute. reflexivity.
Defined.

Lemma insert_then_get_witness :
  NoDup (map fst (entries (sample_cache 20))) /\
  (forall ke, In ke (entries (sample_cache 20)) -> entry_last_access (snd ke) < 25) /\
  30 - 25 <= MEDIA_TTL /\ 200 - 25 <= MEDIA_TTL /\
  (let '(c', fs') := insert (sample_cache 20) [] "Z:v" "Z.bin" 25 30 in
   fst (fst (get c' fs' "Z:v" 200 201)) = Some "Z.bin"%string).
Proof.
  assert (H1 : NoDup (map fst (entries (sample_cache 20))))
    by (apply nodupb_NoDup; vm_compute; reflexivity).
  assert (H2 : forall ke, In ke (entries (sample_cache 20)) -> entry_last_access (snd ke) < 25)
    by (apply (proj1 (Forall_forall _ _)); vm_compute; repeat constructor).
  assert (H3 : 30 - 25 <= MEDIA_TTL) by (unfold MEDIA_TTL; lia).
  assert (H4 : 200 - 25 <= MEDIA_TTL) by (unfold MEDIA_TTL; lia).
  split; [exact H1|]. split; [exact H2|]. split; [exact H3|]. split; [exact H4|].
  exact (insert_then_get (sample_cache 20) [] "Z:v" "Z.bin" 25 30 200 201 H1 H2 H3 H4).
Defined.

Lemma evict_lru_oldest_witness :
  NoDup (map fst (entries (sample_cache 22))) /\
  entries (fst (evict_lru (sample_cache 22) [])) = skipn 2 (entries (sample_cache 22)) /\
  (forall ke ke', In ke (entries (sample_cache 22)) ->
   ~ In ke (entries (fst (evict_lru (sample_cache 22) []))) ->
   In ke' (entries (fst (evict_lru (sample_cache 22) []))) ->
   entry_last_access (snd ke) <= entry_last_access (snd ke')).
Proof.
  assert (H : NoDup (map fst (entries (sample_cache 22))))
    by (apply nodupb_NoDup; vm_compute; reflexivity).
  split; [exact H|]. split; [vm_compute; reflexivity|].
  exact (evict_lru_oldest (sample_cache 22) [] H).
Defined.

End MediaExtraFacts.


(** ** Thread list pages *)

Module ThreadFacts.

Import Query QueryFacts.

Open Scope Z_scope.

Lemma thread_before_irrefl (a : ThreadSummary) : thread_before a a = false.
Proof.
  unfold thread_before. destruct (thr_last_message_at a) as [x|].
  - rewrite Z.ltb_irrefl, id_lt_irrefl, andb_false_r. reflexivity.
  - apply id_lt_irrefl.
Qed.

Lemma thread_before_trans (a b c : ThreadSummary) :
  thread_before a b = true -> thread_before b c = true -> thread_before a c = true.
Proof.
  unfold thread_before.
  destruct (thr_last_message_at a) as [x|], (thr_last_message_at b) as [y|],
    (thr_last_message_at c) as [z|]; try discriminate; try reflexivity.
  - rewrite !orb_true_iff, !andb_true_iff, !Z.ltb_lt, !Z.eqb_eq.
    intros [H1|[H1 I1]] [H2|[H2 I2]]; [left; lia|left; lia|left; lia|].
    right. split; [lia|]. exact (id_lt_trans _ _ _ I1 I2).
  - apply id_lt_trans.
Qed.

Lemma thread_before_total (a b : ThreadSummary) :
  thr_id a <> thr_id b -> thread_before a b = true \/ thread_before b a = true.
Proof.
  intros Hne. unfold thread_before.
  destruct (thr_last_message_at a) as [x|], (thr_last_message_at b) as [y|];
    [|now left|now right|now apply id_lt_total].
  rewrite !orb_true_iff, !andb_true_iff, !Z.ltb_lt, !Z.eqb_eq.
  destruct (Z.lt_trichotomy x y) as [H|[H|H]].
  - right. now left.
  - destruct (id_lt_total _ _ Hne) as [I|I]; [left|right]; right; split; auto; lia.
  - left. now left.
Qed.

Lemma firstn_add_skipn {A} (a b : nat) (l : list A) :
  firstn a l ++ firstn b (skipn a l) = firstn (a + b) l.
Proof.
  revert l. induction a as [|a IH]; intros l; [reflexivity|].
  destruct l as [|x l]; cbn; [now rewrite firstn_nil|]. now rewrite IH.
Qed.

Lemma sql_limit_offset_pages {A} (a b o : Z) (l : list A) :
  0 <= a -> 0 <= o ->
  (0 <= b -> sql_limit_offset a o l ++ sql_limit_offset b (o + a) l = sql_limit_offset (a + b) o l) /\
  sql_limit_offset a o l ++ sql_limit_offset (-1) (o + a) l = sql_limit_offset (-1) o l.
Proof.
  intros Ha Ho. unfold sql_limit_offset, sql_limit.
  rewrite Z2Nat.inj_add by lia. rewrite Nat.add_comm, <- skipn_skipn.
  assert ((a <? 0) = false) as -> by (apply Z.ltb_ge; lia).
  split.
  - intros Hb. assert ((b <? 0) = false) as -> by (apply Z.ltb_ge; lia).
    assert ((a + b <? 0) = false) as -> by (apply Z.ltb_ge; lia).
    rewrite Z2Nat.inj_add by lia. apply firstn_add_skipn.
  - cbn. apply firstn_skipn.
Qed.

Lemma thread_rows_NoDup (threads : list ThreadRow) (messages : list Message) :
  NoDup (map tr_id threads) -> NoDup (map (thread_summary messages) threads).
Proof.
  intros Hnd. apply (NoDup_map_inv thr_id). rewrite map_map. exact Hnd.
Qed.

(** X21. With distinct thread ids, the ORDER BY of [list_threads] admits a
    single order, and its pages join without gap or overlap: the page of
    [a] threads at offset [o] followed by the page at offset [o + a] is the
    page of both sizes at [o], and followed by the unlimited rest it is
    the unlimited result at [o]. *)
Theorem list_threads_pages (threads : list ThreadRow) (messages : list Message) (a b o : Z) :
  NoDup (map tr_id threads) -> 0 <= a -> 0 <= b -> 0 <= o ->
  (forall out, order_admits thread_before (map (thread_summary messages) threads) out ->
     out = sort_by thread_before (map (thread_summary messages) threads)) /\
  list_threads threads messages a o ++ list_threads threads messages b (o + a)
  = list_threads threads messages (a + b) o /\
  list_threads threads messages a o ++ list_threads threads messages (-1) (o + a)
  = list_threads threads messages (-1) o.
Proof.
  intros Hnd Ha Hb Ho. split; [|split].
  - intros out Hout. apply (admits_unique thread_before thread_before_irrefl thread_before_trans);
      [now apply thread_rows_NoDup| |exact Hout].
    intros x y Hx Hy Hne. apply thread_before_total. intros Hid. apply Hne.
    apply in_map_iff in Hx as [tx [<- Hx]]. apply in_map_iff in Hy as [ty [<- Hy]].
    cbn in Hid. f_equal. exact (key_unique_gen tr_id threads tx ty Hnd Hx Hy Hid).
  - unfold list_threads. now apply sql_limit_offset_pages.
  - unfold list_threads. now apply sql_limit_offset_pages.
Qed.

Definition sample_threads : list ThreadRow :=
  [mkThreadRow "t1" (Some "Alice"%string) (Some 50); mkThreadRow "t2" None None;
   mkThreadRow "t3" (Some "Bob"%string) (Some 70); mkThreadRow "t4" None (Some 50)].

Lemma list_threads_pages_witness :
  NoDup (map tr_id sample_threads) /\
  map thr_id (list_threads sample_threads sample_messages (-1) 0)
  = ["t3"%string; "t1"%string; "t4"%string; "t2"%string] /\
  list_threads sample_threads sample_messages 2 0 ++ list_threads sample_threads sample_messages 1 (0 + 2)
  = list_threads sample_threads sample_messages (2 + 1) 0.
Proof.
  assert (H : NoDup (map tr_id sample_threads)) by (repeat constructor; simpl; intuition discriminate).
  split; [exact H|]. split; [vm_compute; reflexivity|].
  exact (proj1 (proj2 (list_threads_pages sample_threads sample_messages 2 1 0 H
    ltac:(lia) ltac:(lia) ltac:(lia)))).
Defined.

End ThreadFacts.


(** ** Message direction and thread activity *)

Module ThreadActivityFacts.

Import Query QueryFacts ThreadFacts Importer.

Open Scope Z_scope.

Lemma outgoing_base_mod (t : Z) : Z.land (t mod 2 ^ 64) 31 = t mod 32.
Proof.
  change 31 with (Z.ones 5). rewrite Z.land_ones by lia.
  change (2 ^ 5) with 32. apply Z.mod_mod_divide.
  exists (2 ^ 59). reflexivity.
Qed.

(** X22. [is_outgoing_type] reads only the base type in the low five bits,
    for negative types too (the [u64] cast is two's complement): a type
    is outgoing exactly when it is 2, 11 or 21 to 26 modulo 32, and
    adding a multiple of 32 (flags in the higher bits) does not change
    the answer. *)
Theorem is_outgoing_type_base (t k : Z) :
  is_outgoing_type t = existsb (Z.eqb (t mod 32)) [21; 22; 23; 24; 25; 26; 2; 11] /\
  is_outgoing_type (t + 32 * k) = is_outgoing_type t.
Proof.
  unfold is_outgoing_type. rewrite !outgoing_base_mod. split; [reflexivity|].
  rewrite Z.mul_comm, Z.mod_add by lia. reflexivity.
Qed.

Lemma max_sort_ts_from (l : list Message) (a : Z) :
  exists r,
    fold_left (fun acc m =>
        match acc with
        | None => Some (msg_sort_ts m)
        | Some a => Some (Z.max a (msg_sort_ts m))
        end) l (Some a) = Some r /\
    (r = a \/ exists m, In m l /\ msg_sort_ts m = r) /\ a <= r /\
    (forall m, In m l -> msg_sort_ts m <= r).
Proof.
  revert a. induction l as [|m l IH]; intros a; cbn.
  - exists a. split; [reflexivity|]. split; [now left|]. split; [lia|tauto].
  - destruct (IH (Z.max a (msg_sort_ts m))) as [r [Hr [Hw [Hle Hub]]]].
    exists r. split; [exact Hr|]. split; [|split; [lia|]].
    + destruct Hw as [E|[m' [Hin E]]].
      * destruct (Z.max_spec a (msg_sort_ts m)) as [[_ Em]|[_ Em]]; rewrite Em in E.
        -- right. exists m. split; [now left|congruence].
        -- now left.
      * right. exists m'. split; [now right|exact E].
    + intros m' [<-|Hin]; [lia|now apply Hub].
Qed.

Lemma max_sort_ts_cases (l : list Message) :
  (l = [] /\ max_sort_ts l = None) \/
  exists x, max_sort_ts l = Some x /\ (exists m, In m l /\ msg_sort_ts m = x) /\
            (forall m, In m l -> msg_sort_ts m <= x).
Proof.
  destruct l as [|m l]; [now left|]. right. unfold max_sort_ts. cbn.
  destruct (max_sort_ts_from l (msg_sort_ts m)) as [r [Hr [Hw [Hle Hub]]]].
  exists r. split; [exact Hr|]. split.
  - destruct Hw as [E|[m' [Hin E]]]; [exists m; split; [now left|congruence]|].
    exists m'. split; [now right|exact E].
  - intros m' [<-|Hin]; [exact Hle|now apply Hub].
Qed.

Lemma thread_rows_total (threads : list ThreadRow) (messages : list Message) :
  NoDup (map tr_id threads) ->
  forall x y, In x (map (thread_summary messages) threads) ->
  In y (map (thread_summary messages) threads) -> x <> y ->
  thread_before x y = true \/ thread_before y x = true.
Proof.
  intros Hnd x y Hx Hy Hne. apply thread_before_total. intros Hid. apply Hne.
  apply in_map_iff in Hx as [tx [<- Hx]]. apply in_map_iff in Hy as [ty [<- Hy]].
  cbn in Hid. f_equal. exact (key_unique_gen tr_id threads tx ty Hnd Hx Hy Hid).
Qed.

Lemma updated_summary (threads : list ThreadRow) (messages : list Message) (s : ThreadSummary) :
  In s (map (thread_summary messages) (update_thread_activity threads messages)) ->
  exists t, In t threads /\ thr_id s = tr_id t /\
    thr_last_message_at s
    = max_sort_ts (filter (fun m => String.eqb (msg_thread_id m) (tr_id t)) messages).
Proof.
  unfold update_thread_activity. rewrite map_map. intros Hs.
  apply in_map_iff in Hs as [t [<- Ht]]. exists t. split; [exact Ht|]. split; reflexivity.
Qed.

(** X23. After [update_thread_activity], [list_threads] lists first a
    thread that holds a newest message: when [m] has the greatest
    [sort_ts] of all messages and belongs to a stored thread, the first
    thread listed has [last_message_at = m.sort_ts] and holds a message
    with that [sort_ts]. *)
Theorem update_thread_activity_recent_first (threads : list ThreadRow) (messages : list Message)
    (m : Message) :
  NoDup (map tr_id threads) -> In m messages -> In (msg_thread_id m) (map tr_id threads) ->
  (forall m', In m' messages -> msg_sort_ts m' <= msg_sort_ts m) ->
  exists t0 rest,
    list_threads (update_thread_activity threads messages) messages (-1) 0 = t0 :: rest /\
    thr_last_message_at t0 = Some (msg_sort_ts m) /\
    exists m', In m' messages /\ msg_thread_id m' = thr_id t0 /\ msg_sort_ts m' = msg_sort_ts m.
Proof.
  intros Hnd Hm Hth Hmax.
  set (U := update_thread_activity threads messages).
  set (L := map (thread_summary messages) U).
  assert (HndU : NoDup (map tr_id U)).
  { unfold U, update_thread_activity. rewrite map_map. exact Hnd. }
  pose proof (sort_by_sorted _ _ thread_before_trans L (thread_rows_NoDup U messages HndU)
                (thread_rows_total U messages HndU)) as Hsorted.
  pose proof (sort_by_perm _ thread_before L) as Hperm.
  assert (Hlist : list_threads U messages (-1) 0 = sort_by thread_before L) by reflexivity.
  (* the row of [m]'s thread *)
  apply in_map_iff in Hth as [t [Ht Hti]].
  set (TT := thread_summary messages
               (mkThreadRow (tr_id t) (tr_name t)
                  (max_sort_ts (filter (fun m0 => String.eqb (msg_thread_id m0) (tr_id t)) messages)))).
  assert (HTT : In TT L).
  { unfold L, U, update_thread_activity. rewrite map_map. apply in_map_iff. now exists t. }
  assert (HmT : In m (filter (fun m0 => String.eqb (msg_thread_id m0) (tr_id t)) messages)).
  { apply filter_In. split; [exact Hm|]. apply String.eqb_eq. congruence. }
  assert (HlastT : thr_last_message_at TT = Some (msg_sort_ts m)).
  { cbn. destruct (max_sort_ts_cases (filter (fun m0 => String.eqb (msg_thread_id m0) (tr_id t)) messages))
      as [[E _]|[x [Ex [[m1 [Hm1 E1]] Hub]]]]; [rewrite E in HmT; destruct HmT|].
    rewrite Ex. f_equal. apply filter_In in Hm1 as [Hm1 _].
    specialize (Hmax m1 Hm1). specialize (Hub m HmT). lia. }
  destruct (sort_by thread_before L) as [|t0 rest] eqn:ES.
  { apply Permutation_sym, Permutation_nil in Hperm. rewrite Hperm in HTT. destruct HTT. }
  exists t0, rest. split; [exact Hlist|].
  assert (Ht0 : In t0 L) by (apply (Permutation_in _ (Permutation_sym Hperm)); now left).
  destruct (updated_summary threads messages t0 Ht0) as [u [Hu [Hid Hlast]]].
  assert (Hhead : TT = t0 \/ thread_before t0 TT = true).
  { apply (Permutation_in _ Hperm) in HTT. destruct HTT as [E|Hin]; [now left|right].
    apply StronglySorted_inv in Hsorted as [_ Hall].
    exact (proj1 (Forall_forall _ _) Hall TT Hin). }
  destruct (max_sort_ts_cases (filter (fun m0 => String.eqb (msg_thread_id m0) (tr_id u)) messages))
    as [[_ E]|[x [Ex [[m1 [Hm1 E1]] _]]]].
  - exfalso. rewrite E in Hlast. destruct Hhead as [<-|Hb]; [congruence|].
    unfold thread_before in Hb. rewrite Hlast, HlastT in Hb. discriminate.
  - rewrite Ex in Hlast. apply filter_In in Hm1 as [Hm1 Hth1]. apply String.eqb_eq in Hth1.
    assert (Hx : x = msg_sort_ts m).
    { specialize (Hmax m1 Hm1). destruct Hhead as [<-|Hb]; [congruence|].
      unfold thread_before in Hb. rewrite Hlast, HlastT in Hb.
      apply orb_true_iff in Hb as [Hb|Hb]; [apply Z.ltb_lt in Hb; lia|].
      apply andb_true_iff in Hb as [Hb _]. now apply Z.eqb_eq in Hb. }
    rewrite Hx in Hlast. split; [exact Hlast|]. exists m1. split; [exact Hm1|].
    split; [congruence|]. congruence.
Qed.

Lemma update_thread_activity_recent_first_witness :
  NoDup (map tr_id sample_threads) /\
  In (mkMessage "m2" "t1" None (Some 20) 20) sample_messages /\
  In "t1"%string (map tr_id sample_threads) /\
  (forall m', In m' sample_messages -> msg_sort_ts m' <= 20) /\
  map thr_id (list_threads (update_thread_activity sample_threads sample_messages) sample_messages (-1) 0)
  = ["t1"%string; "t2"%string; "t3"%string; "t4"%string] /\
  exists t0 rest,
    list_threads (update_thread_activity sample_threads sample_messages) sample_messages (-1) 0
    = t0 :: rest /\
    thr_last_message_at t0 = Some 20 /\
    exists m', In m' sample_messages /\ msg_thread_id m' = thr_id t0 /\ msg_sort_ts m' = 20.
Proof.
  assert (H1 : NoDup (map tr_id sample_threads)) by (repeat constructor; simpl; intuition discriminate).
  assert (H2 : In (mkMessage "m2" "t1" None (Some 20) 20) sample_messages) by (simpl; tauto).
  assert (H3 : In "t1"%string (map tr_id sample_threads)) by (simpl; tauto).
  assert (H4 : forall m', In m' sample_messages -> msg_sort_ts m' <= 20)
    by (apply (proj1 (Forall_forall _ _)); vm_compute; repeat constructor; discriminate).
  split; [exact H1|]. split; [exact H2|]. split; [exact H3|]. split; [exact H4|].
  split; [vm_compute; reflexivity|].
  exact (update_thread_activity_recent_first sample_threads sample_messages
           (mkMessage "m2" "t1" None (Some 20) 20) H1 H2 H3 H4).
Defined.

End ThreadActivityFacts.
